(** * thinc's function registry and config resolver (thinc/_registry.py)

    A shallow embedding of the [registry] class: the registry store, the
    promise detector [is_promise], the argument binder [parse_args], the
    schema synthesiser [make_promise_schema], the resolver
    [make_from_config] and the fill-and-validate engine
    [fill_and_validate], followed by the properties the specification
    states about them. *)

From Stdlib Require Import ZArith Ascii String DecimalString List Sorting.Sorted Sorting.Permutation Lia.
From stdpp Require Import base option list strings gmap.

Local Open Scope string_scope.
Local Open Scope Z_scope.
Local Open Scope list_scope.

(** ** Values

    A config node is a scalar, a mapping with string keys, or (after
    resolution) an object built by a constructor.  A Python [dict] keeps
    its keys in insertion order, so a mapping is an association list; a
    well-formed one has no repeated key ([wf_config] below). *)

#[warnings="-register-all"]
Inductive value : Type :=
| VBool (b : bool)
| VInt (z : Z)
| VStr (s : string)
| VDict (items : list (string * value))
| VObj (cls : string) (attrs : list (string * value)).

Abbreviation dict := (list (string * value)).

(** Structural induction that reaches the values stored in a mapping. *)
Section value_induction.
Variable P : value -> Prop.
Hypothesis HBool : forall b, P (VBool b).
Hypothesis HInt : forall z, P (VInt z).
Hypothesis HStr : forall s, P (VStr s).
Hypothesis HDict : forall items, Forall (fun kv => P (snd kv)) items -> P (VDict items).
Hypothesis HObj : forall cls attrs, Forall (fun kv => P (snd kv)) attrs -> P (VObj cls attrs).

Fixpoint value_nested_ind (v : value) : P v :=
  match v with
  | VBool b => HBool b
  | VInt z => HInt z
  | VStr s => HStr s
  | VDict items =>
      HDict items
        ((fix go (l : dict) : Forall (fun kv => P (snd kv)) l :=
            match l with
            | [] => List.Forall_nil _
            | kv :: l' => @List.Forall_cons _ _ kv l' (value_nested_ind (snd kv)) (go l')
            end) items)
  | VObj cls attrs =>
      HObj cls attrs
        ((fix go (l : dict) : Forall (fun kv => P (snd kv)) l :=
            match l with
            | [] => List.Forall_nil _
            | kv :: l' => @List.Forall_cons _ _ kv l' (value_nested_ind (snd kv)) (go l')
            end) attrs)
  end.
End value_induction.

(** ** Exceptions and results *)

(** The text of a [ValueError]: the f-strings of [registry.create] and
    [registry.get] with their holes, no text at all (the bare
    [raise ValueError] of [get_constructor]), what [int] says of a string
    that it does not convert, or what [inspect.signature] says of a
    built-in that it cannot read. *)
Inductive message : Type :=
| Bare
| Already_exists (registry_name : string)
| Unknown_registry (registry_name : string)
| Could_not_find (func_name : value) (registry_name : string)
| Invalid_literal (literal : string)
| Exceeds_limit
| No_signature (qualname : string).

(** One entry of a pydantic [ValidationError]: where, and what. *)
Inductive error_kind : Type :=
| Missing          (* a required field has no value *)
| Extra_forbidden  (* a key the schema does not declare *)
| Type_mismatch.   (* the value is not of the declared type *)

Inductive exn : Type :=
| ValueError (msg : message)
| RegistryError (func_name : value) (registry_name : string)
| KeyError (key : string)
| IndexError
| AttributeError (attr : string)
| TypeError
| RuntimeError
| ValidationError (errors : list (list string * error_kind))
| Raised (what : string).   (* whatever a constructor itself raises *)

Inductive result (A : Type) : Type :=
| Ok (a : A)
| Raise (e : exn).
Arguments Ok {A} a.
Arguments Raise {A} e.

Definition bind {A B} (m : result A) (k : A -> result B) : result B :=
  match m with
  | Ok a => k a
  | Raise e => Raise e
  end.

Notation "'let*' x := m 'in' k" := (bind m (fun x => k))
  (at level 10, x name, m at level 100, k at level 200).
Notation "'let*' ' pat := m 'in' k" :=
  (bind m (fun x => match x with pat => k end))
  (at level 10, pat pattern, m at level 100, k at level 200).

(** ** Python dictionaries as ordered association lists *)

Section dict_ops.
Context {V : Type}.

Fixpoint dict_get (d : list (string * V)) (key : string) : option V :=
  match d with
  | [] => None
  | (k, v) :: d' => if String.eqb k key then Some v else dict_get d' key
  end.

Definition dict_contains (d : list (string * V)) (key : string) : bool :=
  match dict_get d key with Some _ => true | None => false end.

(** [d[key] = v]: overwrite in place, or append a new key at the end. *)
Fixpoint dict_set (d : list (string * V)) (key : string) (v : V) : list (string * V) :=
  match d with
  | [] => [(key, v)]
  | (k, w) :: d' =>
      if String.eqb k key then (k, v) :: d' else (k, w) :: dict_set d' key v
  end.

(** [d.update(other)]. *)
Definition dict_update (d other : list (string * V)) : list (string * V) :=
  fold_left (fun acc kv => dict_set acc (fst kv) (snd kv)) other d.

Definition keys (d : list (string * V)) : list string := map fst d.
End dict_ops.

(** ** Strings: [startswith("@")], [isdigit], [int]

    A Python [str] is a sequence of Unicode code points.  It is held here
    as its UTF-8 encoding, so that the literals of this file are the Python
    literals.  Equality, [startswith("@")] and, after an ["@"], [key[1:]]
    read the same on the encoding; [isdigit] and [int] look at the code
    points. *)

Definition startswith_at (key : string) : bool :=
  match key with
  | String c _ => Ascii.eqb c "@"%char
  | EmptyString => false
  end.

Definition byte (c : ascii) : Z := Z.of_N (N_of_ascii c).

(** The six low bits of a continuation byte [10xxxxxx]. *)
Definition continuation (c : ascii) : option Z :=
  if (128 <=? byte c) && (byte c <? 192) then Some (byte c - 128) else None.

(** The code points of a string; [None] for bytes that encode no [str]. *)
Fixpoint code_points (s : string) : option (list Z) :=
  match s with
  | EmptyString => Some []
  | String c0 s1 =>
      let b := byte c0 in
      if b <? 128 then option_map (cons b) (code_points s1)
      else if b <? 192 then None
      else if b <? 224 then
        match s1 with
        | String c1 s2 =>
            match continuation c1 with
            | Some x1 =>
                let cp := (b - 192) * 64 + x1 in
                if 128 <=? cp then option_map (cons cp) (code_points s2) else None
            | None => None
            end
        | EmptyString => None
        end
      else if b <? 240 then
        match s1 with
        | String c1 (String c2 s3) =>
            match continuation c1, continuation c2 with
            | Some x1, Some x2 =>
                let cp := ((b - 224) * 64 + x1) * 64 + x2 in
                if (2048 <=? cp) && negb ((55296 <=? cp) && (cp <=? 57343))
                then option_map (cons cp) (code_points s3) else None
            | _, _ => None
            end
        | _ => None
        end
      else if b <? 248 then
        match s1 with
        | String c1 (String c2 (String c3 s4)) =>
            match continuation c1, continuation c2, continuation c3 with
            | Some x1, Some x2, Some x3 =>
                let cp := (((b - 240) * 64 + x1) * 64 + x2) * 64 + x3 in
                if (65536 <=? cp) && (cp <=? 1114111)
                then option_map (cons cp) (code_points s4) else None
            | _, _, _ => None
            end
        | _ => None
        end
      else None
  end.

(** The characters that Unicode 14 (the tables of Python 3.11) gives a
    decimal value come in runs of ten, from the zero of each script; these
    are the zeros, ["0"] first. *)
Definition decimal_zeros : list Z :=
  [48; 1632; 1776; 1984; 2406; 2534; 2662; 2790; 2918; 3046; 3174; 3302;
   3430; 3558; 3664; 3792; 3872; 4160; 4240; 6112; 6160; 6470; 6608;
   6784; 6800; 6992; 7088; 7232; 7248; 42528; 43216; 43264; 43472;
   43504; 43600; 44016; 65296; 66720; 68912; 69734; 69872; 69942; 70096;
   70384; 70736; 70864; 71248; 71360; 71472; 71904; 72016; 72784; 73040;
   73120; 92768; 92864; 93008; 120782; 120792; 120802; 120812; 120822;
   123200; 123632; 125264; 130032].

(** The characters that are digits without a decimal value: superscripts,
    subscripts, circled digits and the like. *)
Definition other_digits : list (Z * Z) :=
  [(178, 179); (185, 185); (4969, 4977); (6618, 6618); (8304, 8304);
   (8308, 8313); (8320, 8329); (9312, 9320); (9332, 9340); (9352, 9360);
   (9450, 9450); (9461, 9469); (9471, 9471); (10102, 10110);
   (10112, 10120); (10122, 10130); (68160, 68163); (69216, 69224);
   (69714, 69722); (127232, 127242)].

(** The decimal value of a character, if it has one. *)
Definition decimal (cp : Z) : option Z :=
  option_map (fun zero => cp - zero)
    (List.find (fun zero => (zero <=? cp) && (cp <? zero + 10)) decimal_zeros).

Definition is_digit (cp : Z) : bool :=
  match decimal cp with
  | Some _ => true
  | None => existsb (fun r => (fst r <=? cp) && (cp <=? snd r)) other_digits
  end.

(** [key.isdigit()]: not empty, and every character is a digit. *)
Definition isdigit (key : string) : bool :=
  match code_points key with
  | Some (cp :: cps) => forallb is_digit (cp :: cps)
  | _ => false
  end.

(** The white space that [int] strips from both ends. *)
Definition is_space (cp : Z) : bool :=
  existsb (Z.eqb cp) [9; 10; 11; 12; 13; 32; 133; 160; 5760; 8232; 8233; 8239; 8287; 12288]
  || ((8192 <=? cp) && (cp <=? 8202)).

(** What a character is to [int]. *)
Inductive token : Type :=
| Space
| Sign (negative : bool)
| Digit (d : Z)
| Underscore
| Other.

Definition classify (cp : Z) : token :=
  if is_space cp then Space
  else if cp =? 43 then Sign false
  else if cp =? 45 then Sign true
  else if cp =? 95 then Underscore
  else match decimal cp with
       | Some d => Digit d
       | None => Other
       end.

Fixpoint skip_spaces (l : list token) : list token :=
  match l with
  | Space :: l' => skip_spaces l'
  | _ => l
  end.

(** A run of digits, with single underscores between digits: its value so
    far, the number of its digits, and what follows it; [None] for an
    underscore that no digit follows. *)
Fixpoint number (acc count : Z) (l : list token) : option (Z * Z * list token) :=
  match l with
  | Digit d :: l' => number (10 * acc + d) (count + 1) l'
  | Underscore :: Digit d :: l' => number (10 * acc + d) (count + 1) l'
  | Underscore :: _ => None
  | _ => Some (acc, count, l)
  end.

(** [sys.int_max_str_digits], as Python 3.11 sets it. *)
Definition int_max_str_digits : Z := 4300.

(** The digits of a literal, after its sign. *)
Definition magnitude (key : string) (l : list token) : result Z :=
  match l with
  | Digit d :: l' =>
      match number d 1 l' with
      | Some (n, count, rest) =>
          if int_max_str_digits <? count then Raise (ValueError Exceeds_limit)
          else match skip_spaces rest with
               | [] => Ok n
               | _ => Raise (ValueError (Invalid_literal key))
               end
      | None => Raise (ValueError (Invalid_literal key))
      end
  | _ => Raise (ValueError (Invalid_literal key))
  end.

(** [int(key)] on a string: white space, an optional sign, decimal digits
    of any script with single underscores between them, white space. *)
Definition int (key : string) : result Z :=
  match code_points key with
  | Some cps =>
      match skip_spaces (map classify cps) with
      | Sign negative :: l =>
          let* n := magnitude key l in Ok (if negative then - n else n)
      | l => magnitude key l
      end
  | None => Raise (ValueError (Invalid_literal key))
  end.

(** The keys that carry the sigil: [[k for k in obj.keys() if k.startswith("@")]]. *)
Definition id_keys (obj : dict) : list string :=
  List.filter startswith_at (keys obj).

(** ** The promise detector *)

Definition is_promise (obj : value) : bool :=
  match obj with
  | VDict items => (length (id_keys items) =? 1)%nat   (* hasattr(obj, "keys") *)
  | _ => false
  end.

(** ** Schemas

    Modelled from the spec: pydantic (the [create_model], [__fields__],
    [parse_obj] and [dict] that the registry calls) is a library outside
    this repository.  A schema declares named fields, each with a type and
    either a default or the mark "required" (pydantic's [...]); it parses a
    mapping by type-checking every supplied value, populating an absent
    field from its default, flagging a required field that is absent, and
    rejecting undeclared keys when its policy is "forbid". *)

Inductive extra_policy : Type := Allow | Ignore | Forbid.

Record field_of (T : Type) : Type := Field {
  type_ : T;
  default : option value     (* [None]: required *)
}.
Arguments Field {T} type_ default.
Arguments type_ {T} f.
Arguments default {T} f.

#[warnings="-register-all"]
Inductive ty : Type :=
| TAny                         (* typing.Any *)
| TStr                         (* str *)
| TInt                         (* int *)
| TObj (cls : string)          (* a class: instances only *)
| TModel (fields : list (string * field_of ty)) (extra : extra_policy)
| TEmpty.                      (* inspect.Parameter.empty: no annotation *)

Abbreviation field := (field_of ty).

(** ** Constructors

    A registered function is known to the registry in two ways: by what
    [inspect.signature] reads off it, and by what a call of it does. *)

(** [param.kind]. *)
Inductive param_kind : Type :=
| POSITIONAL_ONLY
| POSITIONAL_OR_KEYWORD
| VAR_POSITIONAL
| KEYWORD_ONLY
| VAR_KEYWORD.

(** What [inspect.signature] reads off a parameter. *)
Record parameter : Type := Param {
  name : string;
  kind : param_kind;
  annotation : ty;                (* [TEmpty]: [param.empty] *)
  param_default : option value    (* [None]: [param.empty] *)
}.

(** The local variables of a call: the named parameters in the order of
    the signature, what [*args] collects and what [**kwargs] collects. *)
Record frame : Type := Frame {
  locals : dict;
  varargs : list value;
  varkw : dict
}.

(** A registered function: its name, its parameters, the class named
    after [->], the exception that [inspect.signature] raises on it when it
    cannot read it (a built-in without a signature, an object that is not
    callable), and what its body returns or raises once the arguments are
    bound. *)
Record constructor : Type := Constructor {
  qualname : string;
  parameters : list parameter;
  return_annotation : string;
  signature_error : option exn;
  body : frame -> result value
}.

(** [inspect.signature(func)]. *)
Definition signature (func : constructor) : result constructor :=
  match signature_error func with
  | Some e => Raise e
  | None => Ok func
  end.

(** *** Calling a function

    Python binds the positional and keyword arguments of a call to the
    parameters by position, then by name, then from the defaults; the
    annotations play no part.  Every failure to bind is a [TypeError]. *)

Definition takes_position (k : param_kind) : bool :=
  match k with
  | POSITIONAL_ONLY | POSITIONAL_OR_KEYWORD => true
  | _ => false
  end.

Definition takes_keyword (k : param_kind) : bool :=
  match k with
  | POSITIONAL_OR_KEYWORD | KEYWORD_ONLY => true
  | _ => false
  end.

Definition is_var_positional (k : param_kind) : bool :=
  match k with
  | VAR_POSITIONAL => true
  | _ => false
  end.

Definition is_var_keyword (k : param_kind) : bool :=
  match k with
  | VAR_KEYWORD => true
  | _ => false
  end.

(** What binding looks at in a parameter. *)
Definition slot : Type := (string * param_kind * option value)%type.

Definition slot_of (param : parameter) : slot :=
  (name param, kind param, param_default param).

(** The positional arguments, left to right, and those left over. *)
Fixpoint bind_positional (slots : list slot) (args : list value) : dict * list value :=
  match slots with
  | [] => ([], args)
  | (n, k, _) :: slots' =>
      match args with
      | [] => ([], [])
      | a :: args' =>
          if takes_position k then
            let '(bound, extra) := bind_positional slots' args' in
            ((n, a) :: bound, extra)
          else bind_positional slots' args
      end
  end.

(** One keyword argument: to the parameter of that name, which must not
    have a value yet, or into [**kwargs]. *)
Definition bind_keyword (slots : list slot) (acc : result (dict * dict))
           (kv : string * value) : result (dict * dict) :=
  let* '(bound, kw) := acc in
  if existsb (fun s => String.eqb (fst (fst s)) (fst kv) && takes_keyword (snd (fst s))) slots
  then
    if dict_contains bound (fst kv) then Raise TypeError
    else Ok (dict_set bound (fst kv) (snd kv), kw)
  else if existsb (fun s => is_var_keyword (snd (fst s))) slots
  then Ok (bound, dict_set kw (fst kv) (snd kv))
  else Raise TypeError.

(** The named parameters in order, each with its argument or its default. *)
Fixpoint bind_defaults (slots : list slot) (bound : dict) : result dict :=
  match slots with
  | [] => Ok []
  | (n, k, d) :: slots' =>
      if takes_position k || takes_keyword k then
        let* x := match dict_get bound n with
                  | Some v => Ok v
                  | None => match d with
                            | Some v => Ok v
                            | None => Raise TypeError
                            end
                  end in
        let* rest := bind_defaults slots' bound in
        Ok ((n, x) :: rest)
      else bind_defaults slots' bound
  end.

Definition bind_slots (slots : list slot) (args : list value) (kwargs : dict)
  : result frame :=
  let '(bound, extra) := bind_positional slots args in
  let too_many :=
    match extra with
    | [] => false
    | _ :: _ => negb (existsb (fun s => is_var_positional (snd (fst s))) slots)
    end in
  if too_many then Raise TypeError
  else
    let* '(bound, kw) := fold_left (bind_keyword slots) kwargs (Ok (bound, [])) in
    let* named := bind_defaults slots bound in
    Ok (Frame named extra kw).

Definition bind_arguments (params : list parameter) (args : list value) (kwargs : dict)
  : result frame :=
  bind_slots (map slot_of params) args kwargs.

(** The call of [func] on the unpacked [args] and [kwargs]. *)
Definition call (func : constructor) (args : list value) (kwargs : dict) : result value :=
  let* bound := bind_arguments (parameters func) args kwargs in
  body func bound.

(** ** The registry store *)

(** The functions of a registry, by name. *)
Abbreviation catalogue := (gmap string constructor).

(** An attribute of the [registry] class, as [registry.get] can meet it:
    a registry made by [catalogue.create] ([optimizers], [schedules],
    [layers] and those added by [create]); an object with a [get] of its
    own that returns [None] for a name it does not have, as the [__dict__]
    of the class is; or anything else, without a [get]: the methods of the
    class, its docstring. *)
Inductive attribute : Type :=
| Registry (reg : catalogue)
| Mapping (members : catalogue)
| Plain.

(** The class: its attributes by name, all those for which
    [hasattr(cls, name)] holds. *)
Abbreviation store := (gmap string attribute).

(** Modelled from the spec: [reg.get(func_name)] on a registry of the
    catalogue library, which is outside this repository.  It returns the
    function registered under the name; for a name that is not registered
    it raises an error of its own, a [ValueError] that names the name and
    the registry (every registry of the class is created under the name of
    its attribute).  A mapping cannot be looked up, as it cannot be
    hashed. *)
Definition catalogue_get (registry_name : string) (reg : catalogue) (func_name : value)
  : result constructor :=
  match func_name with
  | VStr s =>
      match reg !! s with
      | Some func => Ok func
      | None => Raise (RegistryError func_name registry_name)
      end
  | VDict _ => Raise TypeError
  | _ => Raise (RegistryError func_name registry_name)
  end.

(** [reg.get(func_name)] on whatever [getattr(cls, registry_name)] is. *)
Definition attribute_get (registry_name : string) (reg : attribute) (func_name : value)
  : result (option constructor) :=
  match reg with
  | Registry reg =>
      let* func := catalogue_get registry_name reg func_name in Ok (Some func)
  | Mapping members =>
      match func_name with
      | VStr s => Ok (members !! s)
      | VDict _ => Raise TypeError
      | _ => Ok None
      end
  | Plain => Raise (AttributeError "get")
  end.

Definition get (cls : store) (registry_name : string) (func_name : value)
  : result constructor :=
  match cls !! registry_name with
  | None => Raise (ValueError (Unknown_registry registry_name))
  | Some reg =>
      let* func := attribute_get registry_name reg func_name in
      match func with
      | None => Raise (ValueError (Could_not_find func_name registry_name))
      | Some func => Ok func
      end
  end.

(** [key[1:]], for a key that starts with ["@"], which is one byte. *)
Definition tail (key : string) : string :=
  match key with
  | String _ s => s
  | EmptyString => EmptyString
  end.

(** [obj[key]]. *)
Definition getitem {V} (d : list (string * V)) (key : string) : result V :=
  match dict_get d key with
  | Some v => Ok v
  | None => Raise (KeyError key)
  end.

Definition get_constructor (cls : store) (obj : dict) : result constructor :=
  match id_keys obj with
  | [key] =>
      let* value := getitem obj key in
      get cls (tail key) value
  | _ => Raise (ValueError Bare)
  end.

(** ** The argument binder *)

(** Python's [==] and [<] on the values a promise can hold.  [True] and
    [False] are the integers 1 and 0; mappings are equal when they hold
    equal values under the same keys, in whatever order; two objects built
    by separate calls are never equal; [<] is defined between two numbers
    and between two strings and raises [TypeError] otherwise. *)
Definition as_int (v : value) : option Z :=
  match v with
  | VInt z => Some z
  | VBool b => Some (Z.b2z b)
  | _ => None
  end.

Fixpoint py_eq (a b : value) {struct a} : bool :=
  match a with
  | VStr s => match b with VStr t => String.eqb s t | _ => false end
  | VDict d1 =>
      match b with
      | VDict d2 =>
          (length d1 =? length d2)%nat &&
          (fix all (d : dict) : bool :=
             match d with
             | [] => true
             | (k, v) :: d' =>
                 match dict_get d2 k with
                 | Some w => py_eq v w
                 | None => false
                 end && all d'
             end) d1
      | _ => false
      end
  | VObj _ _ => false
  | VInt _ | VBool _ =>
      match as_int a, as_int b with
      | Some x, Some y => x =? y
      | _, _ => false
      end
  end.

Definition py_lt (a b : value) : result bool :=
  match as_int a, as_int b with
  | Some x, Some y => Ok (x <? y)
  | _, _ =>
      match a, b with
      | VStr s, VStr t => Ok (String.ltb s t)
      | _, _ => Raise TypeError
      end
  end.

(** [a < b] on the pairs [(int(key), value)]: the first components decide
    unless they are equal. *)
Definition tuple_lt (a b : Z * value) : result bool :=
  if fst a =? fst b then
    if py_eq (snd a) (snd b) then Ok false else py_lt (snd a) (snd b)
  else Ok (fst a <? fst b).

(** [sorted(args)]: a stable sort that compares with [<] only. *)
Fixpoint insert (x : Z * value) (l : list (Z * value)) : result (list (Z * value)) :=
  match l with
  | [] => Ok [x]
  | y :: l' =>
      let* below := tuple_lt y x in
      if (below : bool) then
        let* r := insert x l' in Ok (y :: r)
      else Ok (x :: y :: l')
  end.

Fixpoint sorted (l : list (Z * value)) : result (list (Z * value)) :=
  match l with
  | [] => Ok []
  | x :: l' => let* s := sorted l' in insert x s
  end.

(** One turn of the loop of [parse_args].  The keys of a config are
    strings, so [isinstance(key, int)] is false. *)
Definition parse_arg (acc : list (Z * value) * dict) (kv : string * value)
  : result (list (Z * value) * dict) :=
  let '(args, kwargs) := acc in
  let '(key, value) := kv in
  if negb (startswith_at key) then
    if isdigit key then
      let* position := int key in
      Ok (args ++ [(position, value)], kwargs)
    else Ok (args, dict_set kwargs key value)
  else Ok (args, kwargs).

(** The loop of [parse_args]: it stops at the first key that raises. *)
Fixpoint parse_items (obj : dict) (acc : list (Z * value) * dict)
  : result (list (Z * value) * dict) :=
  match obj with
  | [] => Ok acc
  | kv :: rest =>
      let* acc := parse_arg acc kv in
      parse_items rest acc
  end.

Definition parse_args (obj : dict) : result (list value * dict) :=
  let* '(args, kwargs) := parse_items obj ([], []) in
  let* ordered := sorted args in
  Ok (map snd ordered, kwargs).

(** ** The resolver *)

(** A call of a registered function, as the resolver makes it. *)
Inductive event : Type :=
| Invoke (func : string) (args : list value) (kwargs : dict).

(** Computations that may call constructors: the calls made so far, and the
    outcome.  A failure keeps the calls made before it. *)
Definition run (A : Type) : Type := (list event * result A)%type.

Definition ret {A} (a : A) : run A := ([], Ok a).

Definition lift {A} (r : result A) : run A := ([], r).

Definition bind_run {A B} (m : run A) (k : A -> run B) : run B :=
  match m with
  | (tr, Ok a) => let '(tr', r) := k a in (tr ++ tr', r)
  | (tr, Raise e) => (tr, Raise e)
  end.

Notation "'let!' x := m 'in' k" := (bind_run m (fun x => k))
  (at level 10, x name, m at level 100, k at level 200).
Notation "'let!' ' pat := m 'in' k" :=
  (bind_run m (fun x => match x with pat => k end))
  (at level 10, pat pattern, m at level 100, k at level 200).

(** The call of [getter] on the unpacked [args] and [kwargs]. *)
Definition invoke (getter : constructor) (args : list value) (kwargs : dict) : run value :=
  ([Invoke (qualname getter) args kwargs], call getter args kwargs).

(** What [make_from_config] does once the loop has filled [filled]. *)
Definition finish (cls : store) (filled : dict) : run value :=
  if is_promise (VDict filled) then
    let! getter := lift (get_constructor cls filled) in
    let! '(args, kwargs) := lift (parse_args filled) in
    invoke getter args kwargs
  else ret (VDict filled).

Fixpoint make_from_config (cls : store) (config : value) {struct config} : run value :=
  match config with
  | VDict items =>
      let! filled :=
        (fix loop (items : dict) (filled : dict) {struct items} : run dict :=
           match items with
           | [] => ret filled
           | (key, value) :: rest =>
               match value with
               | VDict _ =>
                   let! v := make_from_config cls value in
                   loop rest (dict_set filled key v)
               | _ => loop rest (dict_set filled key value)
               end
           end) items [] in
      finish cls filled
  | _ => lift (Raise (AttributeError "items"))   (* config.items() *)
  end.

(** The loop of [make_from_config], on its own. *)
Fixpoint resolve_items (cls : store) (items : dict) (filled : dict) : run dict :=
  match items with
  | [] => ret filled
  | (key, value) :: rest =>
      match value with
      | VDict _ =>
          let! v := make_from_config cls value in
          resolve_items cls rest (dict_set filled key v)
      | _ => resolve_items cls rest (dict_set filled key value)
      end
  end.

(** ** Parsing against a schema

    Modelled from the spec: [schema.parse_obj(obj).dict()].  The scalar
    validators are pydantic's for [str] and [int]: a number is accepted
    where a string is declared and rendered in decimal, a boolean or a
    string that [int] converts is accepted where an integer is declared.
    Defaults are populated as declared, without being checked.  No model
    has a field without a type ([TEmpty]): nothing validates against it. *)

Definition str_of_int (z : Z) : string :=
  DecimalString.NilZero.string_of_int (Z.to_int z).

Definition has_field {T} (fields : list (string * T)) (key : string) : bool :=
  dict_contains fields key.

Definition at_loc (name : string) (e : list string * error_kind) : list string * error_kind :=
  (name :: fst e, snd e).

Definition mismatch : value + list (list string * error_kind) :=
  inr [([], Type_mismatch)].

Fixpoint validate (t : ty) (v : value) {struct t}
  : value + list (list string * error_kind) :=
  match t with
  | TAny => inl v
  | TStr =>
      match v with
      | VStr _ => inl v
      | VInt z => inl (VStr (str_of_int z))
      | VBool b => inl (VStr (if b then "True" else "False"))
      | _ => mismatch
      end
  | TInt =>
      match v with
      | VInt _ => inl v
      | VBool b => inl (VInt (Z.b2z b))
      | VStr s =>
          match int s with
          | Ok z => inl (VInt z)
          | Raise _ => mismatch
          end
      | _ => mismatch
      end
  | TObj cls =>
      match v with
      | VObj cls' _ => if String.eqb cls cls' then inl v else mismatch
      | _ => mismatch
      end
  | TModel fields extra =>
      match v with
      | VDict obj =>
          let '(values, errors) :=
            (fix go (fs : list (string * field)) : dict * list (list string * error_kind) :=
               match fs with
               | [] => ([], [])
               | (name, f) :: fs' =>
                   let '(values, errors) := go fs' in
                   match dict_get obj name with
                   | Some x =>
                       match validate (type_ f) x with
                       | inl x' => ((name, x') :: values, errors)
                       | inr es => (values, map (at_loc name) es ++ errors)
                       end
                   | None =>
                       match default f with
                       | Some d => ((name, d) :: values, errors)
                       | None => (values, ([name], Missing) :: errors)
                       end
                   end
               end) fields in
          let extras := List.filter (fun kv => negb (has_field fields (fst kv))) obj in
          let errors :=
            errors ++ match extra with
                      | Forbid => map (fun kv => ([fst kv], Extra_forbidden)) extras
                      | _ => []
                      end in
          let values :=
            values ++ match extra with Allow => extras | _ => [] end in
          match errors with
          | [] => inl (VDict values)
          | _ => inr errors
          end
      | _ => mismatch
      end
  | TEmpty => mismatch
  end.

(** The loop of [validate] over the declared fields, on its own. *)
Fixpoint validate_fields (obj : dict) (fs : list (string * field))
  : dict * list (list string * error_kind) :=
  match fs with
  | [] => ([], [])
  | (name, f) :: fs' =>
      let '(values, errors) := validate_fields obj fs' in
      match dict_get obj name with
      | Some x =>
          match validate (type_ f) x with
          | inl x' => ((name, x') :: values, errors)
          | inr es => (values, map (at_loc name) es ++ errors)
          end
      | None =>
          match default f with
          | Some d => ((name, d) :: values, errors)
          | None => (values, ([name], Missing) :: errors)
          end
      end
  end.

(** [schema.__fields__[key]]. *)
Definition fields_getitem (schema : ty) (key : string) : result field :=
  match schema with
  | TModel fields _ => getitem fields key
  | _ => Raise (AttributeError "__fields__")
  end.

(** [schema.parse_obj(obj).dict()]. *)
Definition parse_obj (schema : ty) (obj : dict) : result dict :=
  match schema with
  | TModel _ _ =>
      match validate schema (VDict obj) with
      | inl (VDict values) => Ok values
      | inl _ => Raise TypeError
      | inr errors => Raise (ValidationError errors)
      end
  | _ => Raise (AttributeError "parse_obj")
  end.

(** ** The schema synthesiser *)

(** A keyword argument of [create_model]: a field definition
    [(type, default)] or [(type, ...)], or the [__config__] class. *)
Inductive sig_arg : Type :=
| Definition_ (f : field)
| Config_ (extra : extra_policy).

(** [class _PromiseSchemaConfig: extra = "forbid"]. *)
Definition _PromiseSchemaConfig : sig_arg := Config_ Forbid.

(** A field definition whose type is [inspect.Parameter.empty]. *)
Definition untyped (a : sig_arg) : bool :=
  match a with
  | Definition_ (Field TEmpty _) => true
  | _ => false
  end.

(** Modelled from the spec: pydantic's [create_model(name, **sig_args)].  The
    keyword [__config__] gives the policy (pydantic ignores undeclared keys
    without one); every other keyword declares a field.  A field needs a
    type that pydantic can validate: for the marker of a parameter without
    annotation it finds no validator and raises. *)
Definition create_model (sig_args : list (string * sig_arg)) : result ty :=
  if existsb (fun kv => untyped (snd kv)) sig_args then Raise RuntimeError
  else
    Ok (TModel
          (omap (fun kv => match snd kv with
                           | Definition_ f => Some (fst kv, f)
                           | Config_ _ => None
                           end) sig_args)
          (match dict_get sig_args "__config__" with
           | Some (Config_ extra) => extra
           | _ => Ignore
           end)).

(** One turn of the loop over [inspect.signature(func).parameters]. *)
Definition add_param (sig_args : list (string * sig_arg)) (param : parameter)
  : list (string * sig_arg) :=
  match param_default param with
  | Some d => dict_set sig_args (name param) (Definition_ (Field (annotation param) (Some d)))
  | None => dict_set sig_args (name param) (Definition_ (Field (annotation param) None))
  end.

Definition make_promise_schema (cls : store) (obj : dict) : result ty :=
  let* func := get_constructor cls obj in
  match id_keys obj with
  | key0 :: _ =>
      let sig_args := [(key0, Definition_ (Field TStr None))] in
      let* sig := signature func in
      let sig_args := fold_left add_param (parameters sig) sig_args in
      let sig_args := dict_set sig_args "__config__" _PromiseSchemaConfig in
      create_model sig_args
  | [] => Raise IndexError   (* id_keys[0]; get_constructor has raised before *)
  end.

Definition get_return_type (cls : store) (obj : dict) : result string :=
  let* func := get_constructor cls obj in
  let* sig := signature func in
  Ok (return_annotation sig).

(** [type_.__new__(type_)]: a bare instance, which for the built-in classes
    is their empty value. *)
Definition new (type_ : string) : value :=
  if String.eqb type_ "str" then VStr EmptyString
  else if String.eqb type_ "int" then VInt 0
  else if String.eqb type_ "bool" then VBool false
  else if String.eqb type_ "dict" then VDict []
  else VObj type_ [].

(** ** The fill-and-validate engine *)

(** [for key, value in validation.items(): if key not in filled: filled[key] = value]. *)
Definition copy_missing (filled : dict) (kv : string * value) : dict :=
  if negb (dict_contains filled (fst kv)) then dict_set filled (fst kv) (snd kv)
  else filled.

(** What [fill_and_validate] does once the loop has run: parse the
    validation tree, write the parsed values over it, and copy into [filled]
    what it does not have yet. *)
Definition fill_defaults (schema : ty) (filled validation : dict) : result (dict * dict) :=
  let* parsed := parse_obj schema validation in
  let validation := dict_update validation parsed in
  let filled := fold_left copy_missing validation filled in
  Ok (filled, validation).

Fixpoint fill_and_validate (cls : store) (config : value) (schema : ty) {struct config}
  : result (dict * dict) :=
  match config with
  | VDict items =>
      let* '(filled, validation) :=
        (fix loop (items : dict) (filled validation : dict) {struct items}
           : result (dict * dict) :=
           match items with
           | [] => Ok (filled, validation)
           | (key, value) :: rest =>
               if is_promise value then
                 match value with
                 | VDict promise =>
                     let* promise_schema := make_promise_schema cls promise in
                     let* '(f, _) := fill_and_validate cls value promise_schema in
                     let* type_ := get_return_type cls promise in
                     loop rest (dict_set filled key (VDict f))
                               (dict_set validation key (new type_))
                 | _ => Raise (AttributeError "keys")   (* not reached *)
                 end
               else
                 match value with
                 | VDict _ =>
                     let* field := fields_getitem schema key in
                     let* '(f, v) := fill_and_validate cls value (type_ field) in
                     loop rest (dict_set filled key (VDict f))
                               (dict_set validation key (VDict v))
                 | _ =>
                     loop rest (dict_set filled key value)
                               (dict_set validation key value)
                 end
           end) items [] [] in
      fill_defaults schema filled validation
  | _ => Raise (AttributeError "items")   (* config.items() *)
  end.

(** The loop of [fill_and_validate], on its own. *)
Fixpoint fill_items (cls : store) (schema : ty) (items : dict) (filled validation : dict)
  : result (dict * dict) :=
  match items with
  | [] => Ok (filled, validation)
  | (key, value) :: rest =>
      if is_promise value then
        match value with
        | VDict promise =>
            let* promise_schema := make_promise_schema cls promise in
            let* '(f, _) := fill_and_validate cls value promise_schema in
            let* type_ := get_return_type cls promise in
            fill_items cls schema rest (dict_set filled key (VDict f))
                       (dict_set validation key (new type_))
        | _ => Raise (AttributeError "keys")   (* not reached *)
        end
      else
        match value with
        | VDict _ =>
            let* field := fields_getitem schema key in
            let* '(f, v) := fill_and_validate cls value (type_ field) in
            fill_items cls schema rest (dict_set filled key (VDict f))
                       (dict_set validation key (VDict v))
        | _ =>
            fill_items cls schema rest (dict_set filled key value)
                       (dict_set validation key value)
        end
  end.

(** ** Well-formed inputs *)

(** A Python [dict] holds each key once, at every level of the tree. *)
Fixpoint nodup_keys (l : list string) : bool :=
  match l with
  | [] => true
  | k :: l' => negb (existsb (String.eqb k) l') && nodup_keys l'
  end.

Fixpoint wf_config (v : value) : bool :=
  match v with
  | VDict items =>
      nodup_keys (keys items) &&
      (fix all (d : dict) : bool :=
         match d with
         | [] => true
         | (_, w) :: d' => wf_config w && all d'
         end) items
  | _ => true
  end.

(** No node of the tree is a promise. *)
Fixpoint promise_free (v : value) : bool :=
  match v with
  | VDict items =>
      negb (is_promise v) &&
      (fix all (d : dict) : bool :=
         match d with
         | [] => true
         | (_, w) :: d' => promise_free w && all d'
         end) items
  | _ => true
  end.

(** ** What the argument binder is expected to return *)

(** The entries of a promise that are bound by position, and by keyword. *)
Definition is_positional (kv : string * value) : bool :=
  negb (startswith_at (fst kv)) && isdigit (fst kv).

Definition is_keyword (kv : string * value) : bool :=
  negb (startswith_at (fst kv)) && negb (isdigit (fst kv)).

Definition positional (obj : dict) : dict := List.filter is_positional obj.
Definition keyword (obj : dict) : dict := List.filter is_keyword obj.

(** A key that [int] converts, and the integer it converts to. *)
Definition converts (key : string) : bool :=
  match int key with
  | Ok _ => true
  | Raise _ => false
  end.

Definition position (key : string) : Z :=
  match int key with
  | Ok n => n
  | Raise _ => 0
  end.


(** The pair that [parse_args] appends for a positional entry, and the
    order of such pairs by their first component. *)
Definition key_of (kv : string * value) : Z * value := (position (fst kv), snd kv).
Definition fst_le (a b : Z * value) : Prop := fst a <= fst b.

(** ** What the resolver is expected to do *)

(** The resolution of one entry of a mapping: a nested mapping is resolved,
    anything else is kept. *)
Definition child_run (cls : store) (v : value) : run value :=
  match v with
  | VDict _ => make_from_config cls v
  | _ => ret v
  end.

(** The calls made while the entries of a mapping are resolved, in the
    order of the entries. *)
Definition children_trace (cls : store) (items : dict) : list event :=
  flat_map (fun kv => fst (child_run cls (snd kv))) items.

(** The entries of a resolved mapping: the keys of the input, each with its
    resolved value. *)
Definition resolved_entry (cls : store) (kv kv' : string * value) : Prop :=
  fst kv' = fst kv /\ snd (child_run cls (snd kv)) = Ok (snd kv').






(** ** What the schema synthesiser is expected to build *)

(** The field that a parameter declares. *)
Definition param_field (param : parameter) : string * field :=
  (name param, Field (annotation param) (param_default param)).

(** The keyword argument of [create_model] that a parameter becomes. *)
Definition sig_entry (param : parameter) : string * sig_arg :=
  (name param, Definition_ (Field (annotation param) (param_default param))).

(** The fields of the schema of a promise whose sigil key is [key]. *)
Definition promise_fields (key : string) (func : constructor) : list (string * field) :=
  (key, Field TStr None) :: map param_field (parameters func).

(** Parameter names are Python identifiers, each declared once: none
    starts with the sigil, and none is the keyword [__config__] of
    [create_model]. *)
Definition wf_param_name (n : string) : bool :=
  negb (startswith_at n) && negb (String.eqb n "__config__").

Definition wf_names (func : constructor) : bool :=
  nodup_keys (map name (parameters func)) &&
  forallb wf_param_name (map name (parameters func)).

Definition annotated (param : parameter) : bool :=
  match annotation param with
  | TEmpty => false
  | _ => true
  end.

Definition readable (func : constructor) : bool :=
  match signature_error func with
  | None => true
  | Some _ => false
  end.

(** A signature from which a schema can be made: [inspect.signature]
    reads it, every parameter has an annotation, and the names are as
    above. *)
Definition wf_signature (func : constructor) : bool :=
  readable func && forallb annotated (parameters func) && wf_names func.

(** ** What the fill-and-validate engine is expected to do *)

Definition is_mapping (v : value) : bool :=
  match v with
  | VDict _ => true
  | _ => false
  end.

(** One turn of the loop of [fill_and_validate]: what is stored under
    [key] in [filled] and in [validation]. *)
Definition stored : Type := (value * value)%type.

Definition fill_entry (cls : store) (schema : ty) (key : string) (value : value)
  : result stored :=
  if is_promise value then
    match value with
    | VDict promise =>
        let* promise_schema := make_promise_schema cls promise in
        let* '(f, _) := fill_and_validate cls value promise_schema in
        let* type_ := get_return_type cls promise in
        Ok (VDict f, new type_)
    | _ => Raise (AttributeError "keys")   (* not reached *)
    end
  else
    match value with
    | VDict _ =>
        let* field := fields_getitem schema key in
        let* '(f, v) := fill_and_validate cls value (type_ field) in
        Ok (VDict f, VDict v)
    | _ => Ok (value, value)
    end.

(** The entries stored by the loop for the entries of the input. *)
Inductive entries_filled (cls : store) (schema : ty) : dict -> dict -> dict -> Prop :=
| entries_filled_nil : entries_filled cls schema [] [] []
| entries_filled_cons key value fv vv rest fs vs :
    fill_entry cls schema key value = Ok (fv, vv) ->
    entries_filled cls schema rest fs vs ->
    entries_filled cls schema ((key, value) :: rest) ((key, fv) :: fs) ((key, vv) :: vs).

(** The value that parsing gives a declared field: the supplied value as
    its validator returns it, or the default. *)
Definition field_value (obj : dict) (nf : string * field) : option value :=
  match dict_get obj (fst nf) with
  | Some x =>
      match validate (type_ (snd nf)) x with
      | inl x' => Some x'
      | inr _ => None
      end
  | None => default (snd nf)
  end.

Definition field_parsed (obj : dict) (nf : string * field) (kv : string * value) : Prop :=
  fst kv = fst nf /\ field_value obj nf = Some (snd kv).

(** The keys of [obj] that the schema does not declare. *)
Definition extras (fields : list (string * field)) (obj : dict) : dict :=
  List.filter (fun kv => negb (has_field fields (fst kv))) obj.

(** [d.update(other)] entry by entry: the values of [d] overwritten. *)
Definition override (other : dict) (kv : string * value) : string * value :=
  (fst kv, match dict_get other (fst kv) with Some x => x | None => snd kv end).

Definition absent_from (d : dict) (kv : string * value) : bool :=
  negb (dict_contains d (fst kv)).

(** The declared defaults of the fields that [obj] does not supply. *)
Definition missing_defaults (fields : list (string * field)) (obj : dict) : dict :=
  omap (fun nf => if dict_contains obj (fst nf) then None
                  else option_map (pair (fst nf)) (default (snd nf))) fields.

Definition has_default (param : parameter) : bool :=
  match param_default param with
  | Some _ => true
  | None => false
  end.

(** The declared defaults of a function, by parameter name. *)
Definition declared_defaults (func : constructor) : dict :=
  omap (fun p => option_map (pair (name p)) (param_default p)) (parameters func).

(** ** Well-formed schemas and stores *)

(** A check [P] on every field of a schema, at every level, with field
    names declared once (the fields of a pydantic model are a dictionary). *)
Fixpoint check_ty (P : string -> field -> bool) (t : ty) : bool :=
  match t with
  | TModel fields _ =>
      nodup_keys (keys fields) &&
      (fix all (fs : list (string * field)) : bool :=
         match fs with
         | [] => true
         | (n, f) :: fs' => P n f && check_ty P (type_ f) && all fs'
         end) fields
  | _ => true
  end.

Definition check_param (P : string -> field -> bool) (param : parameter) : bool :=
  P (name param) (Field (annotation param) (param_default param)) &&
  check_ty P (annotation param).

Definition check_constructor (P : string -> field -> bool) (func : constructor) : bool :=
  wf_names func && forallb (check_param P) (parameters func).

(** The functions that a lookup under an attribute can return. *)
Definition members_of (a : attribute) : list (string * constructor) :=
  match a with
  | Registry reg => map_to_list reg
  | Mapping members => map_to_list members
  | Plain => []
  end.

Definition check_store (P : string -> field -> bool) (cls : store) : bool :=
  forallb (fun ra => forallb (fun nf => check_constructor P (snd nf))
                             (members_of (snd ra)))
          (map_to_list cls).

Definition any_field (n : string) (f : field) : bool := true.

(** Schemas and signatures as Python has them: names declared once. *)
Definition wf_ty : ty -> bool := check_ty any_field.
Definition wf_store : store -> bool := check_store any_field.

(** Equality of values, entry by entry. *)
Fixpoint value_eqb (a b : value) {struct a} : bool :=
  match a, b with
  | VBool x, VBool y => Bool.eqb x y
  | VInt x, VInt y => x =? y
  | VStr s, VStr t => String.eqb s t
  | VDict d, VDict e =>
      (fix go (d e : dict) {struct d} : bool :=
         match d, e with
         | [], [] => true
         | (k, v) :: d', (k', w) :: e' => String.eqb k k' && value_eqb v w && go d' e'
         | _, _ => false
         end) d e
  | VObj c d, VObj c' e =>
      String.eqb c c' &&
      (fix go (d e : dict) {struct d} : bool :=
         match d, e with
         | [], [] => true
         | (k, v) :: d', (k', w) :: e' => String.eqb k k' && value_eqb v w && go d' e'
         | _, _ => false
         end) d e
  | _, _ => false
  end.

(** A field whose default, if it has one, can be supplied in its place: the
    default is not a mapping, its validator returns it unchanged, and the
    name of the field does not carry the sigil. *)
Definition stable_field (n : string) (f : field) : bool :=
  match default f with
  | None => true
  | Some d =>
      negb (startswith_at n) && negb (is_mapping d) &&
      match validate (type_ f) d with
      | inl d' => value_eqb d' d
      | inr _ => false
      end
  end.

Definition stable_ty : ty -> bool := check_ty stable_field.
Definition stable_store : store -> bool := check_store stable_field.

(** What the filled tree of a node keeps of the node: its sigil keys and
    its scalars. *)
Definition same_head (items f : dict) : Prop :=
  id_keys f = id_keys items /\
  forall key x, dict_get items key = Some x -> is_mapping x = false ->
                dict_get f key = Some x.

(** ** A filled tree without omitted fields

    [no_omitted cls schema config filled]: at every node of the input that
    is filled against a schema, every declared field is present in
    [filled], the ones the input omits with their declared default; a
    promise is filled against the schema of its constructor, a nested
    mapping against the type of its field. *)
#[warnings="-register-all"]
Inductive no_omitted (cls : store) : ty -> value -> dict -> Prop :=
| no_omitted_node fields extra items filled :
    (forall n f, In (n, f) fields ->
       match dict_get items n with
       | Some _ => dict_contains filled n = true
       | None => exists d, default f = Some d /\ dict_get filled n = Some d
       end) ->
    (forall key promise,
       In (key, VDict promise) items -> is_promise (VDict promise) = true ->
       exists schema f,
         make_promise_schema cls promise = Ok schema /\
         dict_get filled key = Some (VDict f) /\
         no_omitted cls schema (VDict promise) f) ->
    (forall key child,
       In (key, VDict child) items -> is_promise (VDict child) = false ->
       exists fld f,
         dict_get fields key = Some fld /\
         dict_get filled key = Some (VDict f) /\
         no_omitted cls (type_ fld) (VDict child) f) ->
    no_omitted cls (TModel fields extra) (VDict items) filled.

(** The same of the returned tree, as the specification words it: no
    field is omitted anywhere in [filled].  [fully_filled cls schema v]: at
    every node of the tree [v] that has a schema, every field that the
    schema declares is present; a promise has the schema of its
    constructor, a nested mapping the type of its field. *)
Fixpoint fully_filled (cls : store) (schema : ty) (v : value) {struct v} : bool :=
  match v with
  | VDict items =>
      match schema with
      | TModel fields _ => forallb (fun nf => dict_contains items (fst nf)) fields
      | _ => true
      end &&
      (fix all (d : dict) : bool :=
         match d with
         | [] => true
         | (key, w) :: d' =>
             match w with
             | VDict child =>
                 if is_promise w then
                   match make_promise_schema cls child with
                   | Ok promise_schema => fully_filled cls promise_schema w
                   | Raise _ => true
                   end
                 else
                   match fields_getitem schema key with
                   | Ok field => fully_filled cls (type_ field) w
                   | Raise _ => true
                   end
             | _ => true
             end && all d'
         end) items
  | _ => true
  end.

(** A field whose default, if it has one, is a scalar under a name without
    the sigil. *)
Definition plain_default (n : string) (f : field) : bool :=
  match default f with
  | None => true
  | Some d => negb (startswith_at n) && negb (is_mapping d)
  end.

Definition plain_ty : ty -> bool := check_ty plain_default.
Definition plain_store : store -> bool := check_store plain_default.

(** ** A class to run the scenarios on

    The functions of the specification's scenarios, as they would be
    written: [def Embed(nO: int, nV: int) -> Model],
    [def Softmax(nO: int = 2) -> Model] and [Chain], which takes any
    number of layers in one starred parameter [layers: Any], each returning
    a [Model] that records what it was built from. *)
Module Scenario.

Definition model (kind : string) (args : list value) (kwargs : dict) : value :=
  VObj "Model" (("kind", VStr kind) :: map (fun v => ("layer", v)) args ++ kwargs).

Definition build (kind : string) (bound : frame) : result value :=
  Ok (model kind (varargs bound) (locals bound)).

Definition Embed : constructor :=
  Constructor "Embed"
    [Param "nO" POSITIONAL_OR_KEYWORD TInt None;
     Param "nV" POSITIONAL_OR_KEYWORD TInt None] "Model" None
    (build "embed").

Definition Softmax : constructor :=
  Constructor "Softmax"
    [Param "nO" POSITIONAL_OR_KEYWORD TInt (Some (VInt 2))] "Model" None
    (build "softmax").

Definition Chain : constructor :=
  Constructor "Chain"
    [Param "layers" VAR_POSITIONAL TAny None] "Model" None
    (build "chain").

Definition layers : catalogue :=
  <["Embed.v0" := Embed]> (<["Softmax.v0" := Softmax]> (<["Chain.v0" := Chain]> ∅)).

(** The attributes that the source gives the class: its three registries,
    its methods and its docstring. *)
Definition methods : list string :=
  ["create"; "get"; "make_from_config"; "fill_and_validate"; "is_promise";
   "get_constructor"; "parse_args"; "make_promise_schema"; "get_return_type";
   "__doc__"].

Definition class_with (layers : catalogue) : store :=
  <["optimizers" := Registry ∅]>
    (<["schedules" := Registry ∅]>
       (<["layers" := Registry layers]>
          (list_to_map (map (fun n => (n, Plain)) methods)))).

Definition registry : store := class_with layers.

Definition embed_node : value :=
  VDict [("@layers", VStr "Embed.v0"); ("nO", VInt 4); ("nV", VInt 10)].

Definition softmax_node : value :=
  VDict [("@layers", VStr "Softmax.v0"); ("nO", VInt 2)].

Definition chain_node : value :=
  VDict [("@layers", VStr "Chain.v0"); ("0", embed_node); ("1", softmax_node)].

Definition two_sigils : value :=
  VDict [("@layers", VStr "A.v0"); ("@optimizers", VStr "B.v0")].



Definition top_schema : ty :=
  TModel [("model", Field (TObj "Model") None)] Ignore.

(** A mapping that supplies the integer [n] as a string and omits [m],
    and its schema. *)
Definition sizes : dict := [("n", VStr "12")].

Definition sizes_fields : list (string * field) :=
  [("n", Field TInt None); ("m", Field TInt (Some (VInt 5)))].

(** A schema whose only field defaults to a mapping in the shape of a
    promise. *)
Definition promise_default : list (string * field) :=
  [("activation", Field TAny (Some (VDict [("@layers", VStr "Softmax.v0")])))].

(** A tree without promises, after the benchmark's [data] and [common]
    sections. *)
Definition plain_tree : value :=
  VDict [("data", VDict [("n_samples", VInt 20000); ("n_tags", VInt 20)]);
         ("common", VDict [("width", VInt 300)])].


End Scenario.

(** ** Creating a registry *)

(** [registry.create(registry_name, entry_points)]: the class with its new
    attribute.  [reg] is the registry that
    [catalogue.create("thinc", registry_name, entry_points=...)] returns, a
    library outside this repository. *)
Definition create (cls : store) (registry_name : string) (reg : catalogue) : result store :=
  match cls !! registry_name with
  | Some _ => Raise (ValueError (Already_exists registry_name))   (* hasattr(cls, registry_name) *)
  | None => Ok (<[registry_name := Registry reg]> cls)
  end.

(** ** Stores whose functions build objects *)

(** No function that a lookup can return returns a mapping. *)
Definition returns_objects (cls : store) : Prop :=
  forall (r : string) (n : value) (func : constructor)
         (args : list value) (kwargs : dict) (v : value),
    get cls r n = Ok func ->
    call func args kwargs = Ok v -> is_mapping v = false.

(** No declared default of the function is a mapping. *)
Definition scalar_defaults (func : constructor) : bool :=
  forallb (fun p => match param_default p with
                    | Some d => negb (is_mapping d)
                    | None => true
                    end) (parameters func).

(** The declared names that a mapping does not supply, in schema order. *)
Definition absent_names (fields : list (string * field)) (items : dict) : list string :=
  List.filter (fun n => negb (dict_contains items n)) (keys fields).

(** ** A class with functions that fail, or that cannot be described *)
Module Failing.

(** [def Broken(nO: int) -> Model], whose body raises. *)
Definition Broken : constructor :=
  Constructor "Broken" [Param "nO" POSITIONAL_OR_KEYWORD TInt None] "Model" None
    (fun bound => Raise (Raised "shape mismatch")).

(** A function of an extension module, which has no signature to read,
    and [def Scale(factor) -> Model], whose parameter has no annotation. *)
Definition Native : constructor :=
  Constructor "native_embed"
    [Param "nO" POSITIONAL_ONLY TEmpty None] "_empty"
    (Some (ValueError (No_signature "native_embed")))
    (Scenario.build "native").

Definition Scale : constructor :=
  Constructor "Scale"
    [Param "factor" POSITIONAL_OR_KEYWORD TEmpty None] "Model" None
    (Scenario.build "scale").

Definition registry : store :=
  Scenario.class_with
    (<["Broken.v0" := Broken]>
       (<["Native.v0" := Native]> (<["Scale.v0" := Scale]> Scenario.layers))).

Definition broken_node : value :=
  VDict [("@layers", VStr "Broken.v0"); ("0", Scenario.softmax_node)].

End Failing.


(** The types that are schemas, with fields of their own. *)
Definition is_model (t : ty) : bool :=
  match t with
  | TModel _ _ => true
  | _ => false
  end.

(** * Properties *)

(** ** Facts about dictionaries *)

Lemma eqb_false_ne (a b : string) : String.eqb a b = false <-> a <> b.
Proof. apply String.eqb_neq. Qed.

Lemma nodup_keys_NoDup (l : list string) : nodup_keys l = true <-> List.NoDup l.
Proof.
  induction l as [|k l IH]; simpl.
  - split; [constructor | reflexivity].
  - rewrite andb_true_iff, negb_true_iff, IH. split.
    + intros [Hk Hl]. constructor; [|exact Hl].
      intros Hin. assert (existsb (String.eqb k) l = true) as E; [|congruence].
      apply existsb_exists. exists k. split; [exact Hin | apply String.eqb_refl].
    + intros Hnd. inversion Hnd as [|? ? Hk Hl]; subst. split; [|exact Hl].
      destruct (existsb (String.eqb k) l) eqn:E; [|reflexivity].
      apply existsb_exists in E as (x & Hx & Hkx).
      apply String.eqb_eq in Hkx. subst x. contradiction.
Qed.

Section dict_facts.
Context {V : Type}.
Implicit Types (d l : list (string * V)) (k : string) (v : V).

Lemma dict_get_None d k : dict_get d k = None <-> ~ In k (keys d).
Proof.
  induction d as [|[k' w] d IH]; simpl.
  - tauto.
  - destruct (String.eqb k' k) eqn:E.
    + apply String.eqb_eq in E. split; [discriminate | intros H; exfalso; apply H; auto].
    + apply String.eqb_neq in E. rewrite IH. tauto.
Qed.

Lemma dict_contains_false d k : dict_contains d k = false <-> ~ In k (keys d).
Proof.
  unfold dict_contains. rewrite <- dict_get_None.
  destruct (dict_get d k); split; congruence.
Qed.

Lemma dict_contains_true d k : dict_contains d k = true <-> In k (keys d).
Proof.
  destruct (dict_contains d k) eqn:E.
  - split; [intros _|reflexivity].
    destruct (in_dec string_dec k (keys d)) as [H|H]; [exact H|].
    apply dict_contains_false in H. congruence.
  - apply dict_contains_false in E. split; [discriminate | contradiction].
Qed.

Lemma dict_get_In d k v : dict_get d k = Some v -> In (k, v) d.
Proof.
  induction d as [|[k' w] d IH]; simpl; [discriminate|].
  destruct (String.eqb k' k) eqn:E.
  - apply String.eqb_eq in E. intros [= ->]. subst. auto.
  - auto.
Qed.

Lemma In_dict_get d k v : List.NoDup (keys d) -> In (k, v) d -> dict_get d k = Some v.
Proof.
  induction d as [|[k' w] d IH]; simpl; [tauto|].
  intros Hnd [Heq|Hin]; inversion Hnd as [|? ? Hk Hd]; subst.
  - injection Heq as -> ->. now rewrite String.eqb_refl.
  - destruct (String.eqb k' k) eqn:E.
    + apply String.eqb_eq in E. subst. exfalso. apply Hk.
      change k with (fst (k, v)). now apply in_map.
    + auto.
Qed.

Lemma dict_get_app d l k :
  dict_get (d ++ l) k = match dict_get d k with Some v => Some v | None => dict_get l k end.
Proof.
  induction d as [|[k' w] d IH]; simpl; [reflexivity|].
  destruct (String.eqb k' k); auto.
Qed.

Lemma dict_set_fresh d k v : ~ In k (keys d) -> dict_set d k v = d ++ [(k, v)].
Proof.
  induction d as [|[k' w] d IH]; simpl; [reflexivity|].
  intros H. destruct (String.eqb k' k) eqn:E.
  - apply String.eqb_eq in E. tauto.
  - f_equal. apply IH. tauto.
Qed.

Lemma dict_get_set d k v k' :
  dict_get (dict_set d k v) k' = if String.eqb k k' then Some v else dict_get d k'.
Proof.
  induction d as [|[k0 w] d IH]; simpl.
  - reflexivity.
  - destruct (String.eqb k0 k) eqn:E; simpl.
    + apply String.eqb_eq in E. subst k0. destruct (String.eqb k k'); reflexivity.
    + destruct (String.eqb k0 k') eqn:E'.
      * apply String.eqb_eq in E'. subst k0. now rewrite String.eqb_sym, E.
      * exact IH.
Qed.

Lemma keys_dict_set d k v :
  keys (dict_set d k v) = if dict_contains d k then keys d else keys d ++ [k].
Proof.
  unfold dict_contains. induction d as [|[k0 w] d IH]; simpl; [reflexivity|].
  destruct (String.eqb k0 k) eqn:E; simpl; [reflexivity|].
  rewrite IH. destruct (dict_get d k); reflexivity.
Qed.

(** Writing a list of fresh, distinct keys appends it. *)
Lemma fold_dict_set_fresh l d :
  List.NoDup (keys d ++ keys l) ->
  fold_left (fun acc kv => dict_set acc (fst kv) (snd kv)) l d = d ++ l.
Proof.
  revert d. induction l as [|[k v] l IH]; intros d Hnd; simpl.
  - now rewrite app_nil_r.
  - simpl in Hnd. rewrite dict_set_fresh.
    + rewrite IH; [now rewrite <- app_assoc|].
      unfold keys in *. rewrite map_app. simpl. now rewrite <- app_assoc.
    + apply NoDup_remove_2 in Hnd. intros Hin. apply Hnd. apply in_or_app. now left.
Qed.
End dict_facts.

Lemma keys_app (d d' : dict) : keys (d ++ d') = keys d ++ keys d'.
Proof. unfold keys. apply map_app. Qed.

(** ** The registry store *)




(** ** The argument binder *)

(** *** Digits and integers *)










Lemma sigil_not_digit (key : string) : startswith_at key = true -> isdigit key = false.
Proof.
  destruct key as [|c s]; [discriminate|]. simpl. intros H.
  apply Ascii.eqb_eq in H. subst c.
  unfold isdigit. cbn [code_points].
  change (byte "@" <? 128) with true. cbv iota.
  destruct (code_points s) as [cps|]; reflexivity.
Qed.


(** *** The loop *)

(** The loop of [parse_args] splits the entries in two, in their order,
    and raises what [int] raises on the first digit key that it does not
    convert. *)
Lemma parse_items_spec (obj : dict) (args : list (Z * value)) (kwargs : dict) :
  match parse_items obj (args, kwargs) with
  | Ok r =>
      Forall (fun kv => converts (fst kv) = true) (positional obj) /\
      r = (args ++ map key_of (positional obj),
           fold_left (fun acc kv => dict_set acc (fst kv) (snd kv)) (keyword obj) kwargs)
  | Raise e =>
      exists pre kv post,
        positional obj = pre ++ kv :: post /\
        Forall (fun kv => converts (fst kv) = true) pre /\
        int (fst kv) = Raise e
  end.
Proof.
  revert args kwargs. induction obj as [|[key value] obj IH]; intros args kwargs.
  - simpl. split; [constructor|]. now rewrite app_nil_r.
  - assert (positional ((key, value) :: obj)
            = if is_positional (key, value) then (key, value) :: positional obj
              else positional obj) as Hpos by reflexivity.
    assert (keyword ((key, value) :: obj)
            = if is_keyword (key, value) then (key, value) :: keyword obj
              else keyword obj) as Hkey by reflexivity.
    rewrite Hpos, Hkey. clear Hpos Hkey.
    unfold is_positional, is_keyword. cbn [parse_items parse_arg fst snd].
    destruct (startswith_at key); cbn [negb andb bind]; [apply IH|].
    destruct (isdigit key) eqn:Hd; cbn [negb bind].
    + destruct (int key) as [n|e] eqn:Hi; cbn [bind].
      * specialize (IH (args ++ [(n, value)]) kwargs).
        destruct (parse_items obj (args ++ [(n, value)], kwargs)) as [r|e].
        -- destruct IH as [Hall ->]. split.
           ++ constructor; [|exact Hall]. unfold converts. cbn [fst]. now rewrite Hi.
           ++ rewrite <- app_assoc. cbn [map app]. unfold key_of at 2, position.
              cbn [fst snd]. now rewrite Hi.
        -- destruct IH as (pre & kv & post & Hsplit & Hpre & Hkv).
           exists ((key, value) :: pre), kv, post. rewrite Hsplit. split; [reflexivity|].
           split; [|exact Hkv]. constructor; [|exact Hpre].
           unfold converts. cbn [fst]. now rewrite Hi.
      * exists [], (key, value), (positional obj).
        split; [reflexivity|]. split; [constructor|exact Hi].
    + apply IH.
Qed.

Lemma keys_filter_NoDup (f : string * value -> bool) (obj : dict) :
  List.NoDup (keys obj) -> List.NoDup (keys (List.filter f obj)).
Proof.
  induction obj as [|[k v] obj IH]; simpl; intros Hnd; [constructor|].
  inversion Hnd as [|? ? Hk Hd]; subst.
  destruct (f (k, v)); simpl; [|auto].
  constructor; [|auto]. intros Hin. apply Hk.
  unfold keys in *. apply in_map_iff in Hin as ([k' v'] & Heq & Hin). simpl in Heq. subst k'.
  apply filter_In in Hin as [Hin _]. change k with (fst (k, v')). now apply in_map.
Qed.

Lemma tuple_lt_keys (a b : Z * value) (r : bool) :
  tuple_lt a b = Ok r -> if r then fst a <= fst b else fst b <= fst a.
Proof.
  unfold tuple_lt. destruct (fst a =? fst b) eqn:E.
  - apply Z.eqb_eq in E. intros _. destruct r; lia.
  - intros [= <-]. destruct (fst a <? fst b) eqn:L.
    + apply Z.ltb_lt in L. lia.
    + apply Z.ltb_ge in L. exact L.
Qed.


Lemma insert_perm (x : Z * value) (l r : list (Z * value)) :
  insert x l = Ok r -> Permutation r (x :: l).
Proof.
  revert r. induction l as [|y l IH]; simpl; intros r.
  - intros [= <-]. apply Permutation_refl.
  - destruct (tuple_lt y x) as [[|]|] eqn:E; simpl; [| |discriminate].
    + destruct (insert x l) as [r'|] eqn:E'; simpl; [|discriminate].
      intros [= <-]. rewrite (IH r' eq_refl). apply perm_swap.
    + intros [= <-]. apply Permutation_refl.
Qed.

Lemma insert_sorted (x : Z * value) (l r : list (Z * value)) :
  Sorted fst_le l -> insert x l = Ok r -> Sorted fst_le r.
Proof.
  revert r. induction l as [|y l IH]; simpl; intros r Hs.
  - intros [= <-]. repeat constructor.
  - destruct (tuple_lt y x) as [[|]|] eqn:E; simpl; [| |discriminate].
    + destruct (insert x l) as [r'|] eqn:E'; simpl; [|discriminate].
      intros [= <-]. apply Sorted_inv in Hs as [Hs Hhd].
      constructor; [now apply IH|].
      apply tuple_lt_keys in E.
      destruct l as [|z l]; simpl in E'.
      * injection E' as <-. constructor. exact E.
      * destruct (tuple_lt z x) as [[|]|]; simpl in E'; [| |discriminate].
        -- destruct (insert x l); simpl in E'; [|discriminate].
           injection E' as <-. constructor. now inversion Hhd.
        -- injection E' as <-. constructor. exact E.
    + intros [= <-]. apply tuple_lt_keys in E.
      constructor; [exact Hs|]. constructor. exact E.
Qed.

Lemma sorted_perm_sorted (l r : list (Z * value)) :
  sorted l = Ok r -> Permutation r l /\ Sorted fst_le r.
Proof.
  revert r. induction l as [|x l IH]; simpl; intros r.
  - intros [= <-]. split; constructor.
  - destruct (sorted l) as [s|]; simpl; [|discriminate].
    intros Hi. destruct (IH s eq_refl) as [Hp Hs]. split.
    + rewrite (insert_perm _ _ _ Hi). now constructor.
    + eapply insert_sorted; eauto.
Qed.





Lemma parse_args_ok (obj : dict) :
  Forall (fun kv => converts (fst kv) = true) (positional obj) ->
  parse_args obj
  = let* ordered := sorted (map key_of (positional obj)) in
    Ok (map snd ordered,
        fold_left (fun acc kv => dict_set acc (fst kv) (snd kv)) (keyword obj) []).
Proof.
  intros Hall. unfold parse_args. pose proof (parse_items_spec obj [] []) as H.
  destruct (parse_items obj ([], [])) as [r|e].
  - destruct H as [_ ->]. reflexivity.
  - destruct H as (pre & kv & post & Hsplit & _ & Hkv). exfalso.
    rewrite List.Forall_forall in Hall.
    assert (converts (fst kv) = true) as Hc
      by (apply Hall; rewrite Hsplit; apply in_or_app; right; now left).
    unfold converts in Hc. now rewrite Hkv in Hc.
Qed.





(** ** The resolver *)

Lemma bind_run_ret {A B} (a : A) (k : A -> run B) : bind_run (ret a) k = k a.
Proof. unfold bind_run, ret. destruct (k a). reflexivity. Qed.


Lemma make_from_config_unfold (cls : store) (items : dict) :
  make_from_config cls (VDict items)
  = bind_run (resolve_items cls items []) (finish cls).
Proof.
  simpl. f_equal. generalize (@nil (string * value)).
  induction items as [|[key value] rest IH]; intros filled; simpl; [reflexivity|].
  destruct value; try apply IH.
  unfold bind_run. destruct (make_from_config cls (VDict items)) as [tr [v|e]]; [|reflexivity].
  now rewrite IH.
Qed.

Lemma resolve_items_cons (cls : store) (key : string) (value : value) (rest filled : dict) :
  resolve_items cls ((key, value) :: rest) filled
  = bind_run (child_run cls value) (fun v => resolve_items cls rest (dict_set filled key v)).
Proof.
  destruct value; unfold child_run; try (rewrite bind_run_ret; reflexivity).
  reflexivity.
Qed.

Lemma NoDup_keys_snoc (acc rest : dict) (key : string) (v : value) :
  List.NoDup (keys acc ++ key :: keys rest) ->
  List.NoDup (keys (acc ++ [(key, v)]) ++ keys rest).
Proof.
  unfold keys. rewrite map_app. simpl. now rewrite <- app_assoc.
Qed.

Lemma NoDup_keys_fresh (acc rest : dict) (key : string) :
  List.NoDup (keys acc ++ key :: keys rest) -> ~ In key (keys acc).
Proof.
  intros Hnd Hin. apply NoDup_remove_2 in Hnd. apply Hnd. apply in_or_app. now left.
Qed.

Lemma resolve_items_ok (cls : store) (items acc : dict) (tr : list event) (filled : dict) :
  List.NoDup (keys acc ++ keys items) ->
  resolve_items cls items acc = (tr, Ok filled) ->
  exists vs, filled = acc ++ vs /\
             Forall2 (resolved_entry cls) items vs /\
             tr = children_trace cls items.
Proof.
  revert acc tr. induction items as [|[key value] rest IH]; intros acc tr Hnd.
  - simpl. intros [= <- <-]. exists []. rewrite app_nil_r. repeat split. constructor.
  - rewrite resolve_items_cons. unfold bind_run.
    destruct (child_run cls value) as [tr1 [v|e]] eqn:Hc; [|discriminate].
    destruct (resolve_items cls rest (dict_set acc key v)) as [tr2 r] eqn:Hr.
    intros [= <- ->]. simpl in Hnd.
    rewrite dict_set_fresh in Hr by (eapply NoDup_keys_fresh; eauto).
    apply IH in Hr as (vs & -> & Hvs & ->); [|now apply NoDup_keys_snoc].
    exists ((key, v) :: vs). rewrite <- app_assoc. split; [reflexivity|]. split.
    + constructor; [|exact Hvs]. split; [reflexivity|]. simpl. now rewrite Hc.
    + unfold children_trace. simpl. now rewrite Hc.
Qed.

Lemma resolved_entries_keys (cls : store) (items vs : dict) :
  Forall2 (resolved_entry cls) items vs -> keys vs = keys items.
Proof.
  induction 1 as [|kv kv' items vs [Hk _] _ IH]; simpl; [reflexivity|].
  now rewrite Hk, IH.
Qed.

Lemma resolve_items_keep (cls : store) (items acc : dict) :
  List.NoDup (keys acc ++ keys items) ->
  Forall (fun kv => child_run cls (snd kv) = ret (snd kv)) items ->
  resolve_items cls items acc = ret (acc ++ items).
Proof.
  revert acc. induction items as [|[key value] rest IH]; intros acc Hnd Hall.
  - simpl. now rewrite app_nil_r.
  - rewrite resolve_items_cons. inversion Hall as [|? ? Hc Hrest]; subst.
    simpl in Hc. rewrite Hc, bind_run_ret. simpl in Hnd.
    rewrite dict_set_fresh by (eapply NoDup_keys_fresh; eauto).
    rewrite IH; [|now apply NoDup_keys_snoc|exact Hrest].
    now rewrite <- app_assoc.
Qed.

Lemma wf_config_inv (items : dict) :
  wf_config (VDict items) = true ->
  List.NoDup (keys items) /\ Forall (fun kv => wf_config (snd kv) = true) items.
Proof.
  simpl. intros H. apply andb_true_iff in H as [Hk Hall]. split.
  - now apply nodup_keys_NoDup.
  - clear Hk. induction items as [|[k w] items IH]; constructor.
    + simpl. now apply andb_true_iff in Hall as [? _].
    + apply IH. now apply andb_true_iff in Hall as [_ ?].
Qed.

Lemma promise_free_inv (items : dict) :
  promise_free (VDict items) = true ->
  is_promise (VDict items) = false /\ Forall (fun kv => promise_free (snd kv) = true) items.
Proof.
  intros H. change (negb (is_promise (VDict items)) &&
    (fix all (d : dict) : bool :=
       match d with [] => true | (_, w) :: d' => promise_free w && all d' end) items = true) in H.
  apply andb_true_iff in H as [Hp Hall]. split.
  - now apply negb_true_iff.
  - clear Hp. induction items as [|[k w] items IH]; constructor.
    + simpl. now apply andb_true_iff in Hall as [? _].
    + apply IH. now apply andb_true_iff in Hall as [_ ?].
Qed.

(** C3. On a tree without promises, [make_from_config] calls no
    constructor and returns the tree as it is: scalars unchanged, every
    mapping with the same keys and the resolved, hence unchanged, values. *)
Theorem make_from_config_identity (cls : store) (items : dict) :
  wf_config (VDict items) = true ->
  promise_free (VDict items) = true ->
  make_from_config cls (VDict items) = ([], Ok (VDict items)).
Proof.
  change (forall (Hw : wf_config (VDict items) = true)
                 (Hp : promise_free (VDict items) = true),
             child_run cls (VDict items) = ret (VDict items)).
  induction (VDict items) as [b|z|s|d IH|c a _] using value_nested_ind;
    intros Hw Hp; try reflexivity.
  apply wf_config_inv in Hw as [Hnd Hw].
  apply promise_free_inv in Hp as [Hnp Hp].
  unfold child_run. rewrite make_from_config_unfold.
  assert (Forall (fun kv => child_run cls (snd kv) = ret (snd kv)) d) as Hkeep.
  { rewrite List.Forall_forall in *. intros kv Hin. auto. }
  rewrite (resolve_items_keep cls d [] Hnd Hkeep).
  rewrite bind_run_ret. unfold finish. simpl app. now rewrite Hnp.
Qed.

Lemma make_from_config_identity_witness :
  make_from_config Scenario.registry Scenario.plain_tree = ([], Ok Scenario.plain_tree).
Proof.
  apply (make_from_config_identity Scenario.registry
           [("data", VDict [("n_samples", VInt 20000); ("n_tags", VInt 20)]);
            ("common", VDict [("width", VInt 300)])]); reflexivity.
Defined.

Lemma resolved_id_keys (cls : store) (items filled : dict) :
  Forall2 (resolved_entry cls) items filled -> id_keys filled = id_keys items.
Proof.
  intros H. unfold id_keys. now rewrite (resolved_entries_keys cls items filled H).
Qed.

(** A mapping with two sigil keys resolves to itself. *)
Lemma two_sigils_not_flagged :
  make_from_config Scenario.registry Scenario.two_sigils = ([], Ok Scenario.two_sigils).
Proof. vm_compute. reflexivity. Qed.

(** C1, as the code has it. A mapping with two or more sigil keys is not
    a promise for [is_promise], so [make_from_config] looks up no
    constructor for it: it resolves the entries and returns the mapping of
    the same keys to the resolved values, or the failure of an entry. *)
Theorem several_sigils_plain_mapping (cls : store) (items : dict) :
  wf_config (VDict items) = true ->
  (2 <= length (id_keys items))%nat ->
  make_from_config cls (VDict items)
  = bind_run (resolve_items cls items []) (fun filled => ret (VDict filled)) /\
  (forall tr v, make_from_config cls (VDict items) = (tr, Ok v) ->
   exists filled, v = VDict filled /\
                  Forall2 (resolved_entry cls) items filled /\
                  tr = children_trace cls items).
Proof.
  intros Hw Hn. apply wf_config_inv in Hw as [Hnd _].
  assert (forall tr filled, resolve_items cls items [] = (tr, Ok filled) ->
            Forall2 (resolved_entry cls) items filled /\ tr = children_trace cls items /\
            finish cls filled = ret (VDict filled)) as Hfin.
  { intros tr filled Hr. apply resolve_items_ok in Hr as (vs & -> & Hvs & ->); [|exact Hnd].
    simpl. repeat split; [exact Hvs|].
    unfold finish, is_promise. rewrite (resolved_id_keys cls items vs Hvs).
    destruct (length (id_keys items) =? 1)%nat eqn:E; [|reflexivity].
    apply Nat.eqb_eq in E. lia. }
  assert (make_from_config cls (VDict items)
          = bind_run (resolve_items cls items []) (fun filled => ret (VDict filled))) as Heq.
  { rewrite make_from_config_unfold. unfold bind_run.
    destruct (resolve_items cls items []) as [tr [filled|e]] eqn:Hr; [|reflexivity].
    destruct (Hfin tr filled eq_refl) as (_ & _ & ->). reflexivity. }
  split; [exact Heq|].
  intros tr v. rewrite Heq. unfold bind_run.
  destruct (resolve_items cls items []) as [tr0 [filled|e]] eqn:Hr; [|discriminate].
  simpl. intros [= <- <-]. destruct (Hfin tr0 filled eq_refl) as (Hvs & -> & _).
  exists filled. rewrite app_nil_r. auto.
Qed.

Lemma several_sigils_plain_mapping_witness :
  make_from_config Scenario.registry Scenario.two_sigils
  = bind_run (resolve_items Scenario.registry
                [("@layers", VStr "A.v0"); ("@optimizers", VStr "B.v0")] [])
             (fun filled => ret (VDict filled)).
Proof.
  apply (several_sigils_plain_mapping Scenario.registry
           [("@layers", VStr "A.v0"); ("@optimizers", VStr "B.v0")]).
  - reflexivity.
  - simpl. lia.
Defined.










(** ** The schema synthesiser *)

Lemma validate_fields_unfold (fields : list (string * field)) (extra : extra_policy) (obj : dict) :
  validate (TModel fields extra) (VDict obj)
  = let '(values, errors) := validate_fields obj fields in
    let extras := List.filter (fun kv => negb (has_field fields (fst kv))) obj in
    let errors :=
      errors ++ match extra with
                | Forbid => map (fun kv => ([fst kv], Extra_forbidden)) extras
                | _ => []
                end in
    let values := values ++ match extra with Allow => extras | _ => [] end in
    match errors with
    | [] => inl (VDict values)
    | _ => inr errors
    end.
Proof.
  simpl.
  assert ((fix go (fs : list (string * field)) : dict * list (list string * error_kind) :=
             match fs with
             | [] => ([], [])
             | (name, f) :: fs' =>
                 let '(values, errors) := go fs' in
                 match dict_get obj name with
                 | Some x =>
                     match validate (type_ f) x with
                     | inl x' => ((name, x') :: values, errors)
                     | inr es => (values, map (at_loc name) es ++ errors)
                     end
                 | None =>
                     match default f with
                     | Some d => ((name, d) :: values, errors)
                     | None => (values, ([name], Missing) :: errors)
                     end
                 end
             end) fields = validate_fields obj fields) as ->; [|reflexivity].
  induction fields as [|[name f] fs IH]; [reflexivity|].
  simpl. now rewrite IH.
Qed.

Lemma add_param_set (sig_args : list (string * sig_arg)) (param : parameter) :
  add_param sig_args param
  = dict_set sig_args (name param)
      (Definition_ (Field (annotation param) (param_default param))).
Proof. unfold add_param. destruct (param_default param); reflexivity. Qed.

Lemma fold_add_param (params : list parameter) (sig_args : list (string * sig_arg)) :
  List.NoDup (keys sig_args ++ map name params) ->
  fold_left add_param params sig_args = sig_args ++ map sig_entry params.
Proof.
  revert sig_args. induction params as [|p params IH]; intros sig_args Hnd; simpl.
  - now rewrite app_nil_r.
  - rewrite add_param_set. simpl in Hnd.
    rewrite dict_set_fresh.
    + rewrite IH; [now rewrite <- app_assoc|].
      unfold keys in *. rewrite map_app. simpl. now rewrite <- app_assoc.
    + intros Hin. apply NoDup_remove_2 in Hnd. apply Hnd. apply in_or_app. now left.
Qed.

Lemma wf_names_inv (func : constructor) :
  wf_names func = true ->
  List.NoDup (map name (parameters func)) /\
  Forall (fun n => startswith_at n = false /\ n <> "__config__") (map name (parameters func)).
Proof.
  unfold wf_names. intros H. apply andb_true_iff in H as [Hnd Hall]. split.
  - now apply nodup_keys_NoDup.
  - apply List.Forall_forall. intros n Hin.
    rewrite forallb_forall in Hall. specialize (Hall n Hin).
    unfold wf_param_name in Hall. apply andb_true_iff in Hall as [H1 H2].
    apply negb_true_iff in H1, H2. split; [exact H1|]. now apply String.eqb_neq.
Qed.

Lemma wf_signature_names (func : constructor) :
  wf_signature func = true -> wf_names func = true.
Proof. unfold wf_signature. intros H. now apply andb_true_iff in H as [_ ?]. Qed.

Lemma untyped_entries (params : list parameter) :
  existsb (fun kv => untyped (snd kv)) (map sig_entry params)
  = negb (forallb annotated params).
Proof.
  induction params as [|p params IH]; [reflexivity|].
  cbn [map existsb forallb]. rewrite IH, negb_andb. f_equal.
  unfold sig_entry, annotated, untyped. cbn [snd]. now destruct (annotation p).
Qed.

Lemma id_keys_sigil (obj : dict) (key : string) :
  In key (id_keys obj) -> startswith_at key = true.
Proof. unfold id_keys. intros H. now apply filter_In in H as [_ ?]. Qed.

(** What the synthesiser does once the constructor is found: it reads
    the signature, which may raise, and makes the model, which raises when a
    parameter has no annotation. *)
Lemma promise_schema_closed (key : string) (func : constructor) :
  startswith_at key = true ->
  wf_names func = true ->
  (let* sig := signature func in
   create_model
     (dict_set (fold_left add_param (parameters sig) [(key, Definition_ (Field TStr None))])
               "__config__" _PromiseSchemaConfig))
  = match signature_error func with
    | Some e => Raise e
    | None =>
        if forallb annotated (parameters func)
        then Ok (TModel (promise_fields key func) Forbid)
        else Raise RuntimeError
    end.
Proof.
  intros Hkey Hwf. apply wf_names_inv in Hwf as [Hnd Hnames].
  unfold signature. destruct (signature_error func) as [e|]; [reflexivity|]. cbn [bind].
  rewrite fold_add_param.
  2:{ simpl. constructor; [|exact Hnd]. intros Hin.
      rewrite List.Forall_forall in Hnames. destruct (Hnames key Hin). congruence. }
  assert (~ In "__config__" (keys ([(key, Definition_ (Field TStr None))]
                                    ++ map sig_entry (parameters func)))) as Hfresh.
  { simpl. intros [Heq|Hin].
    - subst key. discriminate.
    - unfold keys in Hin. rewrite map_map in Hin. simpl in Hin.
      rewrite List.Forall_forall in Hnames. destruct (Hnames _ Hin). congruence. }
  rewrite dict_set_fresh by exact Hfresh.
  unfold create_model. rewrite !existsb_app. cbn [existsb untyped snd orb].
  rewrite untyped_entries, orb_false_r.
  destruct (forallb annotated (parameters func)); [|reflexivity]. cbn [negb].
  rewrite dict_get_app.
  apply dict_get_None in Hfresh. rewrite Hfresh. simpl. do 2 f_equal.
  unfold promise_fields. f_equal.
  clear. induction (parameters func) as [|p ps IH]; [reflexivity|].
  cbn. cbn in IH. now rewrite IH.
Qed.

Lemma make_promise_schema_closed (cls : store) (obj : dict) (key : string)
      (func : constructor) :
  id_keys obj = [key] ->
  get_constructor cls obj = Ok func ->
  wf_names func = true ->
  make_promise_schema cls obj
  = match signature_error func with
    | Some e => Raise e
    | None =>
        if forallb annotated (parameters func)
        then Ok (TModel (promise_fields key func) Forbid)
        else Raise RuntimeError
    end.
Proof.
  intros Hid Hget Hwf.
  assert (startswith_at key = true) as Hkey.
  { apply (id_keys_sigil obj). rewrite Hid. now left. }
  unfold make_promise_schema. rewrite Hget, Hid. cbn [bind].
  now apply promise_schema_closed.
Qed.

Lemma make_promise_schema_eq (cls : store) (obj : dict) (key : string) (func : constructor) :
  id_keys obj = [key] ->
  get_constructor cls obj = Ok func ->
  wf_signature func = true ->
  make_promise_schema cls obj = Ok (TModel (promise_fields key func) Forbid).
Proof.
  intros Hid Hget Hwf. unfold wf_signature in Hwf.
  apply andb_true_iff in Hwf as [Hwf Hnames]. apply andb_true_iff in Hwf as [Hread Hann].
  rewrite (make_promise_schema_closed cls obj key func Hid Hget Hnames).
  unfold readable in Hread. destruct (signature_error func); [discriminate|].
  now rewrite Hann.
Qed.

(** A schema that has been made is the schema of a well-formed signature. *)
Lemma make_promise_schema_made (cls : store) (obj : dict) (key : string)
      (func : constructor) (ps : ty) :
  id_keys obj = [key] ->
  get_constructor cls obj = Ok func ->
  wf_names func = true ->
  make_promise_schema cls obj = Ok ps ->
  ps = TModel (promise_fields key func) Forbid /\ wf_signature func = true.
Proof.
  intros Hid Hget Hwf. rewrite (make_promise_schema_closed cls obj key func Hid Hget Hwf).
  unfold wf_signature, readable. destruct (signature_error func); [discriminate|].
  destruct (forallb annotated (parameters func)); [|discriminate].
  intros [= <-]. now rewrite Hwf.
Qed.


Lemma promise_fields_sigil (key : string) (func : constructor) :
  startswith_at key = true ->
  wf_names func = true ->
  List.filter startswith_at (keys (promise_fields key func)) = [key] /\
  List.NoDup (keys (promise_fields key func)).
Proof.
  intros Hkey Hwf. apply wf_names_inv in Hwf as [Hnd Hnames].
  unfold promise_fields, keys. simpl. rewrite Hkey, map_map. simpl. split.
  - f_equal. rewrite List.Forall_forall in Hnames.
    induction (parameters func) as [|p ps IH]; [reflexivity|].
    simpl. destruct (Hnames (name p)) as [-> _]; [now left|].
    apply IH. inversion Hnd; assumption. intros n Hn. apply Hnames. now right.
  - constructor; [|exact Hnd]. intros Hin.
    rewrite List.Forall_forall in Hnames. destruct (Hnames key Hin). congruence.
Qed.



(** ** The fill-and-validate engine *)

Lemma fill_and_validate_unfold (cls : store) (items : dict) (schema : ty) :
  fill_and_validate cls (VDict items) schema
  = (let* '(filled, validation) := fill_items cls schema items [] [] in
     fill_defaults schema filled validation).
Proof.
  cbv beta iota fix delta [fill_and_validate]. fold fill_and_validate.
  f_equal. generalize (@nil (string * value)) at 1 3. generalize (@nil (string * value)).
  induction items as [|[key value] rest IH]; intros validation filled; [reflexivity|].
  cbv beta iota fix delta [fill_items]. fold fill_items.
  destruct (is_promise value).
  - destruct value; try reflexivity.
    destruct (make_promise_schema cls items) as [ps|e]; [|reflexivity].
    cbn [bind].
    destruct (fill_and_validate cls (VDict items) ps) as [[f v]|e]; [|reflexivity].
    cbn [bind].
    destruct (get_return_type cls items) as [t|e]; [|reflexivity].
    cbn [bind]. apply IH.
  - destruct value; try apply IH.
    destruct (fields_getitem schema key) as [fld|e]; [|reflexivity].
    cbn [bind].
    destruct (fill_and_validate cls (VDict items) (type_ fld)) as [[f v]|e]; [|reflexivity].
    cbn [bind]. apply IH.
Qed.

Lemma fill_items_cons (cls : store) (schema : ty) (key : string) (value : value)
      (rest filled validation : dict) :
  fill_items cls schema ((key, value) :: rest) filled validation
  = (let* '(fv, vv) := fill_entry cls schema key value in
     fill_items cls schema rest (dict_set filled key fv) (dict_set validation key vv)).
Proof.
  cbv beta iota fix delta [fill_items]. fold fill_items.
  unfold fill_entry. destruct (is_promise value).
  - destruct value; try reflexivity.
    destruct (make_promise_schema cls items) as [ps|e]; [|reflexivity]. cbn [bind].
    destruct (fill_and_validate cls (VDict items) ps) as [[f v]|e]; [|reflexivity].
    cbn [bind].
    destruct (get_return_type cls items) as [t|e]; reflexivity.
  - destruct value; try reflexivity.
    destruct (fields_getitem schema key) as [fld|e]; [|reflexivity]. cbn [bind].
    destruct (fill_and_validate cls (VDict items) (type_ fld)) as [[f v]|e]; reflexivity.
Qed.

Lemma entries_filled_keys (cls : store) (schema : ty) (items fs vs : dict) :
  entries_filled cls schema items fs vs -> keys fs = keys items /\ keys vs = keys items.
Proof.
  induction 1 as [|key value fv vv rest fs vs _ _ [IHf IHv]]; simpl; [auto|].
  now rewrite IHf, IHv.
Qed.

Lemma fill_items_ok (cls : store) (schema : ty) (items accf accv filled validation : dict) :
  List.NoDup (keys accf ++ keys items) ->
  keys accv = keys accf ->
  fill_items cls schema items accf accv = Ok (filled, validation) ->
  exists fs vs, filled = accf ++ fs /\ validation = accv ++ vs /\
                entries_filled cls schema items fs vs.
Proof.
  revert accf accv. induction items as [|[key value] rest IH]; intros accf accv Hnd Hk.
  - simpl. intros [= <- <-]. exists [], []. rewrite !app_nil_r. repeat split. constructor.
  - rewrite fill_items_cons.
    destruct (fill_entry cls schema key value) as [[fv vv]|e] eqn:He; [|discriminate].
    simpl. simpl in Hnd.
    assert (~ In key (keys accf)) as Hfresh by (eapply NoDup_keys_fresh; eauto).
    rewrite !dict_set_fresh by (rewrite ?Hk; exact Hfresh).
    intros Hr. apply IH in Hr as (fs & vs & -> & -> & Hrest).
    + exists ((key, fv) :: fs), ((key, vv) :: vs). rewrite <- !app_assoc.
      repeat split. now constructor.
    + now apply NoDup_keys_snoc.
    + unfold keys in *. rewrite !map_app, Hk. reflexivity.
Qed.

Lemma fill_items_complete (cls : store) (schema : ty) (items fs vs accf accv : dict) :
  entries_filled cls schema items fs vs ->
  List.NoDup (keys accf ++ keys items) ->
  keys accv = keys accf ->
  fill_items cls schema items accf accv = Ok (accf ++ fs, accv ++ vs).
Proof.
  intros H. revert accf accv.
  induction H as [|key value fv vv rest fs vs He _ IH]; intros accf accv Hnd Hk.
  - simpl. now rewrite !app_nil_r.
  - rewrite fill_items_cons, He. simpl. simpl in Hnd.
    assert (~ In key (keys accf)) as Hfresh by (eapply NoDup_keys_fresh; eauto).
    rewrite !dict_set_fresh by (rewrite ?Hk; exact Hfresh).
    rewrite IH.
    + now rewrite <- !app_assoc.
    + now apply NoDup_keys_snoc.
    + unfold keys in *. rewrite !map_app, Hk. reflexivity.
Qed.

Lemma NoDup_app_In (l k : list string) :
  List.NoDup (l ++ k) <-> List.NoDup l /\ (forall x, In x l -> ~ In x k) /\ List.NoDup k.
Proof.
  induction l as [|a l IH]; simpl.
  - split; [intros H; repeat split; [constructor|tauto|exact H] | tauto].
  - split.
    + intros H. inversion H as [|? ? Ha Hl]; subst. apply IH in Hl as (Hl & Hd & Hk).
      repeat split; [| |exact Hk].
      * constructor; [|exact Hl]. intros Hin. apply Ha. apply in_or_app. now left.
      * intros x [<-|Hx] Hxk; [apply Ha; apply in_or_app; now right|].
        exact (Hd x Hx Hxk).
    + intros (Hl & Hd & Hk). inversion Hl as [|? ? Ha Hl']; subst. constructor.
      * intros Hin. apply in_app_or in Hin as [Hin|Hin]; [contradiction|].
        apply (Hd a); [now left|exact Hin].
      * apply IH. repeat split; [exact Hl'| |exact Hk].
        intros x Hx. apply Hd. now right.
Qed.

Lemma NoDup_keys_dict_set (d : dict) (k : string) (x : value) :
  List.NoDup (keys d) -> List.NoDup (keys (dict_set d k x)).
Proof.
  intros Hnd. rewrite keys_dict_set. destruct (dict_contains d k) eqn:E; [exact Hnd|].
  apply dict_contains_false in E. apply NoDup_app_In. split; [exact Hnd|]. split.
  - intros y Hy [<-|[]]. contradiction.
  - repeat constructor. simpl. tauto.
Qed.

Lemma dict_contains_set (d : dict) (k k' : string) (x : value) :
  dict_contains (dict_set d k x) k' = String.eqb k k' || dict_contains d k'.
Proof.
  unfold dict_contains. rewrite dict_get_set. destruct (String.eqb k k'); reflexivity.
Qed.

Lemma override_fresh (o : dict) (k : string) (x : value) (kv : string * value) :
  fst kv <> k -> override ((k, x) :: o) kv = override o kv.
Proof.
  intros Hne. unfold override. simpl.
  destruct (String.eqb k (fst kv)) eqn:E; [|reflexivity].
  apply String.eqb_eq in E. congruence.
Qed.

Lemma map_override_fresh (o d : dict) (k : string) (x : value) :
  ~ In k (keys d) -> map (override ((k, x) :: o)) d = map (override o) d.
Proof.
  intros Hk. apply map_ext_in. intros kv Hin. apply override_fresh.
  intros <-. apply Hk. now apply in_map.
Qed.

Lemma map_override_set (o d : dict) (k : string) (x : value) :
  List.NoDup (keys d) -> In k (keys d) -> ~ In k (keys o) ->
  map (override o) (dict_set d k x) = map (override ((k, x) :: o)) d.
Proof.
  intros Hnd Hin Ho. induction d as [|[k0 w] d IH]; [destruct Hin|].
  inversion Hnd as [|? ? Hk0 Hd]; subst. simpl.
  destruct (String.eqb k0 k) eqn:E.
  - apply String.eqb_eq in E. subst k0. simpl. f_equal.
    + unfold override. simpl. rewrite String.eqb_refl.
      apply dict_get_None in Ho. now rewrite Ho.
    + symmetry. now apply map_override_fresh.
  - apply String.eqb_neq in E. simpl. f_equal.
    + symmetry. now apply override_fresh.
    + apply IH; [exact Hd|]. destruct Hin as [Heq|Hin]; [contradiction|exact Hin].
Qed.

Lemma map_override_nil (d : dict) : map (override []) d = d.
Proof.
  induction d as [|[k w] d IH]; [reflexivity|]. simpl. now rewrite IH.
Qed.

(** [d.update(other)]: the entries of [d] with the values of [other], then
    the entries of [other] under new keys. *)
Lemma dict_update_closed (d other : dict) :
  List.NoDup (keys d) -> List.NoDup (keys other) ->
  dict_update d other = map (override other) d ++ List.filter (absent_from d) other.
Proof.
  unfold dict_update. revert d. induction other as [|[k x] o IH]; intros d Hd Ho.
  - simpl. now rewrite map_override_nil, app_nil_r.
  - inversion Ho as [|? ? Hk Ho']; subst. simpl fold_left.
    rewrite IH; [|now apply NoDup_keys_dict_set|exact Ho'].
    assert (List.filter (absent_from (dict_set d k x)) o = List.filter (absent_from d) o) as ->.
    { apply filter_ext_in. intros kv Hin. unfold absent_from.
      rewrite dict_contains_set.
      destruct (String.eqb k (fst kv)) eqn:E; [|reflexivity].
      apply String.eqb_eq in E. subst k. exfalso. apply Hk. now apply in_map. }
    simpl. unfold absent_from at 2. simpl.
    destruct (dict_contains d k) eqn:E; simpl.
    + apply dict_contains_true in E. now rewrite map_override_set.
    + apply dict_contains_false in E.
      rewrite dict_set_fresh by exact E. rewrite map_app. simpl.
      rewrite <- app_assoc. simpl. rewrite map_override_fresh by exact E.
      do 2 f_equal. unfold override. simpl.
      apply dict_get_None in Hk. now rewrite Hk.
Qed.

Lemma copy_missing_absent (f : dict) (kv : string * value) :
  copy_missing f kv = if absent_from f kv then f ++ [kv] else f.
Proof.
  unfold copy_missing, absent_from. destruct (dict_contains f (fst kv)) eqn:E; simpl.
  - reflexivity.
  - apply dict_contains_false in E. rewrite dict_set_fresh by exact E.
    now destruct kv.
Qed.

(** The last loop of [fill_and_validate] appends the entries of
    [validation] whose keys [filled] does not have. *)
Lemma fold_copy_missing (v f : dict) :
  List.NoDup (keys v) ->
  fold_left copy_missing v f = f ++ List.filter (absent_from f) v.
Proof.
  revert f. induction v as [|[k x] v IH]; intros f Hnd; simpl.
  - now rewrite app_nil_r.
  - inversion Hnd as [|? ? Hk Hv]; subst. rewrite IH by exact Hv.
    rewrite copy_missing_absent. destruct (absent_from f (k, x)) eqn:E.
    + rewrite <- app_assoc. simpl. do 2 f_equal.
      apply filter_ext_in. intros kv Hin. unfold absent_from, dict_contains.
      rewrite dict_get_app. destruct (dict_get f (fst kv)); [reflexivity|].
      simpl. destruct (String.eqb k (fst kv)) eqn:E'; [|reflexivity].
      apply String.eqb_eq in E'. subst k. exfalso. apply Hk. now apply in_map.
    + reflexivity.
Qed.

Lemma validate_errors_nonempty (t : ty) (v : value) (es : list (list string * error_kind)) :
  validate t v = inr es -> es <> [].
Proof.
  destruct t.
  - discriminate.
  - destruct v; simpl; try discriminate; unfold mismatch; intros [= <-]; discriminate.
  - destruct v; simpl; try discriminate; unfold mismatch; try (intros [= <-]; discriminate).
    destruct (int s); [discriminate|]. intros [= <-]. discriminate.
  - destruct v; simpl; unfold mismatch; try (intros [= <-]; discriminate).
    destruct (String.eqb cls cls0); [discriminate|]. intros [= <-]. discriminate.
  - destruct v as [| | |obj|];
      try (simpl; unfold mismatch; intros [= <-]; discriminate).
    rewrite validate_fields_unfold.
    destruct (validate_fields obj fields) as [values errors]. cbv zeta.
    match goal with |- match ?e with _ => _ end = _ -> _ => destruct e eqn:E end;
      [discriminate|]. intros [= <-]. discriminate.
  - simpl. unfold mismatch. intros [= <-]. discriminate.
Qed.

Lemma validate_fields_spec (obj : dict) (fields : list (string * field)) (values : dict) :
  validate_fields obj fields = (values, []) <-> Forall2 (field_parsed obj) fields values.
Proof.
  revert values. induction fields as [|[name f] fs IH]; intros values; simpl.
  - split.
    + intros [= <-]. constructor.
    + intros H. inversion H. reflexivity.
  - destruct (validate_fields obj fs) as [vs errors] eqn:Hfs.
    unfold field_parsed at 1, field_value. simpl.
    destruct (dict_get obj name) as [x|] eqn:Hget.
    + destruct (validate (type_ f) x) as [x'|es] eqn:Hval.
      * split.
        -- intros [= <- ->]. constructor; [|now apply IH].
           unfold field_parsed, field_value. simpl. now rewrite Hget, Hval.
        -- intros H. inversion H as [|? kv ? vs' [Hk Hv] Hrest]; subst.
           apply IH in Hrest. injection Hrest as <- ->.
           unfold field_value in Hv. simpl in *. rewrite Hget, Hval in Hv.
           injection Hv as ->. destruct kv; simpl in *. now subst.
      * split.
        -- intros [= <- Herr]. apply app_eq_nil in Herr as [Hes _].
           apply map_eq_nil in Hes. now apply validate_errors_nonempty in Hval.
        -- intros H. inversion H as [|? kv ? vs' [Hk Hv] Hrest]; subst.
           unfold field_value in Hv. simpl in Hv. now rewrite Hget, Hval in Hv.
    + destruct (default f) as [d|] eqn:Hdef.
      * split.
        -- intros [= <- ->]. constructor; [|now apply IH].
           unfold field_parsed, field_value. simpl. now rewrite Hget.
        -- intros H. inversion H as [|? kv ? vs' [Hk Hv] Hrest]; subst.
           apply IH in Hrest. injection Hrest as <- ->.
           unfold field_value in Hv. simpl in *. rewrite Hget, Hdef in Hv.
           injection Hv as ->. destruct kv; simpl in *. now subst.
      * split; [discriminate|].
        intros H. inversion H as [|? kv ? vs' [Hk Hv] Hrest]; subst.
        unfold field_value in Hv. simpl in Hv. rewrite Hget, Hdef in Hv. discriminate.
Qed.

Lemma parse_obj_spec (fields : list (string * field)) (extra : extra_policy)
      (obj parsed : dict) :
  parse_obj (TModel fields extra) obj = Ok parsed <->
  exists values,
    Forall2 (field_parsed obj) fields values /\
    (extra = Forbid -> extras fields obj = []) /\
    parsed = values ++ match extra with Allow => extras fields obj | _ => [] end.
Proof.
  unfold parse_obj. rewrite validate_fields_unfold.
  destruct (validate_fields obj fields) as [values errors] eqn:Hv. cbv zeta.
  fold (extras fields obj). split.
  - destruct errors as [|e es]; [|discriminate].
    apply validate_fields_spec in Hv. simpl app at 1.
    destruct extra; simpl; try (intros [= <-]; exists values; repeat split; auto; discriminate).
    destruct (extras fields obj) as [|x xs]; simpl; [|discriminate].
    intros [= <-]. exists values. repeat split; auto.
  - intros (values' & Hf & Hforbid & ->). apply validate_fields_spec in Hf.
    rewrite Hf in Hv. injection Hv as <- <-. simpl app at 1.
    destruct extra; try reflexivity. now rewrite Hforbid.
Qed.

Lemma field_parsed_keys (obj : dict) (fields : list (string * field)) (values : dict) :
  Forall2 (field_parsed obj) fields values -> keys values = keys fields.
Proof.
  induction 1 as [|nf kv fs vs [Hk _] _ IH]; simpl; [reflexivity|]. now rewrite Hk, IH.
Qed.

Lemma field_parsed_missing (obj : dict) (fields : list (string * field)) (values : dict) :
  Forall2 (field_parsed obj) fields values ->
  List.filter (absent_from obj) values = missing_defaults fields obj.
Proof.
  induction 1 as [|[name f] [k x] fs vs [Hk Hv] _ IH]; [reflexivity|].
  simpl in Hk. subst k. unfold missing_defaults in *. simpl.
  unfold absent_from at 1. simpl. unfold field_value in Hv. simpl in Hv.
  unfold dict_contains. destruct (dict_get obj name); simpl; [exact IH|].
  rewrite Hv. simpl. now rewrite IH.
Qed.

Lemma absent_from_keys (d d' : dict) (kv : string * value) :
  keys d = keys d' -> absent_from d kv = absent_from d' kv.
Proof.
  intros Hk. unfold absent_from. f_equal.
  destruct (dict_contains d' (fst kv)) eqn:E.
  - apply dict_contains_true. rewrite Hk. now apply dict_contains_true.
  - apply dict_contains_false. rewrite Hk. now apply dict_contains_false.
Qed.

Lemma filter_absent_none (d l : dict) :
  (forall kv, In kv l -> In (fst kv) (keys d)) -> List.filter (absent_from d) l = [].
Proof.
  intros H. induction l as [|kv l IH]; [reflexivity|]. simpl.
  unfold absent_from at 1.
  assert (dict_contains d (fst kv) = true) as ->
    by (apply dict_contains_true, H; now left).
  simpl. apply IH. intros kv' Hin. apply H. now right.
Qed.

Lemma filter_absent_all (d l : dict) :
  (forall kv, In kv l -> ~ In (fst kv) (keys d)) -> List.filter (absent_from d) l = l.
Proof.
  intros H. induction l as [|kv l IH]; [reflexivity|]. simpl.
  unfold absent_from at 1.
  assert (dict_contains d (fst kv) = false) as ->
    by (apply dict_contains_false, H; now left).
  simpl. f_equal. apply IH. intros kv' Hin. apply H. now right.
Qed.

Lemma missing_defaults_In (fields : list (string * field)) (obj : dict) (kv : string * value) :
  In kv (missing_defaults fields obj) ->
  ~ In (fst kv) (keys obj) /\
  exists f, In (fst kv, f) fields /\ default f = Some (snd kv).
Proof.
  unfold missing_defaults. induction fields as [|[name f] fs IH]; simpl; [tauto|].
  destruct (dict_contains obj name) eqn:E.
  - intros Hin. destruct (IH Hin) as (Ha & f' & Hf & Hd). split; [exact Ha|]. eauto.
  - destruct (default f) as [d|] eqn:Hd; simpl.
    + intros [<-|Hin].
      * simpl. split; [now apply dict_contains_false|]. eauto.
      * destruct (IH Hin) as (Ha & f' & Hf & Hd'). split; [exact Ha|]. eauto.
    + intros Hin. destruct (IH Hin) as (Ha & f' & Hf & Hd'). split; [exact Ha|]. eauto.
Qed.

Lemma missing_defaults_NoDup (fields : list (string * field)) (obj : dict) :
  List.NoDup (keys fields) -> List.NoDup (keys (missing_defaults fields obj)).
Proof.
  induction fields as [|[name f] fs IH]; simpl; intros Hnd; [constructor|].
  inversion Hnd as [|? ? Hn Hfs]; subst. unfold missing_defaults in *. simpl.
  destruct (dict_contains obj name); [auto|].
  destruct (default f) as [d|]; simpl; [|auto].
  constructor; [|auto]. intros Hin.
  unfold keys in Hin. apply in_map_iff in Hin as (kv & Hk & Hin).
  apply (missing_defaults_In fs obj kv) in Hin as (_ & f' & Hf & _).
  apply Hn. rewrite <- Hk. change (fst kv) with (fst (fst kv, f')). now apply in_map.
Qed.

Lemma keys_map_override (other d : dict) : keys (map (override other) d) = keys d.
Proof. unfold keys. rewrite map_map. reflexivity. Qed.

Lemma extras_In (fields : list (string * field)) (obj : dict) (kv : string * value) :
  In kv (extras fields obj) -> In kv obj /\ ~ In (fst kv) (keys fields).
Proof.
  unfold extras. intros H. apply filter_In in H as [Hin Hf]. split; [exact Hin|].
  apply negb_true_iff in Hf. now apply dict_contains_false in Hf.
Qed.

Lemma parsed_NoDup (fields : list (string * field)) (extra : extra_policy) (obj values : dict) :
  List.NoDup (keys fields) -> List.NoDup (keys obj) ->
  Forall2 (field_parsed obj) fields values ->
  List.NoDup (keys (values ++ match extra with Allow => extras fields obj | _ => [] end)).
Proof.
  intros Hf Ho Hv. unfold keys. rewrite map_app. apply NoDup_app_In.
  fold (keys values). rewrite (field_parsed_keys _ _ _ Hv). split; [exact Hf|]. split.
  - intros k Hk Hin. destruct extra; try destruct Hin.
    apply in_map_iff in Hin as (kv & <- & Hin). now apply extras_In in Hin as [_ ?].
  - destruct extra; try constructor. now apply keys_filter_NoDup.
Qed.

(** After the loop, [fill_defaults] overwrites [validation] with the parsed
    values and appends to both trees the defaults of the fields that the
    input does not supply. *)
Lemma fill_defaults_closed (fields : list (string * field)) (extra : extra_policy)
      (f0 v0 f v : dict) :
  List.NoDup (keys fields) -> List.NoDup (keys v0) -> keys f0 = keys v0 ->
  fill_defaults (TModel fields extra) f0 v0 = Ok (f, v) ->
  exists parsed,
    parse_obj (TModel fields extra) v0 = Ok parsed /\
    List.NoDup (keys parsed) /\
    v = map (override parsed) v0 ++ missing_defaults fields v0 /\
    f = f0 ++ missing_defaults fields v0.
Proof.
  intros Hf Hv0 Hk. unfold fill_defaults.
  destruct (parse_obj (TModel fields extra) v0) as [parsed|e] eqn:Hp; [|discriminate].
  cbn [bind]. intros [= <- <-]. exists parsed. split; [reflexivity|].
  apply parse_obj_spec in Hp as (values & Hvals & Hforbid & ->).
  assert (List.NoDup (keys (values ++ match extra with
                                      | Allow => extras fields v0
                                      | _ => []
                                      end))) as Hnd by now apply parsed_NoDup.
  split; [exact Hnd|].
  assert (List.filter (absent_from v0)
            (values ++ match extra with Allow => extras fields v0 | _ => [] end)
          = missing_defaults fields v0) as Hmiss.
  { rewrite List.filter_app, (field_parsed_missing _ _ _ Hvals).
    rewrite filter_absent_none; [now rewrite app_nil_r|].
    intros kv Hin. destruct extra; try destruct Hin.
    apply extras_In in Hin as [Hin _]. now apply in_map. }
  rewrite dict_update_closed by assumption. rewrite Hmiss. split; [reflexivity|].
  rewrite fold_copy_missing.
  - f_equal. rewrite List.filter_app.
    rewrite filter_absent_none.
    + apply filter_absent_all. intros kv Hin. rewrite Hk.
      now apply missing_defaults_In in Hin as [? _].
    + intros kv Hin. rewrite Hk, <- (keys_map_override
        (values ++ match extra with Allow => extras fields v0 | _ => [] end) v0).
      now apply in_map.
  - unfold keys. rewrite map_app. apply NoDup_app_In.
    fold (keys (map (override (values ++ match extra with
                                          | Allow => extras fields v0
                                          | _ => []
                                          end)) v0)).
    rewrite keys_map_override. split; [exact Hv0|]. split.
    + intros k Hin Hm. apply in_map_iff in Hm as (kv & <- & Hm).
      now apply missing_defaults_In in Hm as [? _].
    + now apply missing_defaults_NoDup.
Qed.

Lemma fill_and_validate_model (cls : store) (items : dict) (schema : ty) (f v : dict) :
  fill_and_validate cls (VDict items) schema = Ok (f, v) ->
  exists fields extra, schema = TModel fields extra.
Proof.
  rewrite fill_and_validate_unfold.
  destruct (fill_items cls schema items [] []) as [[f0 v0]|e]; [|discriminate].
  cbn [bind]. unfold fill_defaults, parse_obj.
  destruct schema; try discriminate. eauto.
Qed.

(** What a successful [fill_and_validate] returns, in closed form. *)
Lemma fill_and_validate_closed (cls : store) (items : dict)
      (fields : list (string * field)) (extra : extra_policy) (f v : dict) :
  List.NoDup (keys items) -> List.NoDup (keys fields) ->
  fill_and_validate cls (VDict items) (TModel fields extra) = Ok (f, v) ->
  exists fs vs parsed,
    entries_filled cls (TModel fields extra) items fs vs /\
    parse_obj (TModel fields extra) vs = Ok parsed /\
    List.NoDup (keys parsed) /\
    v = map (override parsed) vs ++ missing_defaults fields vs /\
    f = fs ++ missing_defaults fields vs.
Proof.
  intros Hi Hf. rewrite fill_and_validate_unfold.
  destruct (fill_items cls (TModel fields extra) items [] []) as [[f0 v0]|e] eqn:Hl;
    [|discriminate].
  cbn [bind]. apply fill_items_ok in Hl as (fs & vs & -> & -> & He); [|exact Hi|reflexivity].
  simpl app. intros Hd. destruct (entries_filled_keys _ _ _ _ _ He) as [Hkf Hkv].
  apply fill_defaults_closed in Hd as (parsed & Hp & Hnd & -> & ->);
    [|exact Hf|now rewrite Hkv|now rewrite Hkf, Hkv].
  exists fs, vs, parsed. auto.
Qed.

Lemma entries_filled_get (cls : store) (schema : ty) (items fs vs : dict)
      (key : string) (v : value) :
  entries_filled cls schema items fs vs ->
  dict_get items key = Some v ->
  exists fv vv, fill_entry cls schema key v = Ok (fv, vv) /\
                dict_get fs key = Some fv /\ dict_get vs key = Some vv.
Proof.
  induction 1 as [|k value fv vv rest fs vs He _ IH]; simpl; [discriminate|].
  destruct (String.eqb k key) eqn:E.
  - apply String.eqb_eq in E. subst k. intros [= <-]. eauto.
  - exact IH.
Qed.

Lemma fill_entry_scalar (cls : store) (schema : ty) (key : string) (v : value) :
  is_mapping v = false -> fill_entry cls schema key v = Ok (v, v).
Proof. destruct v; try reflexivity. discriminate. Qed.

Lemma dict_get_map_override (o d : dict) (k : string) :
  dict_get (map (override o) d) k
  = match dict_get d k with
    | Some y => Some (match dict_get o k with Some x => x | None => y end)
    | None => None
    end.
Proof.
  induction d as [|[k0 w] d IH]; [reflexivity|]. simpl.
  destruct (String.eqb k0 k) eqn:E; [|exact IH].
  apply String.eqb_eq in E. now subst k0.
Qed.

Lemma field_parsed_get (obj : dict) (fields : list (string * field)) (values : dict)
      (key : string) (f : field) :
  Forall2 (field_parsed obj) fields values ->
  dict_get fields key = Some f ->
  exists x, field_value obj (key, f) = Some x /\ dict_get values key = Some x.
Proof.
  induction 1 as [|[name f0] [k x] fs vs [Hk Hv] _ IH]; simpl; [discriminate|].
  simpl in Hk. subst k. destruct (String.eqb name key) eqn:E.
  - apply String.eqb_eq in E. subst name. intros [= <-]. eauto.
  - exact IH.
Qed.

Lemma dict_get_missing_defaults (fields : list (string * field)) (obj : dict)
      (key : string) (f : field) :
  List.NoDup (keys fields) ->
  dict_get obj key = None ->
  dict_get fields key = Some f ->
  dict_get (missing_defaults fields obj) key = default f.
Proof.
  intros Hnd Ho. induction fields as [|[name f0] fs IH]; simpl; [discriminate|].
  inversion Hnd as [|? ? Hn Hfs]; subst. unfold missing_defaults in *. simpl.
  destruct (String.eqb name key) eqn:E.
  - apply String.eqb_eq in E. subst name. intros [= ->].
    unfold dict_contains. rewrite Ho. destruct (default f) as [d|] eqn:Hd; simpl.
    + now rewrite String.eqb_refl.
    + apply dict_get_None. intros Hin. apply in_map_iff in Hin as (kv & Hk & Hin).
      apply (missing_defaults_In fs obj kv) in Hin as (_ & f' & Hf & _).
      apply Hn. rewrite <- Hk. change (fst kv) with (fst (fst kv, f')). now apply in_map.
  - intros Hf. destruct (dict_contains obj name); [now apply IH|].
    destruct (default f0); simpl; [|now apply IH].
    rewrite E. now apply IH.
Qed.

(** C10. In what [fill_and_validate] returns, a supplied entry keeps in
    [filled] what the loop stored for it, which for a scalar is the supplied
    value itself, while [validation] holds under a declared key the value as
    the schema parsed it, possibly coerced; a declared key that the input
    does not supply holds the declared default in both trees. *)
Theorem supplied_fields_kept (cls : store) (items : dict)
        (fields : list (string * field)) (extra : extra_policy) (filled validation : dict) :
  wf_config (VDict items) = true ->
  nodup_keys (keys fields) = true ->
  fill_and_validate cls (VDict items) (TModel fields extra) = Ok (filled, validation) ->
  (forall key v, dict_get items key = Some v ->
     exists fv vv,
       fill_entry cls (TModel fields extra) key v = Ok (fv, vv) /\
       dict_get filled key = Some fv /\
       (is_mapping v = false -> fv = v) /\
       (forall f, dict_get fields key = Some f ->
          exists x, validate (type_ f) vv = inl x /\ dict_get validation key = Some x)) /\
  (forall key f, dict_get items key = None -> dict_get fields key = Some f ->
     exists d, default f = Some d /\
               dict_get filled key = Some d /\ dict_get validation key = Some d).
Proof.
  intros Hw Hf Hrun. apply wf_config_inv in Hw as [Hi _]. apply nodup_keys_NoDup in Hf.
  apply fill_and_validate_closed in Hrun
    as (fs & vs & parsed & He & Hp & Hnd & -> & ->); [|exact Hi|exact Hf].
  apply parse_obj_spec in Hp as (values & Hvals & _ & ->).
  destruct (entries_filled_keys _ _ _ _ _ He) as [Hkf Hkv]. split.
  - intros key v Hget.
    destruct (entries_filled_get _ _ _ _ _ key v He Hget) as (fv & vv & Hent & Hfs & Hvs).
    exists fv, vv. split; [exact Hent|]. split; [|split].
    + rewrite dict_get_app. now rewrite Hfs.
    + intros Hs. rewrite (fill_entry_scalar cls _ key v Hs) in Hent. congruence.
    + intros f Hfield.
      destruct (field_parsed_get _ _ _ key f Hvals Hfield) as (x & Hval & Hx).
      unfold field_value in Hval. simpl in Hval. rewrite Hvs in Hval.
      rewrite dict_get_app, dict_get_map_override, Hvs, dict_get_app, Hx.
      exists x. split; [|reflexivity].
      destruct (validate (type_ f) vv); congruence.
  - intros key f Hget Hfield.
    assert (dict_get fs key = None) as Hfs
      by (apply dict_get_None; rewrite Hkf; now apply dict_get_None).
    assert (dict_get vs key = None) as Hvs
      by (apply dict_get_None; rewrite Hkv; now apply dict_get_None).
    destruct (field_parsed_get _ _ _ key f Hvals Hfield) as (x & Hval & Hx).
    unfold field_value in Hval. simpl in Hval. rewrite Hvs in Hval.
    exists x. split; [exact Hval|].
    rewrite !dict_get_app, dict_get_map_override, Hfs, Hvs.
    rewrite (dict_get_missing_defaults fields vs key f Hf Hvs Hfield), Hval. auto.
Qed.

(** The string ["12"] supplied for the integer [n] stays a string in
    [filled] and is the integer 12 in [validation]; the omitted [m] is its
    default, 5, in both. *)
Lemma supplied_fields_kept_witness :
  exists filled validation,
    fill_and_validate Scenario.registry (VDict Scenario.sizes)
      (TModel Scenario.sizes_fields Ignore) = Ok (filled, validation) /\
    dict_get filled "n" = Some (VStr "12") /\
    dict_get validation "n" = Some (VInt 12) /\
    dict_get filled "m" = Some (VInt 5) /\
    dict_get validation "m" = Some (VInt 5).
Proof.
  exists [("n", VStr "12"); ("m", VInt 5)], [("n", VInt 12); ("m", VInt 5)].
  assert (fill_and_validate Scenario.registry (VDict Scenario.sizes)
            (TModel Scenario.sizes_fields Ignore)
          = Ok ([("n", VStr "12"); ("m", VInt 5)], [("n", VInt 12); ("m", VInt 5)])) as Hrun
    by (vm_compute; reflexivity).
  split; [exact Hrun|].
  destruct (supplied_fields_kept Scenario.registry Scenario.sizes Scenario.sizes_fields
              Ignore _ _ eq_refl eq_refl Hrun) as [Hsupplied Habsent].
  destruct (Hsupplied "n" (VStr "12") eq_refl) as (fv & vv & Hent & Hfn & Hkeep & Hparsed).
  destruct (Habsent "m" (Field TInt (Some (VInt 5))) eq_refl eq_refl)
    as (d & Hd & Hfm & Hvm).
  injection Hd as <-.
  rewrite (Hkeep eq_refl) in Hfn.
  destruct (Hparsed (Field TInt None) eq_refl) as (x & Hx & Hvn).
  injection Hent as <- <-. vm_compute in Hx. injection Hx as <-.
  auto.
Defined.

(** ** Well-formed schemas and stores *)

Lemma check_ty_inv (P : string -> field -> bool) (fields : list (string * field))
      (extra : extra_policy) :
  check_ty P (TModel fields extra) = true ->
  List.NoDup (keys fields) /\
  Forall (fun nf => P (fst nf) (snd nf) = true /\ check_ty P (type_ (snd nf)) = true) fields.
Proof.
  simpl. intros H. apply andb_true_iff in H as [Hnd Hall]. split.
  - now apply nodup_keys_NoDup.
  - clear Hnd. induction fields as [|[n f] fs IH]; constructor.
    + simpl. apply andb_true_iff in Hall as [H _]. now apply andb_true_iff in H.
    + apply IH. now apply andb_true_iff in Hall as [_ ?].
Qed.

Lemma check_ty_intro (P : string -> field -> bool) (fields : list (string * field))
      (extra : extra_policy) :
  List.NoDup (keys fields) ->
  Forall (fun nf => P (fst nf) (snd nf) = true /\ check_ty P (type_ (snd nf)) = true) fields ->
  check_ty P (TModel fields extra) = true.
Proof.
  intros Hnd Hall. simpl. apply andb_true_iff. split; [now apply nodup_keys_NoDup|].
  clear Hnd. induction Hall as [|[n f] fs [HP Ht] _ IH]; [reflexivity|].
  simpl in *. now rewrite HP, Ht, IH.
Qed.

Lemma check_ty_field (P : string -> field -> bool) (fields : list (string * field))
      (extra : extra_policy) (key : string) (fld : field) :
  check_ty P (TModel fields extra) = true ->
  dict_get fields key = Some fld ->
  P key fld = true /\ check_ty P (type_ fld) = true.
Proof.
  intros H Hget. apply check_ty_inv in H as [_ Hall].
  apply dict_get_In in Hget. rewrite List.Forall_forall in Hall.
  exact (Hall (key, fld) Hget).
Qed.

(** A function that a lookup returns is a member of the attribute. *)
Lemma get_inv (cls : store) (r : string) (n : value) (func : constructor) :
  get cls r n = Ok func ->
  exists a fname, cls !! r = Some a /\ n = VStr fname /\ In (fname, func) (members_of a).
Proof.
  unfold get. destruct (cls !! r) as [a|]; [|discriminate].
  destruct a as [reg|members|]; cbn [attribute_get bind]; [| |discriminate].
  - unfold catalogue_get. destruct n as [| |s| |]; try discriminate.
    destruct (reg !! s) as [func'|] eqn:E; [|discriminate]. cbn [bind].
    intros [= <-]. exists (Registry reg), s. repeat split.
    cbn [members_of]. rewrite <- list_elem_of_In. now apply elem_of_map_to_list.
  - destruct n as [| |s| |]; try discriminate. cbn [bind].
    destruct (members !! s) as [func'|] eqn:E; [|discriminate].
    intros [= <-]. exists (Mapping members), s. repeat split.
    cbn [members_of]. rewrite <- list_elem_of_In. now apply elem_of_map_to_list.
Qed.

Lemma check_store_lookup (P : string -> field -> bool) (cls : store)
      (r : string) (n : value) (func : constructor) :
  check_store P cls = true ->
  get cls r n = Ok func ->
  check_constructor P func = true.
Proof.
  unfold check_store. intros H Hget.
  apply get_inv in Hget as (a & fname & Hr & _ & Hin).
  rewrite forallb_forall in H. specialize (H (r, a)).
  rewrite <- list_elem_of_In, elem_of_map_to_list in H. specialize (H Hr). simpl in H.
  rewrite forallb_forall in H. exact (H (fname, func) Hin).
Qed.

Lemma get_constructor_inv (cls : store) (obj : dict) (func : constructor) :
  get_constructor cls obj = Ok func ->
  exists key fname,
    id_keys obj = [key] /\ dict_get obj key = Some (VStr fname) /\
    get cls (tail key) (VStr fname) = Ok func.
Proof.
  unfold get_constructor. destruct (id_keys obj) as [|key [|? ?]]; try discriminate.
  unfold getitem. destruct (dict_get obj key) as [v|] eqn:Hv; [|discriminate]. cbn [bind].
  intros Hget. pose proof Hget as Hget'.
  apply get_inv in Hget' as (_ & fname & _ & -> & _).
  exists key, fname. auto.
Qed.

Lemma make_promise_schema_inv (P : string -> field -> bool) (cls : store)
      (obj : dict) (ps : ty) :
  check_store P cls = true ->
  make_promise_schema cls obj = Ok ps ->
  exists key fname func,
    id_keys obj = [key] /\ dict_get obj key = Some (VStr fname) /\
    get_constructor cls obj = Ok func /\
    check_constructor P func = true /\
    ps = TModel (promise_fields key func) Forbid.
Proof.
  intros Hs Hps.
  destruct (get_constructor cls obj) as [func|e] eqn:Hg;
    [|unfold make_promise_schema in Hps; rewrite Hg in Hps; discriminate].
  destruct (get_constructor_inv cls obj func Hg) as (key & fname & Hid & Hv & Hget).
  pose proof (check_store_lookup P cls _ _ _ Hs Hget) as Hc.
  exists key, fname, func. repeat split; try assumption.
  unfold check_constructor in Hc. apply andb_true_iff in Hc as [Hwf _].
  now destruct (make_promise_schema_made cls obj key func ps Hid Hg Hwf Hps).
Qed.

Lemma promise_fields_checked (P : string -> field -> bool) (key : string) (func : constructor) :
  startswith_at key = true ->
  P key (Field TStr None) = true ->
  check_constructor P func = true ->
  check_ty P (TModel (promise_fields key func) Forbid) = true.
Proof.
  intros Hkey HP Hc. unfold check_constructor in Hc. apply andb_true_iff in Hc as [Hwf Hall].
  apply check_ty_intro.
  - now apply promise_fields_sigil.
  - unfold promise_fields. constructor; [simpl; auto|].
    apply List.Forall_forall. intros nf Hin.
    apply in_map_iff in Hin as (p & <- & Hin).
    rewrite forallb_forall in Hall. specialize (Hall p Hin).
    unfold check_param in Hall. now apply andb_true_iff in Hall.
Qed.

Lemma fill_entry_promise (cls : store) (schema : ty) (key : string) (promise : dict)
      (fv vv : value) :
  is_promise (VDict promise) = true ->
  fill_entry cls schema key (VDict promise) = Ok (fv, vv) ->
  exists ps pf pv t,
    make_promise_schema cls promise = Ok ps /\
    fill_and_validate cls (VDict promise) ps = Ok (pf, pv) /\
    get_return_type cls promise = Ok t /\
    fv = VDict pf /\ vv = new t.
Proof.
  intros Hp. unfold fill_entry. rewrite Hp.
  destruct (make_promise_schema cls promise) as [ps|e] eqn:E1; [|discriminate]. cbn [bind].
  destruct (fill_and_validate cls (VDict promise) ps) as [[pf pv]|e] eqn:E2; [|discriminate].
  cbn [bind].
  destruct (get_return_type cls promise) as [t|e] eqn:E3; [|discriminate]. cbn [bind].
  intros [= <- <-]. exists ps, pf, pv, t. repeat split; auto.
Qed.

Lemma fill_entry_mapping (cls : store) (schema : ty) (key : string) (child : dict)
      (fv vv : value) :
  is_promise (VDict child) = false ->
  fill_entry cls schema key (VDict child) = Ok (fv, vv) ->
  exists fld cf cv,
    fields_getitem schema key = Ok fld /\
    fill_and_validate cls (VDict child) (type_ fld) = Ok (cf, cv) /\
    fv = VDict cf /\ vv = VDict cv.
Proof.
  intros Hp. unfold fill_entry. rewrite Hp.
  destruct (fields_getitem schema key) as [fld|e] eqn:E1; [|discriminate]. cbn [bind].
  destruct (fill_and_validate cls (VDict child) (type_ fld)) as [[cf cv]|e] eqn:E2; [|discriminate].
  cbn [bind]. intros [= <- <-]. exists fld, cf, cv. repeat split; auto.
Qed.

Lemma fields_getitem_inv (fields : list (string * field)) (extra : extra_policy)
      (key : string) (fld : field) :
  fields_getitem (TModel fields extra) key = Ok fld -> dict_get fields key = Some fld.
Proof.
  unfold fields_getitem, getitem. destruct (dict_get fields key); [|discriminate].
  now intros [= ->].
Qed.

Lemma promise_schema_wf (P : string -> field -> bool) (cls : store) (obj : dict) (ps : ty) :
  (forall k, P k (Field TStr None) = true) ->
  check_store P cls = true ->
  make_promise_schema cls obj = Ok ps ->
  check_ty P ps = true.
Proof.
  intros HP Hs Hps.
  destruct (make_promise_schema_inv P cls obj ps Hs Hps)
    as (key & fname & func & Hid & _ & _ & Hc & ->).
  apply promise_fields_checked; [|apply HP|exact Hc].
  apply (id_keys_sigil obj). rewrite Hid. now left.
Qed.

(** A successful [fill_and_validate] leaves no declared field out. *)
Lemma fill_and_validate_no_omitted (cls : store) :
  wf_store cls = true ->
  forall config schema f v,
    wf_config config = true -> wf_ty schema = true ->
    fill_and_validate cls config schema = Ok (f, v) ->
    no_omitted cls schema config f.
Proof.
  intros Hs config.
  induction config as [b|z|s|items IH|c a _] using value_nested_ind;
    intros schema f v Hw Ht Hrun; try discriminate.
  destruct (fill_and_validate_model cls items schema f v Hrun) as (fields & extra & ->).
  pose proof Hw as Hw'. apply wf_config_inv in Hw' as [Hi Hchildren].
  pose proof Ht as Ht'. apply check_ty_inv in Ht' as [Hf _].
  apply fill_and_validate_closed in Hrun
    as (fs & vs & parsed & He & Hp & Hnd & -> & ->); [|exact Hi|exact Hf].
  apply parse_obj_spec in Hp as (values & Hvals & _ & ->).
  destruct (entries_filled_keys _ _ _ _ _ He) as [Hkf Hkv].
  rewrite List.Forall_forall in IH, Hchildren.
  constructor.
  - intros n fld Hin. apply (In_dict_get _ _ _ Hf) in Hin.
    destruct (dict_get items n) as [x|] eqn:Hget.
    + destruct (entries_filled_get _ _ _ _ _ n x He Hget) as (fv & vv & _ & Hfs & _).
      unfold dict_contains. rewrite dict_get_app. now rewrite Hfs.
    + assert (dict_get fs n = None) as Hfs
        by (apply dict_get_None; rewrite Hkf; now apply dict_get_None).
      assert (dict_get vs n = None) as Hvs
        by (apply dict_get_None; rewrite Hkv; now apply dict_get_None).
      destruct (field_parsed_get _ _ _ n fld Hvals Hin) as (x & Hval & _).
      unfold field_value in Hval. simpl in Hval. rewrite Hvs in Hval.
      exists x. split; [exact Hval|].
      rewrite dict_get_app, Hfs.
      now rewrite (dict_get_missing_defaults fields vs n fld Hf Hvs Hin).
  - intros key promise Hin Hprom.
    pose proof (In_dict_get _ _ _ Hi Hin) as Hget.
    destruct (entries_filled_get _ _ _ _ _ key _ He Hget) as (fv & vv & Hent & Hfs & _).
    apply fill_entry_promise in Hent as (ps & pf & pv & t & Hps & Hrun & _ & -> & _);
      [|exact Hprom].
    exists ps, pf. split; [exact Hps|]. split.
    + rewrite dict_get_app. now rewrite Hfs.
    + apply (IH (key, VDict promise) Hin ps pf pv).
      * exact (Hchildren (key, VDict promise) Hin).
      * now apply (promise_schema_wf any_field cls promise ps).
      * exact Hrun.
  - intros key child Hin Hprom.
    pose proof (In_dict_get _ _ _ Hi Hin) as Hget.
    destruct (entries_filled_get _ _ _ _ _ key _ He Hget) as (fv & vv & Hent & Hfs & _).
    apply fill_entry_mapping in Hent as (fld & cf & cv & Hfld & Hrun & -> & _);
      [|exact Hprom].
    apply fields_getitem_inv in Hfld.
    exists fld, cf. split; [exact Hfld|]. split.
    + rewrite dict_get_app. now rewrite Hfs.
    + apply (IH (key, VDict child) Hin (type_ fld) cf cv).
      * exact (Hchildren (key, VDict child) Hin).
      * now apply (check_ty_field any_field fields extra key fld Ht).
      * exact Hrun.
Qed.

Lemma declared_defaults_parsed (key : string) (v : value) (params : list parameter) :
  Forall (fun p => name p <> key) params ->
  forallb has_default params = true ->
  Forall2 (field_parsed [(key, v)]) (map param_field params)
          (omap (fun p => option_map (pair (name p)) (param_default p)) params) /\
  missing_defaults (map param_field params) [(key, v)]
  = omap (fun p => option_map (pair (name p)) (param_default p)) params /\
  keys (omap (fun p => option_map (pair (name p)) (param_default p)) params)
  = map name params.
Proof.
  induction 1 as [|p ps Hp _ IH]; intros Hall.
  - repeat split. constructor.
  - simpl in Hall. apply andb_true_iff in Hall as [Hd Hall].
    destruct (IH Hall) as (IH1 & IH2 & IH3).
    unfold has_default in Hd. destruct (param_default p) as [d|] eqn:E; [|discriminate].
    assert (dict_get [(key, v)] (name p) = None) as Hget.
    { simpl. destruct (String.eqb key (name p)) eqn:Hne; [|reflexivity].
      apply String.eqb_eq in Hne. congruence. }
    assert (omap (fun p => option_map (pair (name p)) (param_default p)) (p :: ps)
            = (name p, d) :: omap (fun p => option_map (pair (name p)) (param_default p)) ps)
      as -> by (cbn [omap list_omap]; now rewrite E).
    split; [|split].
    + change (map param_field (p :: ps)) with (param_field p :: map param_field ps).
      constructor; [|exact IH1].
      unfold field_parsed, field_value, param_field. cbn [fst snd default type_].
      rewrite Hget, E. auto.
    + rewrite <- IH2. unfold missing_defaults.
      change (map param_field (p :: ps)) with (param_field p :: map param_field ps).
      cbn [omap list_omap]. unfold param_field at 1 2 3. cbn [fst snd default].
      unfold dict_contains at 1. now rewrite Hget, E.
    + unfold keys in *. cbn [map fst]. now rewrite IH3.
Qed.

(** A promise that supplies the sigil key only, for a function whose
    parameters all have defaults, is filled with exactly those defaults. *)
Lemma fill_and_validate_defaults_only (cls : store) (key fname : string) (func : constructor) :
  startswith_at key = true ->
  wf_names func = true ->
  forallb has_default (parameters func) = true ->
  fill_and_validate cls (VDict [(key, VStr fname)])
    (TModel (promise_fields key func) Forbid)
  = Ok ((key, VStr fname) :: declared_defaults func,
        (key, VStr fname) :: declared_defaults func) /\
  keys (declared_defaults func) = map name (parameters func).
Proof.
  intros Hkey Hwf Hall.
  destruct (promise_fields_sigil key func Hkey Hwf) as [_ Hnd].
  apply wf_names_inv in Hwf as [_ Hnames].
  assert (Forall (fun p => name p <> key) (parameters func)) as Hne.
  { apply List.Forall_forall. intros p Hin Heq.
    rewrite List.Forall_forall in Hnames.
    destruct (Hnames (name p) (in_map name _ _ Hin)) as [Hs _]. congruence. }
  destruct (declared_defaults_parsed key (VStr fname) _ Hne Hall) as (Hparsed & Hmiss & Hkeys).
  split; [|exact Hkeys].
  assert (parse_obj (TModel (promise_fields key func) Forbid) [(key, VStr fname)]
          = Ok ((key, VStr fname) :: declared_defaults func)) as Hp.
  { apply parse_obj_spec. exists ((key, VStr fname) :: declared_defaults func).
    split; [|split].
    - unfold promise_fields. constructor; [|exact Hparsed].
      unfold field_parsed, field_value. cbn. rewrite String.eqb_refl. auto.
    - intros _. unfold extras, has_field, dict_contains, promise_fields. cbn.
      now rewrite String.eqb_refl.
    - now rewrite app_nil_r. }
  rewrite fill_and_validate_unfold.
  assert (fill_items cls (TModel (promise_fields key func) Forbid) [(key, VStr fname)] [] []
          = Ok ([(key, VStr fname)], [(key, VStr fname)])) as -> by reflexivity.
  cbn [bind].
  destruct (fill_defaults (TModel (promise_fields key func) Forbid)
              [(key, VStr fname)] [(key, VStr fname)]) as [[f v]|e] eqn:Hd.
  - apply fill_defaults_closed in Hd as (parsed & Hp' & _ & -> & ->);
      [|exact Hnd|repeat constructor; simpl; tauto|reflexivity].
    rewrite Hp in Hp'. injection Hp' as <-.
    assert (missing_defaults (promise_fields key func) [(key, VStr fname)]
            = declared_defaults func) as ->.
    { unfold promise_fields, missing_defaults. cbn. unfold dict_contains. cbn.
      rewrite String.eqb_refl. exact Hmiss. }
    cbn. unfold override. cbn. now rewrite String.eqb_refl.
  - unfold fill_defaults in Hd. rewrite Hp in Hd. discriminate.
Qed.

(** ** Filling what has been filled *)

(** A default in the shape of a promise is copied into [filled] as it is;
    filling the result again treats it as a promise and fills it in. *)
Lemma second_pass_differs :
  fill_and_validate Scenario.registry (VDict [])
    (TModel Scenario.promise_default Ignore)
  = Ok ([("activation", VDict [("@layers", VStr "Softmax.v0")])],
        [("activation", VDict [("@layers", VStr "Softmax.v0")])]) /\
  fill_and_validate Scenario.registry
    (VDict [("activation", VDict [("@layers", VStr "Softmax.v0")])])
    (TModel Scenario.promise_default Ignore)
  = Ok ([("activation", VDict [("@layers", VStr "Softmax.v0"); ("nO", VInt 2)])],
        [("activation", VObj "Model" [])]).
Proof. vm_compute. split; reflexivity. Qed.

Lemma value_eqb_eq (a b : value) : value_eqb a b = true -> a = b.
Proof.
  revert b. induction a as [x|x|s|d IH|c d IH] using value_nested_ind;
    intros [y|y|t|e|c' e]; simpl; try discriminate.
  - intros H. apply Bool.eqb_prop in H. now subst.
  - intros H. apply Z.eqb_eq in H. now subst.
  - intros H. apply String.eqb_eq in H. now subst.
  - intros H. f_equal. revert e H.
    induction IH as [|[k v] d' Hv _ IHd]; intros [|[k' w] e']; try discriminate;
      [reflexivity|].
    intros H. apply andb_true_iff in H as [H H3]. apply andb_true_iff in H as [H1 H2].
    apply String.eqb_eq in H1. apply Hv in H2. apply IHd in H3. now subst.
  - intros H. apply andb_true_iff in H as [Hc H]. apply String.eqb_eq in Hc. subst c'.
    f_equal. revert e H.
    induction IH as [|[k v] d' Hv _ IHd]; intros [|[k' w] e']; try discriminate;
      [reflexivity|].
    intros H. apply andb_true_iff in H as [H H3]. apply andb_true_iff in H as [H1 H2].
    apply String.eqb_eq in H1. apply Hv in H2. apply IHd in H3. now subst.
Qed.

Lemma stable_field_inv (n : string) (f : field) (d : value) :
  stable_field n f = true -> default f = Some d ->
  startswith_at n = false /\ is_mapping d = false /\ validate (type_ f) d = inl d.
Proof.
  unfold stable_field. intros H Hd. rewrite Hd in H.
  apply andb_true_iff in H as [H H3]. apply andb_true_iff in H as [H1 H2].
  apply negb_true_iff in H1, H2. repeat split; [exact H1|exact H2|].
  destruct (validate (type_ f) d) as [d'|]; [|discriminate].
  apply value_eqb_eq in H3. now subst.
Qed.

(** The defaults appended to the trees of a stable schema can be supplied
    in their place. *)
Lemma missing_defaults_stable (fields : list (string * field)) (extra : extra_policy)
      (obj : dict) (kv : string * value) :
  stable_ty (TModel fields extra) = true ->
  In kv (missing_defaults fields obj) ->
  ~ In (fst kv) (keys obj) /\
  startswith_at (fst kv) = false /\ is_mapping (snd kv) = false /\
  exists f, dict_get fields (fst kv) = Some f /\ default f = Some (snd kv) /\
            validate (type_ f) (snd kv) = inl (snd kv).
Proof.
  intros Hst Hin. apply check_ty_inv in Hst as [Hnd Hall].
  apply missing_defaults_In in Hin as (Habs & f & Hf & Hd).
  rewrite List.Forall_forall in Hall. destruct (Hall _ Hf) as [HP _]. simpl in HP.
  destruct (stable_field_inv _ _ _ HP Hd) as (H1 & H2 & H3).
  repeat split; try assumption. exists f. repeat split; try assumption.
  now apply In_dict_get.
Qed.

Lemma missing_defaults_no_sigil (fields : list (string * field)) (extra : extra_policy)
      (obj : dict) :
  stable_ty (TModel fields extra) = true ->
  List.filter startswith_at (keys (missing_defaults fields obj)) = [].
Proof.
  intros Hst.
  assert (forall kv, In kv (missing_defaults fields obj) -> startswith_at (fst kv) = false)
    as H by (intros kv Hin; now apply (missing_defaults_stable fields extra obj kv Hst) in Hin).
  induction (missing_defaults fields obj) as [|kv l IH]; [reflexivity|].
  simpl. rewrite (H kv) by now left. apply IH. intros kv' Hin. apply H. now right.
Qed.

Lemma entries_filled_app (cls : store) (schema : ty) (a fa va b fb vb : dict) :
  entries_filled cls schema a fa va ->
  entries_filled cls schema b fb vb ->
  entries_filled cls schema (a ++ b) (fa ++ fb) (va ++ vb).
Proof.
  induction 1; intros Hb; simpl; [exact Hb|]. constructor; auto.
Qed.

Lemma entries_filled_scalars (cls : store) (schema : ty) (l : dict) :
  (forall kv, In kv l -> is_mapping (snd kv) = false) ->
  entries_filled cls schema l l l.
Proof.
  induction l as [|[k x] l IH]; intros H; constructor.
  - apply fill_entry_scalar. exact (H (k, x) (or_introl eq_refl)).
  - apply IH. intros kv Hin. apply H. now right.
Qed.

Lemma entries_filled_again (cls : store) (schema : ty) (items fs vs : dict) :
  entries_filled cls schema items fs vs ->
  (forall key value fv vv, In (key, value) items ->
     fill_entry cls schema key value = Ok (fv, vv) ->
     fill_entry cls schema key fv = Ok (fv, vv)) ->
  entries_filled cls schema fs fs vs.
Proof.
  induction 1 as [|key value fv vv rest fs vs He _ IH]; intros Hagain; constructor.
  - apply (Hagain key value); [now left|exact He].
  - apply IH. intros k x f v Hin. apply Hagain. now right.
Qed.

Lemma Forall2_impl_In {A B : Type} (R R' : A -> B -> Prop) (l : list A) (l' : list B) :
  (forall a b, In a l -> R a b -> R' a b) -> Forall2 R l l' -> Forall2 R' l l'.
Proof.
  intros H HF. induction HF as [|a b l l' Hab _ IH]; constructor.
  - apply H; [now left|exact Hab].
  - apply IH. intros a' b' Hin. apply H. now right.
Qed.

Section second_pass.
Variables (fields : list (string * field)) (extra : extra_policy) (vs : dict).
Hypothesis Hstable : stable_ty (TModel fields extra) = true.
Hypothesis Hvs : List.NoDup (keys vs).

Let md : dict := missing_defaults fields vs.

Lemma field_value_again (n : string) (f : field) (x : value) :
  In (n, f) fields ->
  field_value vs (n, f) = Some x ->
  field_value (vs ++ md) (n, f) = Some x.
Proof.
  intros Hin Hval. pose proof Hstable as Hst. apply check_ty_inv in Hst as [Hnd Hall].
  unfold field_value in *. simpl in *. rewrite dict_get_app.
  destruct (dict_get vs n) as [y|] eqn:Hget; [exact Hval|].
  unfold md. rewrite (dict_get_missing_defaults fields vs n f Hnd Hget)
    by (now apply In_dict_get).
  rewrite Hval.
  rewrite List.Forall_forall in Hall. destruct (Hall _ Hin) as [HP _]. simpl in HP.
  destruct (stable_field_inv _ _ _ HP Hval) as (_ & _ & ->). reflexivity.
Qed.

Lemma field_parsed_again (values : dict) :
  Forall2 (field_parsed vs) fields values ->
  Forall2 (field_parsed (vs ++ md)) fields values.
Proof.
  apply Forall2_impl_In. intros [n f] kv Hin [Hk Hv].
  split; [exact Hk|]. now apply field_value_again.
Qed.

Lemma extras_again : extras fields (vs ++ md) = extras fields vs.
Proof.
  unfold extras. rewrite List.filter_app.
  assert (List.filter (fun kv => negb (has_field fields (fst kv))) md = []) as ->.
  { assert (forall kv, In kv md -> has_field fields (fst kv) = true) as H.
    { intros kv Hin. apply (missing_defaults_stable fields extra vs kv Hstable) in Hin
        as (_ & _ & _ & f & Hf & _).
      unfold has_field, dict_contains. now rewrite Hf. }
    induction md as [|kv l IH]; [reflexivity|]. simpl.
    rewrite (H kv) by now left. simpl. apply IH. intros kv' Hin. apply H. now right. }
  now rewrite app_nil_r.
Qed.

Lemma parse_obj_again (parsed : dict) :
  parse_obj (TModel fields extra) vs = Ok parsed ->
  parse_obj (TModel fields extra) (vs ++ md) = Ok parsed.
Proof.
  intros Hp. apply parse_obj_spec in Hp as (values & Hvals & Hforbid & ->).
  apply parse_obj_spec. exists values. rewrite extras_again.
  split; [now apply field_parsed_again|]. auto.
Qed.

End second_pass.

Lemma parsed_keys_covered (fields : list (string * field)) (extra : extra_policy)
      (vs values : dict) (kv : string * value) :
  List.NoDup (keys fields) ->
  Forall2 (field_parsed vs) fields values ->
  In kv (values ++ match extra with Allow => extras fields vs | _ => [] end) ->
  In (fst kv) (keys (vs ++ missing_defaults fields vs)).
Proof.
  intros Hnd Hvals Hin. unfold keys. rewrite map_app. apply in_or_app.
  apply in_app_or in Hin as [Hin|Hin].
  - destruct (dict_get vs (fst kv)) as [y|] eqn:Hget.
    + left. apply dict_get_In in Hget. now apply (in_map fst) in Hget.
    + right.
      assert (In (fst kv) (keys fields)) as Hk
        by (rewrite <- (field_parsed_keys _ _ _ Hvals); now apply in_map).
      apply dict_contains_true in Hk. unfold dict_contains in Hk.
      destruct (dict_get fields (fst kv)) as [f|] eqn:Hf; [|discriminate].
      destruct (field_parsed_get _ _ _ _ f Hvals Hf) as (x & Hval & _).
      unfold field_value in Hval. simpl in Hval. rewrite Hget in Hval.
      pose proof (dict_get_missing_defaults fields vs _ f Hnd Hget Hf) as Hm.
      rewrite Hval in Hm. apply dict_get_In in Hm. now apply (in_map fst) in Hm.
  - left. destruct extra; try destruct Hin.
    apply extras_In in Hin as [Hin _]. now apply in_map.
Qed.

(** Filling again the trees that [fill_defaults] returned changes nothing. *)
Lemma fill_defaults_again (fields : list (string * field)) (extra : extra_policy)
      (fs vs parsed : dict) :
  stable_ty (TModel fields extra) = true ->
  List.NoDup (keys vs) -> keys fs = keys vs ->
  parse_obj (TModel fields extra) vs = Ok parsed ->
  fill_defaults (TModel fields extra)
    (fs ++ missing_defaults fields vs) (vs ++ missing_defaults fields vs)
  = Ok (fs ++ missing_defaults fields vs,
        map (override parsed) vs ++ missing_defaults fields vs).
Proof.
  intros Hst Hvs Hk Hp.
  pose proof (parse_obj_again fields extra vs Hst parsed Hp) as Hp2. cbv zeta in Hp2.
  unfold fill_defaults. rewrite Hp2. clear Hp2. cbn [bind].
  set (md := missing_defaults fields vs).
  pose proof Hst as Hst'. apply check_ty_inv in Hst' as [Hnd _].
  assert (List.NoDup (keys (vs ++ md))) as Hnd_v.
  { unfold keys. rewrite map_app. apply NoDup_app_In. split; [exact Hvs|]. split.
    - intros k Hin Hm. apply in_map_iff in Hm as (kv & <- & Hm).
      now apply missing_defaults_In in Hm as [? _].
    - now apply missing_defaults_NoDup. }
  apply parse_obj_spec in Hp as (values & Hvals & Hforbid & ->).
  set (parsed := values ++ match extra with Allow => extras fields vs | _ => [] end).
  assert (dict_update (vs ++ md) parsed = map (override parsed) vs ++ md) as ->.
  { rewrite dict_update_closed; [|exact Hnd_v|now apply parsed_NoDup].
    rewrite filter_absent_none by (intros kv; now apply parsed_keys_covered).
    rewrite app_nil_r, map_app. f_equal.
    assert (forall kv, In kv md -> override parsed kv = kv) as H.
    { intros kv Hin.
      apply (missing_defaults_stable fields extra vs kv Hst) in Hin
        as (Habs & _ & _ & f & Hf & Hd & _).
      destruct (field_parsed_get _ _ _ _ f Hvals Hf) as (x & Hval & Hx).
      unfold field_value in Hval. simpl in Hval.
      apply dict_get_None in Habs. rewrite Habs, Hd in Hval. injection Hval as <-.
      unfold override, parsed. rewrite dict_get_app, Hx. now destruct kv. }
    transitivity (map (fun kv : string * value => kv) md);
      [apply map_ext_in; exact H | apply map_id]. }
  rewrite fold_copy_missing.
  - rewrite filter_absent_none; [now rewrite app_nil_r|].
    intros kv Hin. apply (in_map fst) in Hin. fold (keys (map (override parsed) vs ++ md)) in Hin.
    unfold keys in *. rewrite map_app in *. fold (keys (map (override parsed) vs)) in Hin.
    rewrite keys_map_override in Hin. unfold keys in Hin. now rewrite Hk.
  - unfold keys in *. rewrite map_app in *. fold (keys (map (override parsed) vs)).
    now rewrite keys_map_override.
Qed.

Lemma filled_same_head (cls : store) (fields : list (string * field)) (extra : extra_policy)
      (items fs vs : dict) :
  stable_ty (TModel fields extra) = true ->
  entries_filled cls (TModel fields extra) items fs vs ->
  same_head items (fs ++ missing_defaults fields vs).
Proof.
  intros Hst He. destruct (entries_filled_keys _ _ _ _ _ He) as [Hkf _]. split.
  - unfold id_keys, keys. rewrite map_app, List.filter_app.
    fold (keys fs). fold (keys (missing_defaults fields vs)).
    rewrite (missing_defaults_no_sigil fields extra vs Hst), app_nil_r. now rewrite Hkf.
  - intros key x Hget Hx.
    destruct (entries_filled_get _ _ _ _ _ key x He Hget) as (fv & vv & Hent & Hfs & _).
    rewrite (fill_entry_scalar cls _ key x Hx) in Hent. injection Hent as <- <-.
    rewrite dict_get_app. now rewrite Hfs.
Qed.

Lemma get_constructor_again (cls : store) (items f : dict) (func : constructor) :
  same_head items f ->
  get_constructor cls items = Ok func ->
  get_constructor cls f = Ok func.
Proof.
  intros [Hid Hkeep] Hg.
  destruct (get_constructor_inv cls items func Hg) as (key & fname & Hk & Hv & Hget).
  unfold get_constructor. rewrite Hid, Hk. unfold getitem.
  rewrite (Hkeep key (VStr fname) Hv eq_refl). cbn [bind]. exact Hget.
Qed.

Lemma make_promise_schema_again (cls : store) (items f : dict) (ps : ty) :
  same_head items f ->
  make_promise_schema cls items = Ok ps ->
  make_promise_schema cls f = Ok ps.
Proof.
  intros Hh. unfold make_promise_schema.
  destruct (get_constructor cls items) as [func|e] eqn:Hg; [|discriminate].
  rewrite (get_constructor_again cls items f func Hh Hg). cbn [bind].
  destruct Hh as [-> _]. auto.
Qed.

Lemma get_return_type_again (cls : store) (items f : dict) (t : string) :
  same_head items f ->
  get_return_type cls items = Ok t ->
  get_return_type cls f = Ok t.
Proof.
  intros Hh. unfold get_return_type.
  destruct (get_constructor cls items) as [func|e] eqn:Hg; [|discriminate].
  now rewrite (get_constructor_again cls items f func Hh Hg).
Qed.

(** The filled tree of a successful [fill_and_validate], with its head. *)
Lemma fill_and_validate_head (cls : store) (items : dict) (schema : ty) (f v : dict) :
  List.NoDup (keys items) -> stable_ty schema = true ->
  fill_and_validate cls (VDict items) schema = Ok (f, v) ->
  same_head items f.
Proof.
  intros Hi Hst Hrun.
  destruct (fill_and_validate_model cls items schema f v Hrun) as (fields & extra & ->).
  pose proof Hst as Hst'. apply check_ty_inv in Hst' as [Hf _].
  apply fill_and_validate_closed in Hrun
    as (fs & vs & parsed & He & _ & _ & _ & ->); [|exact Hi|exact Hf].
  now apply (filled_same_head cls fields extra items fs vs).
Qed.

Lemma is_promise_same_head (items f : dict) :
  same_head items f -> is_promise (VDict f) = is_promise (VDict items).
Proof. intros [Hid _]. unfold is_promise. now rewrite Hid. Qed.

(** The filled tree of a promise keeps its head: the defaults appended are
    those of parameters, whose names carry no sigil. *)
Lemma promise_filled_same_head (cls : store) (key : string) (func : constructor)
      (promise fs vs : dict) :
  wf_names func = true ->
  In key (keys promise) ->
  entries_filled cls (TModel (promise_fields key func) Forbid) promise fs vs ->
  same_head promise (fs ++ missing_defaults (promise_fields key func) vs).
Proof.
  intros Hwf Hkey He. destruct (entries_filled_keys _ _ _ _ _ He) as [Hkf Hkv].
  apply wf_names_inv in Hwf as [_ Hnames]. rewrite List.Forall_forall in Hnames.
  split.
  - unfold id_keys. rewrite keys_app, List.filter_app, Hkf.
    assert (List.filter startswith_at
              (keys (missing_defaults (promise_fields key func) vs)) = []) as ->;
      [|now rewrite app_nil_r].
    assert (forall kv, In kv (missing_defaults (promise_fields key func) vs) ->
                       startswith_at (fst kv) = false) as H.
    { intros kv Hin. apply missing_defaults_In in Hin as (Habs & f & Hf & _).
      destruct Hf as [Heq|Hf].
      - injection Heq as Heq _. exfalso. apply Habs. rewrite Hkv, <- Heq. exact Hkey.
      - apply in_map_iff in Hf as (p & Hp & Hin). injection Hp as Hp _.
        rewrite <- Hp. now apply Hnames, in_map. }
    induction (missing_defaults (promise_fields key func) vs) as [|kv l IH];
      [reflexivity|].
    simpl. rewrite (H kv) by now left. apply IH. intros kv' Hin. apply H. now right.
  - intros k x Hget Hx.
    destruct (entries_filled_get _ _ _ _ _ k x He Hget) as (fv & vv & Hent & Hfs & _).
    rewrite (fill_entry_scalar cls _ k x Hx) in Hent. injection Hent as <- <-.
    rewrite dict_get_app. now rewrite Hfs.
Qed.

(** C8, as the code has it. Over a store and a schema whose defaults can
    be supplied in their place (none is a mapping, each is returned
    unchanged by the validator of its field, and no defaulted field carries
    the sigil), filling the filled tree again succeeds and changes nothing:
    the second pass returns the same [filled] and the same [validation]. *)
Theorem fill_and_validate_idempotent (cls : store) (config : value) (schema : ty)
        (filled validation : dict) :
  stable_store cls = true ->
  stable_ty schema = true ->
  wf_config config = true ->
  fill_and_validate cls config schema = Ok (filled, validation) ->
  fill_and_validate cls (VDict filled) schema = Ok (filled, validation).
Proof.
  intros Hs. revert schema filled validation.
  induction config as [b|z|s|items IH|c a _] using value_nested_ind;
    intros schema f v Hst Hw Hrun; try discriminate.
  destruct (fill_and_validate_model cls items schema f v Hrun) as (fields & extra & ->).
  apply wf_config_inv in Hw as [Hi Hchildren].
  pose proof Hst as Hst'. apply check_ty_inv in Hst' as [Hf _].
  apply fill_and_validate_closed in Hrun
    as (fs & vs & parsed & He & Hp & Hnd & -> & ->); [|exact Hi|exact Hf].
  destruct (entries_filled_keys _ _ _ _ _ He) as [Hkf Hkv].
  rewrite List.Forall_forall in IH, Hchildren.
  set (md := missing_defaults fields vs).
  assert (entries_filled cls (TModel fields extra) (fs ++ md) (fs ++ md) (vs ++ md)) as He2.
  { apply entries_filled_app.
    - apply (entries_filled_again cls _ items fs vs He).
      intros key value fv vv Hin Hent.
      destruct value as [b|z|s|d|c a];
        try (rewrite fill_entry_scalar in Hent by reflexivity;
             injection Hent as <- <-; now apply fill_entry_scalar).
      pose proof (Hchildren _ Hin) as Hwd. simpl snd in Hwd.
      pose proof Hwd as Hwd'. apply wf_config_inv in Hwd' as [Hd _].
      destruct (is_promise (VDict d)) eqn:Hprom.
      + apply fill_entry_promise in Hent as (ps & pf & pv & t & Hps & Hrun & Ht & -> & ->);
          [|exact Hprom].
        assert (stable_ty ps = true) as Hps_st
          by (now apply (promise_schema_wf stable_field cls d ps)).
        pose proof (fill_and_validate_head cls d ps pf pv Hd Hps_st Hrun) as Hh.
        unfold fill_entry. rewrite (is_promise_same_head d pf Hh), Hprom.
        rewrite (make_promise_schema_again cls d pf ps Hh Hps). cbn [bind].
        rewrite (IH _ Hin ps pf pv Hps_st Hwd Hrun). cbn [bind].
        now rewrite (get_return_type_again cls d pf t Hh Ht).
      + apply fill_entry_mapping in Hent as (fld & cf & cv & Hfld & Hrun & -> & ->);
          [|exact Hprom].
        pose proof (fields_getitem_inv _ _ _ _ Hfld) as Hget.
        destruct (check_ty_field stable_field fields extra key fld Hst Hget) as [_ Hfld_st].
        pose proof (fill_and_validate_head cls d (type_ fld) cf cv Hd Hfld_st Hrun) as Hh.
        unfold fill_entry. rewrite (is_promise_same_head d cf Hh), Hprom.
        rewrite Hfld. cbn [bind].
        now rewrite (IH _ Hin (type_ fld) cf cv Hfld_st Hwd Hrun).
    - apply entries_filled_scalars. intros kv Hin.
      now apply (missing_defaults_stable fields extra vs kv Hst) in Hin as (_ & _ & ? & _). }
  rewrite fill_and_validate_unfold.
  rewrite (fill_items_complete cls _ (fs ++ md) (fs ++ md) (vs ++ md) [] [] He2).
  - cbn [bind]. simpl app. apply fill_defaults_again; try assumption.
    + now rewrite Hkv.
    + now rewrite Hkf, Hkv.
  - simpl. unfold keys. rewrite map_app. apply NoDup_app_In.
    fold (keys fs). rewrite Hkf. split; [exact Hi|]. split.
    + intros k Hin Hm. apply in_map_iff in Hm as (kv & <- & Hm).
      apply missing_defaults_In in Hm as [Habs _]. apply Habs. now rewrite Hkv.
    + now apply missing_defaults_NoDup.
  - reflexivity.
Qed.

(** The promise [{"@layers": "Softmax.v0"}] under [model] is filled with
    [nO = 2]; filling the result again returns it unchanged. *)
Lemma fill_and_validate_idempotent_witness :
  fill_and_validate Scenario.registry
    (VDict [("model", VDict [("@layers", VStr "Softmax.v0"); ("nO", VInt 2)])])
    Scenario.top_schema
  = Ok ([("model", VDict [("@layers", VStr "Softmax.v0"); ("nO", VInt 2)])],
        [("model", VObj "Model" [])]).
Proof.
  apply (fill_and_validate_idempotent Scenario.registry
           (VDict [("model", VDict [("@layers", VStr "Softmax.v0")])])
           Scenario.top_schema).
  - vm_compute. reflexivity.
  - reflexivity.
  - reflexivity.
  - vm_compute. reflexivity.
Defined.

(** ** No field left out *)

Lemma fully_filled_unfold (cls : store) (schema : ty) (items : dict) :
  fully_filled cls schema (VDict items)
  = match schema with
    | TModel fields _ => forallb (fun nf => dict_contains items (fst nf)) fields
    | _ => true
    end &&
    forallb (fun kw =>
               match snd kw with
               | VDict child =>
                   if is_promise (snd kw) then
                     match make_promise_schema cls child with
                     | Ok promise_schema => fully_filled cls promise_schema (snd kw)
                     | Raise _ => true
                     end
                   else
                     match fields_getitem schema (fst kw) with
                     | Ok field => fully_filled cls (type_ field) (snd kw)
                     | Raise _ => true
                     end
               | _ => true
               end) items.
Proof.
  cbv beta iota fix delta [fully_filled]. fold fully_filled. f_equal.
  induction items as [|[key w] rest IH]; [reflexivity|].
  cbn [forallb fst snd]. rewrite <- IH. reflexivity.
Qed.

Lemma entries_filled_In (cls : store) (schema : ty) (items fs vs : dict)
      (k : string) (fv : value) :
  entries_filled cls schema items fs vs ->
  In (k, fv) fs ->
  exists value vv, In (k, value) items /\ fill_entry cls schema k value = Ok (fv, vv).
Proof.
  induction 1 as [|key value fv' vv rest fs vs He _ IH]; intros Hin; [destruct Hin|].
  destruct Hin as [Heq|Hin].
  - injection Heq as -> ->. exists value, vv. split; [now left|exact He].
  - destruct (IH Hin) as (value' & vv' & Hin' & He'). exists value', vv'.
    split; [now right|exact He'].
Qed.

Lemma missing_defaults_plain (fields : list (string * field)) (extra : extra_policy)
      (obj : dict) (kv : string * value) :
  plain_ty (TModel fields extra) = true ->
  In kv (missing_defaults fields obj) ->
  startswith_at (fst kv) = false /\ is_mapping (snd kv) = false.
Proof.
  intros Hst Hin. apply check_ty_inv in Hst as [_ Hall].
  apply missing_defaults_In in Hin as (_ & f & Hf & Hd).
  rewrite List.Forall_forall in Hall. destruct (Hall _ Hf) as [HP _]. simpl in HP.
  unfold plain_default in HP. rewrite Hd in HP.
  apply andb_true_iff in HP as [H1 H2]. now apply negb_true_iff in H1, H2.
Qed.

(** Appending entries without the sigil to what the loop stored keeps the
    head of the node. *)
Lemma appended_same_head (cls : store) (schema : ty) (items fs vs md : dict) :
  (forall kv, In kv md -> startswith_at (fst kv) = false) ->
  entries_filled cls schema items fs vs ->
  same_head items (fs ++ md).
Proof.
  intros Hmd He. destruct (entries_filled_keys _ _ _ _ _ He) as [Hkf _]. split.
  - unfold id_keys. rewrite keys_app, List.filter_app, Hkf.
    assert (List.filter startswith_at (keys md) = []) as ->; [|now rewrite app_nil_r].
    induction md as [|kv l IH]; [reflexivity|].
    simpl. rewrite (Hmd kv) by now left. apply IH. intros kv' Hin. apply Hmd. now right.
  - intros k x Hget Hx.
    destruct (entries_filled_get _ _ _ _ _ k x He Hget) as (fv & vv & Hent & Hfs & _).
    rewrite (fill_entry_scalar cls _ k x Hx) in Hent. injection Hent as <- <-.
    rewrite dict_get_app. now rewrite Hfs.
Qed.

(** When no default is a mapping, the tree that a successful
    [fill_and_validate] returns has no omitted field anywhere. *)
Lemma fill_and_validate_fully_filled (cls : store) :
  plain_store cls = true ->
  forall config schema f v,
    wf_config config = true -> plain_ty schema = true ->
    fill_and_validate cls config schema = Ok (f, v) ->
    fully_filled cls schema (VDict f) = true.
Proof.
  intros Hs config.
  induction config as [b|z|s|items IH|c a _] using value_nested_ind;
    intros schema f v Hw Ht Hrun; try discriminate.
  destruct (fill_and_validate_model cls items schema f v Hrun) as (fields & extra & ->).
  apply wf_config_inv in Hw as [Hi Hchildren].
  pose proof Ht as Ht'. apply check_ty_inv in Ht' as [Hf _].
  apply fill_and_validate_closed in Hrun
    as (fs & vs & parsed & He & Hp & Hnd & -> & ->); [|exact Hi|exact Hf].
  apply parse_obj_spec in Hp as (values & Hvals & _ & ->).
  destruct (entries_filled_keys _ _ _ _ _ He) as [Hkf Hkv].
  rewrite List.Forall_forall in IH, Hchildren.
  rewrite fully_filled_unfold. apply andb_true_iff. split.
  - apply forallb_forall. intros [n fld] Hin. cbn [fst].
    apply (In_dict_get _ _ _ Hf) in Hin.
    apply dict_contains_true. rewrite keys_app. apply in_or_app.
    destruct (dict_get vs n) as [x|] eqn:Hget.
    + left. rewrite Hkf, <- Hkv. apply dict_get_In in Hget. now apply (in_map fst) in Hget.
    + right. destruct (field_parsed_get _ _ _ n fld Hvals Hin) as (x & Hval & _).
      unfold field_value in Hval. simpl in Hval. rewrite Hget in Hval.
      pose proof (dict_get_missing_defaults fields vs n fld Hf Hget Hin) as Hm.
      rewrite Hval in Hm. apply dict_get_In in Hm. now apply (in_map fst) in Hm.
  - rewrite forallb_app. apply andb_true_iff. split.
    + apply forallb_forall. intros [k fv] Hin. cbn [fst snd].
      destruct (entries_filled_In cls (TModel fields extra) items fs vs k fv He Hin)
        as (value & vv & Hin' & Hent).
      pose proof (Hchildren _ Hin') as Hwd. cbn [snd] in Hwd.
      destruct value as [b|z|s|d|c a];
        try (rewrite fill_entry_scalar in Hent by reflexivity;
             injection Hent as <- <-; reflexivity).
      pose proof Hwd as Hwd'. apply wf_config_inv in Hwd' as [Hd _].
      destruct (is_promise (VDict d)) eqn:Hprom.
      * apply fill_entry_promise in Hent as (ps & pf & pv & t & Hps & Hrun & _ & -> & _);
          [|exact Hprom].
        assert (plain_ty ps = true) as Hps_plain
          by (now apply (promise_schema_wf plain_default cls d ps)).
        destruct (make_promise_schema_inv plain_default cls d ps Hs Hps)
          as (skey & fname & func & Hid & Hv & Hg & Hc & Heq).
        unfold check_constructor in Hc. apply andb_true_iff in Hc as [Hwf _].
        assert (startswith_at skey = true) as Hskey
          by (apply (id_keys_sigil d); rewrite Hid; now left).
        pose proof Hrun as Hrun'. rewrite Heq in Hrun'.
        apply fill_and_validate_closed in Hrun'
          as (pfs & pvs & pparsed & Hpe & _ & _ & _ & Hpf);
          [|exact Hd|now apply promise_fields_sigil].
        assert (same_head d pf) as Hh.
        { rewrite Hpf.
          apply (promise_filled_same_head cls skey func d pfs pvs Hwf); [|exact Hpe].
          apply dict_get_In in Hv. now apply (in_map fst) in Hv. }
        rewrite (is_promise_same_head d pf Hh), Hprom.
        rewrite (make_promise_schema_again cls d pf ps Hh Hps).
        exact (IH _ Hin' ps pf pv Hwd Hps_plain Hrun).
      * apply fill_entry_mapping in Hent as (fld & cf & cv & Hfld & Hrun & -> & _);
          [|exact Hprom].
        pose proof (fields_getitem_inv _ _ _ _ Hfld) as Hget.
        destruct (check_ty_field plain_default fields extra k fld Ht Hget) as [_ Hfld_plain].
        destruct (fill_and_validate_model cls d (type_ fld) cf cv Hrun)
          as (cfields & cextra & Hty).
        pose proof Hrun as Hrun'. rewrite Hty in Hrun', Hfld_plain.
        pose proof Hfld_plain as Hfld_plain'. apply check_ty_inv in Hfld_plain' as [Hcf _].
        apply fill_and_validate_closed in Hrun'
          as (cfs & cvs & cparsed & Hce & _ & _ & _ & Hcf_eq); [|exact Hd|exact Hcf].
        assert (same_head d cf) as Hh.
        { rewrite Hcf_eq.
          apply (appended_same_head cls (TModel cfields cextra) d cfs cvs); [|exact Hce].
          intros kv Hkv'. now apply (missing_defaults_plain cfields cextra cvs kv). }
        rewrite (is_promise_same_head d cf Hh), Hprom, Hfld.
        rewrite <- Hty in Hfld_plain.
        exact (IH _ Hin' (type_ fld) cf cv Hwd Hfld_plain Hrun).
    + apply forallb_forall. intros [k d] Hin. cbn [fst snd].
      apply (missing_defaults_plain fields extra vs (k, d) Ht) in Hin as [_ Hd].
      destruct d; try reflexivity. discriminate.
Qed.

(** A default that is a promise is written into [filled] as declared:
    the schema of [Softmax.v0] declares [nO], which the promise under
    [activation] does not have. *)
Lemma default_left_unfilled :
  fill_and_validate Scenario.registry (VDict []) (TModel Scenario.promise_default Ignore)
  = Ok ([("activation", VDict [("@layers", VStr "Softmax.v0")])],
        [("activation", VDict [("@layers", VStr "Softmax.v0")])]) /\
  make_promise_schema Scenario.registry [("@layers", VStr "Softmax.v0")]
  = Ok (TModel [("@layers", Field TStr None); ("nO", Field TInt (Some (VInt 2)))] Forbid) /\
  dict_get [("@layers", VStr "Softmax.v0")] "nO" = None /\
  fully_filled Scenario.registry (TModel Scenario.promise_default Ignore)
    (VDict [("activation", VDict [("@layers", VStr "Softmax.v0")])]) = false.
Proof. vm_compute. repeat split. Qed.

(** C7, as the code has it. Over a store of functions with well-formed
    names: a promise that supplies the sigil key only, for a function whose
    signature can be read, with every parameter annotated and defaulted, is
    filled with the sigil key followed by exactly the declared defaults, one
    for each parameter; and whenever [fill_and_validate] returns, no
    declared field is omitted at any node of the input as it stands in
    [filled]: a field that the input leaves out is there with its default.
    The defaults themselves are written as declared, so the tree has no
    omitted field anywhere when no declared default is a mapping. *)
Theorem filled_has_every_default (cls : store) :
  wf_store cls = true ->
  (forall key fname func,
     startswith_at key = true ->
     get cls (tail key) (VStr fname) = Ok func ->
     wf_signature func = true ->
     forallb has_default (parameters func) = true ->
     exists schema,
       make_promise_schema cls [(key, VStr fname)] = Ok schema /\
       fill_and_validate cls (VDict [(key, VStr fname)]) schema
       = Ok ((key, VStr fname) :: declared_defaults func,
             (key, VStr fname) :: declared_defaults func) /\
       keys (declared_defaults func) = map name (parameters func)) /\
  (forall config schema filled validation,
     wf_config config = true -> wf_ty schema = true ->
     fill_and_validate cls config schema = Ok (filled, validation) ->
     no_omitted cls schema config filled) /\
  (forall config schema filled validation,
     plain_store cls = true -> plain_ty schema = true ->
     wf_config config = true ->
     fill_and_validate cls config schema = Ok (filled, validation) ->
     fully_filled cls schema (VDict filled) = true).
Proof.
  intros Hs. split; [|split].
  - intros key fname func Hkey Hget Hwf Hall.
    exists (TModel (promise_fields key func) Forbid).
    assert (id_keys [(key, VStr fname)] = [key]) as Hid
      by (unfold id_keys; simpl; now rewrite Hkey).
    assert (get_constructor cls [(key, VStr fname)] = Ok func) as Hg.
    { unfold get_constructor. rewrite Hid. unfold getitem. simpl.
      rewrite String.eqb_refl. cbn [bind]. exact Hget. }
    split; [now apply make_promise_schema_eq|].
    apply fill_and_validate_defaults_only; [exact Hkey| |exact Hall].
    now apply wf_signature_names.
  - intros config schema filled validation. now apply fill_and_validate_no_omitted.
  - intros config schema filled validation Hplain Hty Hw Hrun.
    exact (fill_and_validate_fully_filled cls Hplain config schema filled validation
             Hw Hty Hrun).
Qed.

(** [{"@layers": "Softmax.v0"}] is filled with [nO = 2], the default that
    [Softmax.v0] declares. *)
Lemma filled_has_every_default_witness :
  exists schema,
    make_promise_schema Scenario.registry [("@layers", VStr "Softmax.v0")] = Ok schema /\
    fill_and_validate Scenario.registry (VDict [("@layers", VStr "Softmax.v0")]) schema
    = Ok ([("@layers", VStr "Softmax.v0"); ("nO", VInt 2)],
          [("@layers", VStr "Softmax.v0"); ("nO", VInt 2)]) /\
    no_omitted Scenario.registry schema (VDict [("@layers", VStr "Softmax.v0")])
      [("@layers", VStr "Softmax.v0"); ("nO", VInt 2)] /\
    fully_filled Scenario.registry schema
      (VDict [("@layers", VStr "Softmax.v0"); ("nO", VInt 2)]) = true.
Proof.
  assert (wf_store Scenario.registry = true) as Hs by (vm_compute; reflexivity).
  destruct (filled_has_every_default Scenario.registry Hs) as (Hdefaults & Hall & Hfull).
  assert (get Scenario.registry (tail "@layers") (VStr "Softmax.v0") = Ok Scenario.Softmax)
    as Hget by (vm_compute; reflexivity).
  destruct (Hdefaults "@layers" "Softmax.v0" Scenario.Softmax eq_refl Hget eq_refl eq_refl)
    as (schema & Hps & Hrun & _).
  assert (schema = TModel (promise_fields "@layers" Scenario.Softmax) Forbid) as Hschema
    by (vm_compute in Hps; injection Hps as <-; reflexivity).
  exists schema. split; [exact Hps|]. split; [exact Hrun|]. split.
  - apply (Hall (VDict [("@layers", VStr "Softmax.v0")]) schema
                (("@layers", VStr "Softmax.v0") :: declared_defaults Scenario.Softmax)
                (("@layers", VStr "Softmax.v0") :: declared_defaults Scenario.Softmax)).
    + reflexivity.
    + rewrite Hschema. reflexivity.
    + exact Hrun.
  - apply (Hfull (VDict [("@layers", VStr "Softmax.v0")]) schema
                 (("@layers", VStr "Softmax.v0") :: declared_defaults Scenario.Softmax)
                 (("@layers", VStr "Softmax.v0") :: declared_defaults Scenario.Softmax)).
    + vm_compute. reflexivity.
    + rewrite Hschema. reflexivity.
    + reflexivity.
    + exact Hrun.
Defined.

(** * Further properties of the registry *)

(** ** Creating registries and looking up in them *)

(** X1. [create] refuses every name that the class already has as an
    attribute, be it a registry, a method or anything else; on a new name it
    adds the registry and nothing else: lookups under the new name are
    lookups in the new registry, lookups under every other name are as
    before, and a second [create] of the same name is refused. *)
Theorem create_then_get (cls : store) (registry_name : string) (reg : catalogue) :
  (forall old, cls !! registry_name = Some old ->
     create cls registry_name reg = Raise (ValueError (Already_exists registry_name))) /\
  (cls !! registry_name = None ->
     exists cls',
       create cls registry_name reg = Ok cls' /\
       (forall func_name,
          get cls' registry_name func_name = catalogue_get registry_name reg func_name) /\
       (forall other func_name, other <> registry_name ->
          get cls' other func_name = get cls other func_name) /\
       (forall reg', create cls' registry_name reg'
                     = Raise (ValueError (Already_exists registry_name)))).
Proof.
  unfold create. split.
  - intros old ->. reflexivity.
  - intros ->. exists (<[registry_name := Registry reg]> cls). split; [reflexivity|].
    split; [|split].
    + intros func_name. unfold get. rewrite lookup_insert_eq. cbn [attribute_get].
      destruct (catalogue_get registry_name reg func_name); reflexivity.
    + intros other func_name Hne. unfold get. now rewrite lookup_insert_ne.
    + intros reg'. now rewrite lookup_insert_eq.
Qed.

(** [layers] is taken, and so is [get], the name of a method; [losses] is
    free. *)
Lemma create_then_get_witness :
  create Scenario.registry "layers" ∅ = Raise (ValueError (Already_exists "layers")) /\
  create Scenario.registry "get" ∅ = Raise (ValueError (Already_exists "get")) /\
  exists cls',
    create Scenario.registry "losses" ∅ = Ok cls' /\
    get cls' "losses" (VStr "Embed.v0") = Raise (RegistryError (VStr "Embed.v0") "losses") /\
    get cls' "layers" (VStr "Embed.v0") = Ok Scenario.Embed.
Proof.
  destruct (create_then_get Scenario.registry "layers" ∅) as [Hold _].
  destruct (create_then_get Scenario.registry "get" ∅) as [Hmethod _].
  destruct (create_then_get Scenario.registry "losses" ∅) as [_ Hnew].
  split; [|split].
  - apply (Hold (Registry Scenario.layers)). vm_compute. reflexivity.
  - apply (Hmethod Plain). vm_compute. reflexivity.
  - destruct Hnew as (cls' & Hc & Hget & Hframe & _); [vm_compute; reflexivity|].
    exists cls'. split; [exact Hc|]. split.
    + rewrite Hget. reflexivity.
    + rewrite Hframe by discriminate. vm_compute. reflexivity.
Defined.

(** ** Looking up the constructor of a node *)

Lemma id_keys_In (obj : dict) (key : string) :
  In key (id_keys obj) -> exists value, dict_get obj key = Some value.
Proof.
  unfold id_keys. intros H. apply filter_In in H as [Hin _].
  destruct (dict_get obj key) as [v|] eqn:E; [eauto|].
  apply dict_get_None in E. contradiction.
Qed.

(** X2. [get_constructor] raises its bare [ValueError] exactly on the
    mappings that [is_promise] rejects. On a promise it reads the value
    under the one sigil key, which is there, so no [KeyError], and its
    outcome is that of [get] in the registry named by the key without its
    first character. *)
Theorem get_constructor_of_promise (cls : store) (obj : dict) :
  (is_promise (VDict obj) = false <-> get_constructor cls obj = Raise (ValueError Bare)) /\
  (is_promise (VDict obj) = true ->
     exists key value,
       id_keys obj = [key] /\ startswith_at key = true /\
       dict_get obj key = Some value /\
       get_constructor cls obj = get cls (tail key) value).
Proof.
  assert (is_promise (VDict obj) = true ->
          exists key value,
            id_keys obj = [key] /\ startswith_at key = true /\
            dict_get obj key = Some value /\
            get_constructor cls obj = get cls (tail key) value) as Hprom.
  { unfold is_promise, get_constructor. intros H. apply Nat.eqb_eq in H.
    destruct (id_keys obj) as [|key [|? ?]] eqn:Hid; try discriminate.
    destruct (id_keys_In obj key) as [value Hv]; [rewrite Hid; now left|].
    exists key, value. repeat split; [|exact Hv|].
    - apply (id_keys_sigil obj). rewrite Hid. now left.
    - unfold getitem. now rewrite Hv. }
  split; [|exact Hprom]. split.
  - unfold is_promise, get_constructor. intros H. apply Nat.eqb_neq in H.
    destruct (id_keys obj) as [|key [|? ?]]; try reflexivity. now contradiction H.
  - intros Hraise. destruct (is_promise (VDict obj)) eqn:E; [|reflexivity].
    destruct (Hprom eq_refl) as (key & value & _ & _ & _ & Hget).
    rewrite Hget in Hraise. unfold get in Hraise.
    destruct (cls !! tail key) as [[reg|members|]|]; try discriminate.
    + cbn [attribute_get] in Hraise. unfold catalogue_get in Hraise.
      destruct value as [| |s| |]; try discriminate.
      destruct (reg !! s); discriminate.
    + cbn [attribute_get] in Hraise.
      destruct value as [| |s| |]; try discriminate.
      cbn [bind] in Hraise. destruct (members !! s); discriminate.
Qed.

Lemma get_constructor_of_promise_witness :
  get_constructor Scenario.registry
    [("@layers", VStr "A.v0"); ("@optimizers", VStr "B.v0")]
  = Raise (ValueError Bare) /\
  exists key value,
    id_keys [("nO", VInt 2); ("@layers", VStr "Softmax.v0")] = [key] /\
    startswith_at key = true /\
    dict_get [("nO", VInt 2); ("@layers", VStr "Softmax.v0")] key = Some value /\
    get_constructor Scenario.registry [("nO", VInt 2); ("@layers", VStr "Softmax.v0")]
    = get Scenario.registry (tail key) value.
Proof.
  split.
  - apply (proj1 (get_constructor_of_promise Scenario.registry
                    [("@layers", VStr "A.v0"); ("@optimizers", VStr "B.v0")])).
    reflexivity.
  - apply (proj2 (get_constructor_of_promise Scenario.registry
                    [("nO", VInt 2); ("@layers", VStr "Softmax.v0")])).
    reflexivity.
Defined.

(** X3. How the schema synthesiser and [get_return_type] fail.  A failed
    lookup of the constructor is their failure, as it is.  Once the
    constructor is found, the index [id_keys[0]] is in range, and what can
    still fail is the reading of the signature, whose exception both
    raise, and, for the synthesiser alone, the making of the model, which
    raises when a parameter has no annotation; otherwise
    [get_return_type] returns the class after the arrow and the
    synthesiser the schema of the signature. *)
Theorem schema_failures (cls : store) (obj : dict) :
  (forall e, get_constructor cls obj = Raise e ->
     make_promise_schema cls obj = Raise e /\ get_return_type cls obj = Raise e) /\
  (forall func, get_constructor cls obj = Ok func ->
     (forall e, signature_error func = Some e ->
        make_promise_schema cls obj = Raise e /\ get_return_type cls obj = Raise e) /\
     (signature_error func = None ->
        get_return_type cls obj = Ok (return_annotation func) /\
        (wf_names func = true ->
         exists key,
           id_keys obj = [key] /\
           make_promise_schema cls obj
           = if forallb annotated (parameters func)
             then Ok (TModel (promise_fields key func) Forbid)
             else Raise RuntimeError))).
Proof.
  split.
  - intros e Hg. unfold make_promise_schema, get_return_type. now rewrite Hg.
  - intros func Hg.
    destruct (get_constructor_inv cls obj func Hg) as (key & fname & Hid & _ & _).
    split.
    + intros e He. unfold make_promise_schema, get_return_type, signature.
      rewrite Hg. cbn [bind]. now rewrite Hid, He.
    + intros He. split.
      * unfold get_return_type, signature. rewrite Hg. cbn [bind]. now rewrite He.
      * intros Hwf. exists key. split; [exact Hid|].
        rewrite (make_promise_schema_closed cls obj key func Hid Hg Hwf). now rewrite He.
Qed.

(** The lookup fails for a name that is not registered; [native_embed]
    has no signature to read; [Scale] has a parameter without annotation. *)
Lemma schema_failures_witness :
  make_promise_schema Failing.registry [("@layers", VStr "DoesNotExist.v0")]
  = Raise (RegistryError (VStr "DoesNotExist.v0") "layers") /\
  get_return_type Failing.registry [("@layers", VStr "Native.v0")]
  = Raise (ValueError (No_signature "native_embed")) /\
  get_return_type Failing.registry [("@layers", VStr "Scale.v0")] = Ok "Model" /\
  make_promise_schema Failing.registry [("@layers", VStr "Scale.v0")]
  = Raise RuntimeError.
Proof.
  destruct (schema_failures Failing.registry [("@layers", VStr "DoesNotExist.v0")])
    as [Hlookup _].
  destruct (schema_failures Failing.registry [("@layers", VStr "Native.v0")])
    as [_ Hnative].
  destruct (schema_failures Failing.registry [("@layers", VStr "Scale.v0")])
    as [_ Hscale].
  split; [|split; [|split]].
  - apply Hlookup. vm_compute. reflexivity.
  - apply (Hnative Failing.Native); [vm_compute; reflexivity|reflexivity].
  - apply (Hscale Failing.Scale); [vm_compute; reflexivity|reflexivity].
  - destruct (Hscale Failing.Scale) as [_ Hread]; [vm_compute; reflexivity|].
    destruct Hread as [_ Hschema]; [reflexivity|].
    destruct Hschema as (key & _ & ->); reflexivity.
Defined.

(** ** Resolution: plain mappings, failures, resolving again *)

Lemma resolved_entries_get (cls : store) (items filled : dict) (key : string) (child : value) :
  Forall2 (resolved_entry cls) items filled ->
  dict_get items key = Some child ->
  exists w, snd (child_run cls child) = Ok w /\ dict_get filled key = Some w.
Proof.
  induction 1 as [|[k x] [k' w] items filled [Hk Hw] _ IH]; simpl; [discriminate|].
  simpl in Hk, Hw. subst k'. destruct (String.eqb k key).
  - intros [= <-]. eauto.
  - exact IH.
Qed.

Lemma not_promise_finish (cls : store) (items filled : dict) :
  is_promise (VDict items) = false ->
  Forall2 (resolved_entry cls) items filled ->
  finish cls filled = ret (VDict filled).
Proof.
  intros Hp Hvs. unfold finish.
  replace (is_promise (VDict filled)) with (is_promise (VDict items)); [now rewrite Hp|].
  unfold is_promise. now rewrite (resolved_id_keys cls items filled Hvs).
Qed.

(** X4. A mapping that is not a promise, whatever it holds below,
    resolves to the mapping of the same keys, in the same order, each with
    the resolution of its value: a scalar as it is, a nested mapping
    resolved; the calls made are those of its entries, in order. *)
Theorem plain_mapping_resolved (cls : store) (items : dict) (tr : list event) (v : value) :
  wf_config (VDict items) = true ->
  is_promise (VDict items) = false ->
  make_from_config cls (VDict items) = (tr, Ok v) ->
  exists filled,
    v = VDict filled /\ keys filled = keys items /\
    tr = children_trace cls items /\
    forall key child, dict_get items key = Some child ->
      exists w, snd (child_run cls child) = Ok w /\ dict_get filled key = Some w /\
                (is_mapping child = false -> w = child).
Proof.
  intros Hw Hp. apply wf_config_inv in Hw as [Hnd _].
  rewrite make_from_config_unfold. unfold bind_run.
  destruct (resolve_items cls items []) as [tr0 [filled|e]] eqn:Hr; [|discriminate].
  apply resolve_items_ok in Hr as (vs & -> & Hvs & ->); [|exact Hnd]. simpl app.
  rewrite (not_promise_finish cls items vs Hp Hvs). unfold ret. intros [= <- <-].
  exists vs. split; [reflexivity|]. split; [now apply (resolved_entries_keys cls)|].
  split; [now rewrite app_nil_r|].
  intros key child Hget.
  destruct (resolved_entries_get cls items vs key child Hvs Hget) as (w & Hw & Hf).
  exists w. repeat split; try assumption.
  intros Hs. destruct child; try discriminate; simpl in Hw; congruence.
Qed.

Lemma plain_mapping_resolved_witness :
  exists filled,
    VDict [("width", VInt 300); ("predict", Scenario.model "softmax" [] [("nO", VInt 2)])]
    = VDict filled /\
    keys filled = ["width"; "predict"] /\
    [Invoke "Softmax" [] [("nO", VInt 2)]]
    = children_trace Scenario.registry
        [("width", VInt 300); ("predict", Scenario.softmax_node)] /\
    forall key child,
      dict_get [("width", VInt 300); ("predict", Scenario.softmax_node)] key = Some child ->
      exists w, snd (child_run Scenario.registry child) = Ok w /\
                dict_get filled key = Some w /\
                (is_mapping child = false -> w = child).
Proof.
  apply (plain_mapping_resolved Scenario.registry
           [("width", VInt 300); ("predict", Scenario.softmax_node)]).
  - reflexivity.
  - reflexivity.
  - vm_compute. reflexivity.
Defined.

Lemma resolve_items_first_failure (cls : store) (pre rest acc : dict)
      (key : string) (child : value) (trc : list event) (e : exn) :
  Forall (fun kv => exists w, snd (child_run cls (snd kv)) = Ok w) pre ->
  child_run cls child = (trc, Raise e) ->
  resolve_items cls (pre ++ (key, child) :: rest) acc
  = (children_trace cls pre ++ trc, Raise e).
Proof.
  intros Hpre Hc. revert acc.
  induction Hpre as [|[k x] pre [w Hw] _ IH]; intros acc.
  - simpl app. rewrite resolve_items_cons, Hc. reflexivity.
  - simpl app. rewrite resolve_items_cons. simpl in Hw.
    unfold children_trace. simpl.
    destruct (child_run cls x) as [trx rx]. simpl in Hw. subst rx.
    unfold bind_run. rewrite IH. unfold children_trace. now rewrite app_assoc.
Qed.

(** X5. Resolution stops at the first entry that fails: the outcome of
    the node is that failure, the calls made are those of the entries before
    it and of the failing entry up to its failure, the entries after it are
    not resolved, and no constructor is looked up for the node. *)
Theorem first_failure_stops (cls : store) (pre rest : dict)
        (key : string) (child : value) (trc : list event) (e : exn) :
  Forall (fun kv => exists w, snd (child_run cls (snd kv)) = Ok w) pre ->
  child_run cls child = (trc, Raise e) ->
  make_from_config cls (VDict (pre ++ (key, child) :: rest))
  = (children_trace cls pre ++ trc, Raise e).
Proof.
  intros Hpre Hc. rewrite make_from_config_unfold.
  now rewrite (resolve_items_first_failure cls pre rest [] key child trc e Hpre Hc).
Qed.

(** [Softmax.v0] is built, the unknown [Missing.v0] fails, and [Embed.v0]
    after it is never called. *)
Lemma first_failure_stops_witness :
  make_from_config Scenario.registry
    (VDict ([("predict", Scenario.softmax_node)]
            ++ ("encode", VDict [("@layers", VStr "Missing.v0")])
            :: [("embed", Scenario.embed_node)]))
  = ([Invoke "Softmax" [] [("nO", VInt 2)]],
     Raise (RegistryError (VStr "Missing.v0") "layers")).
Proof.
  apply (first_failure_stops Scenario.registry [("predict", Scenario.softmax_node)]
           [("embed", Scenario.embed_node)] "encode"
           (VDict [("@layers", VStr "Missing.v0")]) []).
  - constructor; [|constructor]. eexists. vm_compute. reflexivity.
  - vm_compute. reflexivity.
Defined.

(** X6. Once the entries of a promise are resolved, the outcome of the
    node is the outcome of the lookup, of the binder and of the call, in
    that order. A failed lookup or a failed binding is raised without any
    call of the constructor; an exception raised by the constructor is the
    outcome as it is, not wrapped; in each case the calls already made for
    the entries stay made. *)
Theorem promise_outcome (cls : store) (items filled : dict) (tr0 : list event) :
  wf_config (VDict items) = true ->
  is_promise (VDict items) = true ->
  resolve_items cls items [] = (tr0, Ok filled) ->
  tr0 = children_trace cls items /\
  (forall e, get_constructor cls filled = Raise e ->
     make_from_config cls (VDict items) = (tr0, Raise e)) /\
  (forall getter e, get_constructor cls filled = Ok getter ->
     parse_args filled = Raise e ->
     make_from_config cls (VDict items) = (tr0, Raise e)) /\
  (forall getter args kwargs, get_constructor cls filled = Ok getter ->
     parse_args filled = Ok (args, kwargs) ->
     make_from_config cls (VDict items)
     = (tr0 ++ [Invoke (qualname getter) args kwargs], call getter args kwargs)).
Proof.
  intros Hw Hp Hr. apply wf_config_inv in Hw as [Hnd _].
  rewrite make_from_config_unfold, Hr.
  apply resolve_items_ok in Hr as (vs & -> & Hvs & ->); [|exact Hnd]. simpl app.
  assert (is_promise (VDict vs) = true) as Hp'.
  { unfold is_promise in *. now rewrite (resolved_id_keys cls items vs Hvs). }
  split; [reflexivity|].
  assert (bind_run (children_trace cls items, Ok vs) (finish cls)
          = (children_trace cls items ++ fst (finish cls vs), snd (finish cls vs))) as ->
    by (unfold bind_run; now destruct (finish cls vs)).
  unfold finish. rewrite Hp'. split; [|split].
  - intros e ->. unfold lift, bind_run. simpl. now rewrite app_nil_r.
  - intros getter e -> ->. unfold lift, bind_run. simpl. now rewrite app_nil_r.
  - intros getter args kwargs -> ->. unfold lift, bind_run, invoke. simpl.
    reflexivity.
Qed.

(** [Softmax.v0] is called for the entry, then [Broken.v0] raises: its
    exception is the outcome, after both calls. *)
Lemma promise_outcome_witness :
  make_from_config Failing.registry Failing.broken_node
  = ([Invoke "Softmax" [] [("nO", VInt 2)];
      Invoke "Broken" [Scenario.model "softmax" [] [("nO", VInt 2)]] []],
     Raise (Raised "shape mismatch")).
Proof.
  destruct (promise_outcome Failing.registry
              [("@layers", VStr "Broken.v0"); ("0", Scenario.softmax_node)]
              [("@layers", VStr "Broken.v0");
               ("0", Scenario.model "softmax" [] [("nO", VInt 2)])]
              [Invoke "Softmax" [] [("nO", VInt 2)]] eq_refl eq_refl)
    as (_ & _ & _ & Hcall).
  - vm_compute. reflexivity.
  - apply (Hcall Failing.Broken [Scenario.model "softmax" [] [("nO", VInt 2)]] []);
      vm_compute; reflexivity.
Defined.

Lemma wf_config_intro (items : dict) :
  List.NoDup (keys items) -> Forall (fun kv => wf_config (snd kv) = true) items ->
  wf_config (VDict items) = true.
Proof.
  intros Hnd Hall. simpl. apply andb_true_iff. split; [now apply nodup_keys_NoDup|].
  clear Hnd. induction Hall as [|[k w] items Hw _ IH]; [reflexivity|].
  simpl in *. now rewrite Hw, IH.
Qed.

Lemma promise_free_intro (items : dict) :
  is_promise (VDict items) = false ->
  Forall (fun kv => promise_free (snd kv) = true) items ->
  promise_free (VDict items) = true.
Proof.
  intros Hp Hall.
  change (negb (is_promise (VDict items)) &&
    (fix all (d : dict) : bool :=
       match d with [] => true | (_, w) :: d' => promise_free w && all d' end) items = true).
  rewrite Hp. simpl. clear Hp.
  induction Hall as [|[k w] items Hw _ IH]; [reflexivity|].
  simpl in *. now rewrite Hw, IH.
Qed.

Lemma not_mapping_plain (v : value) :
  is_mapping v = false -> wf_config v = true /\ promise_free v = true.
Proof. destruct v; try discriminate; auto. Qed.

(** An entry without promises resolves to itself, without a call. *)
Lemma child_run_promise_free (cls : store) (v : value) :
  wf_config v = true -> promise_free v = true -> child_run cls v = ret v.
Proof.
  induction v as [b|z|s|d IH|c a _] using value_nested_ind;
    intros Hw Hp; try reflexivity.
  apply wf_config_inv in Hw as [Hnd Hw].
  apply promise_free_inv in Hp as [Hnp Hp].
  assert (Forall (fun kv => child_run cls (snd kv) = ret (snd kv)) d) as Hkeep.
  { rewrite List.Forall_forall in *. intros kv Hin. auto. }
  unfold child_run. rewrite make_from_config_unfold.
  rewrite (resolve_items_keep cls d [] Hnd Hkeep), bind_run_ret.
  unfold finish. simpl app. now rewrite Hnp.
Qed.

(** What resolution returns has no promise left, when the registered
    functions build objects. *)
Lemma resolved_is_plain (cls : store) :
  returns_objects cls ->
  forall v tr r,
    wf_config v = true -> child_run cls v = (tr, Ok r) ->
    wf_config r = true /\ promise_free r = true.
Proof.
  intros Hobj v.
  induction v as [b|z|s|items IH|c a _] using value_nested_ind;
    intros tr r Hw Hrun; try (injection Hrun as <- <-; auto).
  apply wf_config_inv in Hw as [Hnd Hw].
  unfold child_run in Hrun. rewrite make_from_config_unfold in Hrun. unfold bind_run in Hrun.
  destruct (resolve_items cls items []) as [tr0 [filled|e]] eqn:Hr; [|discriminate].
  apply resolve_items_ok in Hr as (vs & -> & Hvs & ->); [|exact Hnd]. simpl app in Hrun.
  unfold finish in Hrun. destruct (is_promise (VDict vs)) eqn:Hp.
  - unfold bind_run, lift, invoke in Hrun.
    destruct (get_constructor cls vs) as [getter|e] eqn:Hg; [|discriminate].
    destruct (parse_args vs) as [[args kwargs]|e]; [|discriminate].
    simpl in Hrun. injection Hrun as _ Hcall.
    destruct (get_constructor_inv cls vs getter Hg) as (key & fname & _ & _ & Hget).
    apply not_mapping_plain. exact (Hobj _ _ _ _ _ _ Hget Hcall).
  - unfold ret in Hrun. injection Hrun as _ <-.
    assert (Forall (fun kv => wf_config (snd kv) = true /\ promise_free (snd kv) = true) vs)
      as Hall.
    { clear -IH Hw Hvs. induction Hvs as [|[k x] [k' w] items vs [_ Hres] _ IHvs];
        constructor.
      - inversion IH as [|? ? Hx _]; inversion Hw as [|? ? Hwx _]; subst.
        simpl in *. destruct (child_run cls x) as [trx rx] eqn:Hc. simpl in Hres. subst rx.
        exact (Hx trx w Hwx eq_refl).
      - inversion IH; inversion Hw; subst. auto. }
    split.
    + apply wf_config_intro.
      * now rewrite (resolved_entries_keys cls items vs Hvs).
      * eapply List.Forall_impl; [|exact Hall]. now intros kv [? _].
    + apply promise_free_intro; [exact Hp|].
      eapply List.Forall_impl; [|exact Hall]. now intros kv [_ ?].
Qed.

(** X7. Resolving what resolution returned changes nothing: when no
    registered function returns a mapping, the mapping that
    [make_from_config] returns resolves to itself, without any call. *)
Theorem resolved_tree_is_fixed (cls : store) (items filled : dict) (tr : list event) :
  returns_objects cls ->
  wf_config (VDict items) = true ->
  make_from_config cls (VDict items) = (tr, Ok (VDict filled)) ->
  make_from_config cls (VDict filled) = ([], Ok (VDict filled)).
Proof.
  intros Hobj Hw Hrun.
  destruct (resolved_is_plain cls Hobj (VDict items) tr (VDict filled) Hw Hrun) as [Hw' Hp'].
  exact (child_run_promise_free cls (VDict filled) Hw' Hp').
Qed.

Lemma build_returns_object (kind : string) (params : list parameter)
      (args : list value) (kwargs : dict) (v : value) :
  (let* bound := bind_arguments params args kwargs in Scenario.build kind bound) = Ok v ->
  is_mapping v = false.
Proof.
  destruct (bind_arguments params args kwargs) as [bound|e]; [|discriminate].
  cbn [bind]. unfold Scenario.build, Scenario.model. now intros [= <-].
Qed.

Lemma scenario_returns_objects : returns_objects Scenario.registry.
Proof.
  intros r n func args kwargs v Hget Hcall.
  apply get_inv in Hget as (a & fname & Hr & _ & Hin).
  assert (a = Registry ∅ \/ a = Registry Scenario.layers \/ a = Plain) as Ha.
  { unfold Scenario.registry, Scenario.class_with in Hr.
    apply lookup_insert_Some in Hr as [[_ <-]|[_ Hr]]; [now left|].
    apply lookup_insert_Some in Hr as [[_ <-]|[_ Hr]]; [now left|].
    apply lookup_insert_Some in Hr as [[_ <-]|[_ Hr]]; [right; now left|].
    right. right. apply elem_of_list_to_map_2 in Hr. rewrite list_elem_of_In in Hr.
    apply in_map_iff in Hr as (m & Heq & _). now injection Heq as _ <-. }
  destruct Ha as [-> | [-> | ->]]; cbn [members_of] in Hin;
    [rewrite map_to_list_empty in Hin; destruct Hin| |destruct Hin].
  rewrite <- list_elem_of_In, elem_of_map_to_list in Hin. unfold Scenario.layers in Hin.
  apply lookup_insert_Some in Hin as [[_ <-]|[_ Hin]];
    [exact (build_returns_object _ _ _ _ _ Hcall)|].
  apply lookup_insert_Some in Hin as [[_ <-]|[_ Hin]];
    [exact (build_returns_object _ _ _ _ _ Hcall)|].
  apply lookup_insert_Some in Hin as [[_ <-]|[_ Hin]];
    [exact (build_returns_object _ _ _ _ _ Hcall)|].
  rewrite lookup_empty in Hin. discriminate.
Qed.

Lemma resolved_tree_is_fixed_witness :
  make_from_config Scenario.registry
    (VDict [("width", VInt 300); ("predict", Scenario.model "softmax" [] [("nO", VInt 2)])])
  = ([], Ok (VDict [("width", VInt 300);
                    ("predict", Scenario.model "softmax" [] [("nO", VInt 2)])])).
Proof.
  apply (resolved_tree_is_fixed Scenario.registry
           [("width", VInt 300); ("predict", Scenario.softmax_node)] _
           [Invoke "Softmax" [] [("nO", VInt 2)]]).
  - exact scenario_returns_objects.
  - reflexivity.
  - vm_compute. reflexivity.
Defined.

(** * Further properties of the fill-and-validate engine *)

Lemma dict_contains_keys (d d' : dict) (k : string) :
  keys d = keys d' -> dict_contains d k = dict_contains d' k.
Proof.
  intros Hk. destruct (dict_contains d' k) eqn:E.
  - apply dict_contains_true. rewrite Hk. now apply dict_contains_true.
  - apply dict_contains_false. rewrite Hk. now apply dict_contains_false.
Qed.

Lemma keys_missing_defaults (fields : list (string * field)) (vs values : dict) :
  Forall2 (field_parsed vs) fields values ->
  keys (missing_defaults fields vs) = absent_names fields vs.
Proof.
  unfold absent_names, missing_defaults.
  induction 1 as [|[n f] [k x] fs values' [Hk Hv] _ IH]; [reflexivity|].
  cbn [omap list_omap keys map List.filter fst snd].
  unfold field_value in Hv. cbn [fst snd] in Hv.
  destruct (dict_contains vs n) eqn:E; cbn [negb]; [exact IH|].
  unfold dict_contains in E. destruct (dict_get vs n); [discriminate|].
  rewrite Hv. cbn [option_map keys map fst]. f_equal. exact IH.
Qed.

(** X8. The two trees that [fill_and_validate] returns have the same
    keys in the same order: the keys of the input, in its order, followed by
    the declared names that the input does not supply, in the order of the
    schema. *)
Theorem filled_keys_in_order (cls : store) (items : dict)
        (fields : list (string * field)) (extra : extra_policy) (filled validation : dict) :
  wf_config (VDict items) = true ->
  nodup_keys (keys fields) = true ->
  fill_and_validate cls (VDict items) (TModel fields extra) = Ok (filled, validation) ->
  keys filled = keys items ++ absent_names fields items /\
  keys validation = keys filled.
Proof.
  intros Hw Hf Hrun. apply wf_config_inv in Hw as [Hi _]. apply nodup_keys_NoDup in Hf.
  apply fill_and_validate_closed in Hrun
    as (fs & vs & parsed & He & Hp & Hnd & -> & ->); [|exact Hi|exact Hf].
  apply parse_obj_spec in Hp as (values & Hvals & _ & _).
  destruct (entries_filled_keys _ _ _ _ _ He) as [Hkf Hkv].
  rewrite !keys_app.
  rewrite keys_map_override, Hkf, Hkv, (keys_missing_defaults fields vs values Hvals).
  split; [|reflexivity]. f_equal. unfold absent_names.
  apply filter_ext. intros n. f_equal. now apply dict_contains_keys.
Qed.

Lemma filled_keys_in_order_witness :
  keys [("n", VStr "12"); ("m", VInt 5)] = keys Scenario.sizes ++ ["m"] /\
  keys [("n", VInt 12); ("m", VInt 5)] = keys [("n", VStr "12"); ("m", VInt 5)].
Proof.
  apply (filled_keys_in_order Scenario.registry Scenario.sizes Scenario.sizes_fields Ignore).
  - reflexivity.
  - reflexivity.
  - vm_compute. reflexivity.
Defined.

Lemma fill_items_prefix (cls : store) (schema : ty) (pre l accf accv : dict) :
  Forall (fun kv => exists r, fill_entry cls schema (fst kv) (snd kv) = Ok r) pre ->
  exists accf' accv',
    fill_items cls schema (pre ++ l) accf accv = fill_items cls schema l accf' accv'.
Proof.
  intros Hpre. revert accf accv.
  induction Hpre as [|[k x] pre [[fv vv] Hr] _ IH]; intros accf accv.
  - exists accf, accv. reflexivity.
  - simpl app. rewrite fill_items_cons. simpl in Hr. rewrite Hr. cbn [bind]. apply IH.
Qed.

(** X9. A nested mapping that is not a promise must sit under a key that
    the schema declares: under any other key the lookup of its field raises
    [KeyError], whatever the policy of the schema on undeclared keys, as
    soon as the entries before it have been filled. *)
Theorem undeclared_section_raises (cls : store) (pre rest child : dict) (key : string)
        (fields : list (string * field)) (extra : extra_policy) :
  Forall (fun kv => exists r,
            fill_entry cls (TModel fields extra) (fst kv) (snd kv) = Ok r) pre ->
  is_promise (VDict child) = false ->
  dict_get fields key = None ->
  fill_and_validate cls (VDict (pre ++ (key, VDict child) :: rest)) (TModel fields extra)
  = Raise (KeyError key).
Proof.
  intros Hpre Hp Hget. rewrite fill_and_validate_unfold.
  destruct (fill_items_prefix cls (TModel fields extra) pre ((key, VDict child) :: rest)
              [] [] Hpre) as (accf & accv & ->).
  rewrite fill_items_cons. unfold fill_entry. rewrite Hp.
  unfold fields_getitem, getitem. rewrite Hget. reflexivity.
Qed.

Lemma undeclared_section_raises_witness :
  fill_and_validate Scenario.registry
    (VDict ([("model", Scenario.softmax_node)]
            ++ ("common", VDict [("width", VInt 300)]) :: []))
    (TModel [("model", Field (TObj "Model") None)] Ignore)
  = Raise (KeyError "common").
Proof.
  apply (undeclared_section_raises Scenario.registry [("model", Scenario.softmax_node)] []
           [("width", VInt 300)] "common").
  - constructor; [|constructor]. eexists. vm_compute. reflexivity.
  - reflexivity.
  - reflexivity.
Defined.

(** X10. On a mapping of scalars the engine is the parsing of the
    mapping against the schema: it raises exactly what the parsing raises,
    and otherwise returns the trees that [fill_defaults] builds from the
    mapping itself. *)
Theorem flat_node_is_parsed (cls : store) (items : dict) (schema : ty) :
  wf_config (VDict items) = true ->
  Forall (fun kv => is_mapping (snd kv) = false) items ->
  fill_and_validate cls (VDict items) schema = fill_defaults schema items items /\
  (forall e, fill_and_validate cls (VDict items) schema = Raise e <->
             parse_obj schema items = Raise e).
Proof.
  intros Hw Hs. apply wf_config_inv in Hw as [Hnd _].
  assert (fill_and_validate cls (VDict items) schema = fill_defaults schema items items) as Heq.
  { rewrite fill_and_validate_unfold.
    rewrite (fill_items_complete cls schema items items items [] []); try reflexivity.
    - apply entries_filled_scalars. rewrite List.Forall_forall in Hs. exact Hs.
    - exact Hnd. }
  split; [exact Heq|]. intros e. rewrite Heq. unfold fill_defaults.
  destruct (parse_obj schema items) as [parsed|e']; cbn [bind].
  - split; discriminate.
  - split; intros [= ->]; reflexivity.
Qed.

Lemma flat_node_is_parsed_witness :
  fill_and_validate Scenario.registry
    (VDict [("@layers", VStr "Embed.v0"); ("nO", VInt 4); ("0", VInt 1)])
    (TModel (promise_fields "@layers" Scenario.Embed) Forbid)
  = Raise (ValidationError [(["nV"], Missing); (["0"], Extra_forbidden)]).
Proof.
  apply (proj2 (flat_node_is_parsed Scenario.registry
                  [("@layers", VStr "Embed.v0"); ("nO", VInt 4); ("0", VInt 1)]
                  (TModel (promise_fields "@layers" Scenario.Embed) Forbid)
                  eq_refl
                  ltac:(repeat constructor))).
  vm_compute. reflexivity.
Defined.

(** X11. In [filled] a promise is preserved: the entry of a promise of
    the input is again a promise, with the same sigil key and the same name
    under it, hence the same constructor, and with every scalar that the
    input supplies for it. *)
Theorem filled_preserves_promises (cls : store) (items : dict)
        (fields : list (string * field)) (extra : extra_policy)
        (filled validation promise : dict) (key : string) :
  wf_store cls = true ->
  wf_config (VDict items) = true ->
  nodup_keys (keys fields) = true ->
  fill_and_validate cls (VDict items) (TModel fields extra) = Ok (filled, validation) ->
  dict_get items key = Some (VDict promise) ->
  is_promise (VDict promise) = true ->
  exists pf func,
    dict_get filled key = Some (VDict pf) /\
    is_promise (VDict pf) = true /\
    id_keys pf = id_keys promise /\
    get_constructor cls promise = Ok func /\
    get_constructor cls pf = Ok func /\
    forall k x, dict_get promise k = Some x -> is_mapping x = false ->
                dict_get pf k = Some x.
Proof.
  intros Hs Hw Hf Hrun Hget Hprom.
  pose proof Hw as Hw'. apply wf_config_inv in Hw' as [Hi Hchildren].
  apply nodup_keys_NoDup in Hf.
  apply fill_and_validate_closed in Hrun
    as (fs & vs & parsed & He & _ & _ & _ & ->); [|exact Hi|exact Hf].
  destruct (entries_filled_get _ _ _ _ _ key _ He Hget) as (fv & vv & Hent & Hfs & _).
  apply fill_entry_promise in Hent as (ps & pf & pv & t & Hps & Hrun & _ & -> & _);
    [|exact Hprom].
  destruct (make_promise_schema_inv any_field cls promise ps Hs Hps)
    as (skey & fname & func & Hid & Hv & Hg & Hc & ->).
  unfold check_constructor in Hc. apply andb_true_iff in Hc as [Hwf _].
  assert (startswith_at skey = true) as Hskey
    by (apply (id_keys_sigil promise); rewrite Hid; now left).
  assert (wf_config (VDict promise) = true) as Hwp.
  { rewrite List.Forall_forall in Hchildren.
    exact (Hchildren (key, VDict promise) (dict_get_In _ _ _ Hget)). }
  apply wf_config_inv in Hwp as [Hpnd _].
  apply fill_and_validate_closed in Hrun
    as (pfs & pvs & pparsed & Hpe & _ & _ & _ & ->);
    [|exact Hpnd|now apply promise_fields_sigil].
  assert (same_head promise (pfs ++ missing_defaults (promise_fields skey func) pvs)) as Hh.
  { apply (promise_filled_same_head cls skey func promise pfs pvs Hwf); [|exact Hpe].
    apply dict_get_In in Hv. now apply (in_map fst) in Hv. }
  exists (pfs ++ missing_defaults (promise_fields skey func) pvs), func.
  split; [rewrite dict_get_app; now rewrite Hfs|].
  split; [now rewrite (is_promise_same_head _ _ Hh)|].
  split; [exact (proj1 Hh)|]. split; [exact Hg|].
  split; [now apply (get_constructor_again cls promise)|exact (proj2 Hh)].
Qed.

Lemma filled_preserves_promises_witness :
  exists pf func,
    dict_get [("model", VDict [("@layers", VStr "Softmax.v0"); ("nO", VInt 2)])] "model"
    = Some (VDict pf) /\
    is_promise (VDict pf) = true /\
    id_keys pf = id_keys [("@layers", VStr "Softmax.v0")] /\
    get_constructor Scenario.registry [("@layers", VStr "Softmax.v0")] = Ok func /\
    get_constructor Scenario.registry pf = Ok func /\
    forall k x, dict_get [("@layers", VStr "Softmax.v0")] k = Some x ->
                is_mapping x = false -> dict_get pf k = Some x.
Proof.
  apply (filled_preserves_promises Scenario.registry
           [("model", VDict [("@layers", VStr "Softmax.v0")])]
           [("model", Field (TObj "Model") None)] Ignore
           [("model", VDict [("@layers", VStr "Softmax.v0"); ("nO", VInt 2)])]
           [("model", VObj "Model" [])]).
  - vm_compute. reflexivity.
  - reflexivity.
  - reflexivity.
  - vm_compute. reflexivity.
  - reflexivity.
  - reflexivity.
Defined.

Lemma dict_get_filter_keys (p : string -> bool) (d : dict) (k : string) :
  dict_get (List.filter (fun kv => p (fst kv)) d) k
  = if p k then dict_get d k else None.
Proof.
  induction d as [|[k0 w] d IH]; simpl; [now destruct (p k)|].
  destruct (p k0) eqn:Hp0; simpl.
  - destruct (String.eqb k0 k) eqn:E; [|exact IH].
    apply String.eqb_eq in E. subst k0. now rewrite Hp0.
  - destruct (String.eqb k0 k) eqn:E; [|exact IH].
    apply String.eqb_eq in E. subst k0. rewrite Hp0 in IH. now rewrite Hp0.
Qed.

(** X12. In [validation] a promise is represented by its return type:
    the entry of a promise of the input is the bare instance of the class
    that its constructor is annotated to return, as the schema parses it
    when it declares the key, and as it is otherwise. No constructor is
    called for it. *)
Theorem validation_represents_promises (cls : store) (items : dict)
        (fields : list (string * field)) (extra : extra_policy)
        (filled validation promise : dict) (key : string) :
  wf_config (VDict items) = true ->
  nodup_keys (keys fields) = true ->
  fill_and_validate cls (VDict items) (TModel fields extra) = Ok (filled, validation) ->
  dict_get items key = Some (VDict promise) ->
  is_promise (VDict promise) = true ->
  exists func,
    get_constructor cls promise = Ok func /\
    match dict_get fields key with
    | Some f =>
        exists x, validate (type_ f) (new (return_annotation func)) = inl x /\
                  dict_get validation key = Some x
    | None => dict_get validation key = Some (new (return_annotation func))
    end.
Proof.
  intros Hw Hf Hrun Hget Hprom.
  apply wf_config_inv in Hw as [Hi _]. apply nodup_keys_NoDup in Hf.
  apply fill_and_validate_closed in Hrun
    as (fs & vs & parsed & He & Hp & _ & -> & _); [|exact Hi|exact Hf].
  destruct (entries_filled_get _ _ _ _ _ key _ He Hget) as (fv & vv & Hent & _ & Hvs).
  apply fill_entry_promise in Hent as (ps & pf & pv & t & _ & _ & Ht & _ & ->);
    [|exact Hprom].
  unfold get_return_type in Ht.
  destruct (get_constructor cls promise) as [func|e]; [|discriminate].
  cbn [bind] in Ht. unfold signature in Ht.
  destruct (signature_error func); [discriminate|].
  cbn [bind] in Ht. injection Ht as <-.
  exists func. split; [reflexivity|].
  apply parse_obj_spec in Hp as (values & Hvals & _ & ->).
  rewrite dict_get_app, dict_get_map_override, Hvs, dict_get_app.
  destruct (dict_get fields key) as [f|] eqn:Hfield.
  - destruct (field_parsed_get _ _ _ key f Hvals Hfield) as (x & Hval & Hx).
    rewrite Hx. exists x. split; [|reflexivity].
    unfold field_value in Hval. simpl in Hval. rewrite Hvs in Hval.
    destruct (validate (type_ f) (new (return_annotation func))); congruence.
  - assert (dict_get values key = None) as ->.
    { apply dict_get_None. rewrite (field_parsed_keys _ _ _ Hvals).
      now apply dict_get_None. }
    destruct extra; try reflexivity.
    unfold extras. rewrite (dict_get_filter_keys (fun k => negb (has_field fields k))).
    unfold has_field, dict_contains. rewrite Hfield. simpl. now rewrite Hvs.
Qed.

Lemma validation_represents_promises_witness :
  exists func,
    get_constructor Scenario.registry [("@layers", VStr "Softmax.v0")] = Ok func /\
    exists x, validate (TObj "Model") (new (return_annotation func)) = inl x /\
              dict_get [("model", VObj "Model" [])] "model" = Some x.
Proof.
  apply (validation_represents_promises Scenario.registry
           [("model", VDict [("@layers", VStr "Softmax.v0")])]
           [("model", Field (TObj "Model") None)] Ignore
           [("model", VDict [("@layers", VStr "Softmax.v0"); ("nO", VInt 2)])]
           [("model", VObj "Model" [])] [("@layers", VStr "Softmax.v0")] "model").
  - reflexivity.
  - reflexivity.
  - vm_compute. reflexivity.
  - reflexivity.
  - reflexivity.
Defined.

(** X13. The engine has no partial success: the first entry whose filling
    raises makes the whole call raise that exception, as it is; the entries
    after it are not looked at and the node itself is never parsed. *)
Theorem fill_first_failure (cls : store) (schema : ty) (pre rest : dict)
        (key : string) (value : value) (e : exn) :
  Forall (fun kv => exists r, fill_entry cls schema (fst kv) (snd kv) = Ok r) pre ->
  fill_entry cls schema key value = Raise e ->
  fill_and_validate cls (VDict (pre ++ (key, value) :: rest)) schema = Raise e.
Proof.
  intros Hpre He. rewrite fill_and_validate_unfold.
  destruct (fill_items_prefix cls schema pre ((key, value) :: rest) [] [] Hpre)
    as (accf & accv & ->).
  rewrite fill_items_cons, He. reflexivity.
Qed.

(** The promise under [model] names a function that is not registered: the
    call raises the error of the lookup, although [width] before it is fine
    and the schema does not even declare [width]. *)
Lemma fill_first_failure_witness :
  fill_and_validate Scenario.registry
    (VDict ([("width", VInt 300)]
            ++ ("model", VDict [("@layers", VStr "Missing.v0")]) :: []))
    (TModel [("model", Field (TObj "Model") None)] Forbid)
  = Raise (RegistryError (VStr "Missing.v0") "layers").
Proof.
  apply (fill_first_failure Scenario.registry _ [("width", VInt 300)] [] "model").
  - constructor; [|constructor]. eexists. reflexivity.
  - vm_compute. reflexivity.
Defined.

(** * Further properties of the argument binder *)

(** Without digit keys nothing is converted and nothing is sorted. *)
Lemma parse_args_no_digit (obj : dict) :
  List.NoDup (keys obj) ->
  Forall (fun kv => isdigit (fst kv) = false) obj ->
  parse_args obj = Ok ([], List.filter (fun kv => negb (startswith_at (fst kv))) obj).
Proof.
  intros Hnd Hall.
  assert (positional obj = []) as Hpos.
  { unfold positional. clear Hnd. induction Hall as [|kv l Hd _ IH]; [reflexivity|].
    simpl. unfold is_positional at 1. rewrite Hd, andb_false_r. exact IH. }
  rewrite parse_args_ok by (rewrite Hpos; constructor).
  rewrite Hpos. cbn [map sorted bind].
  assert (keyword obj = List.filter (fun kv => negb (startswith_at (fst kv))) obj) as Hk.
  { unfold keyword. apply filter_ext_in. intros kv Hin.
    rewrite List.Forall_forall in Hall. unfold is_keyword.
    rewrite (Hall kv Hin). now rewrite andb_true_r. }
  rewrite (fold_dict_set_fresh (keyword obj) []); [now rewrite Hk|].
  simpl. now apply keys_filter_NoDup.
Qed.

(** X14. A node without digit keys always binds: [parse_args] converts
    no key and makes no comparison, so it cannot raise; it returns no
    positional argument and, as keyword arguments, the entries of the node
    other than the sigil ones, in their order. *)
Theorem keyword_only_binding (obj : dict) :
  nodup_keys (keys obj) = true ->
  Forall (fun kv => isdigit (fst kv) = false) obj ->
  parse_args obj
  = Ok ([], List.filter (fun kv => negb (startswith_at (fst kv))) obj).
Proof.
  intros Hnd Hall. apply nodup_keys_NoDup in Hnd. now apply parse_args_no_digit.
Qed.

Lemma keyword_only_binding_witness :
  parse_args [("nO", VInt 4); ("@layers", VStr "Embed.v0"); ("nV", VInt 10)]
  = Ok ([], [("nO", VInt 4); ("nV", VInt 10)]).
Proof.
  apply (keyword_only_binding [("nO", VInt 4); ("@layers", VStr "Embed.v0"); ("nV", VInt 10)]).
  - reflexivity.
  - repeat (constructor; [vm_compute; reflexivity|]). constructor.
Defined.

(** * Filling, then resolving *)

Lemma entries_filled_scalars_inv (cls : store) (schema : ty) (items fs vs : dict) :
  Forall (fun kv => is_mapping (snd kv) = false) items ->
  entries_filled cls schema items fs vs -> fs = items /\ vs = items.
Proof.
  intros Hs He. induction He as [|key value fv vv rest fs vs Hent _ IH]; [auto|].
  inversion Hs as [|? ? Hv Hrest]; subst. simpl in Hv.
  rewrite (fill_entry_scalar cls schema key value Hv) in Hent. injection Hent as <- <-.
  destruct (IH Hrest) as [-> ->]. auto.
Qed.

Lemma extras_nil_declared (fields : list (string * field)) (obj : dict) (k : string) :
  extras fields obj = [] -> In k (keys obj) -> In k (keys fields).
Proof.
  unfold extras. intros Hnil Hin.
  apply in_map_iff in Hin as ([k' v] & Hk & Hin). simpl in Hk. subst k'.
  destruct (has_field fields k) eqn:E; [now apply dict_contains_true in E|].
  assert (In (k, v) (List.filter (fun kv => negb (has_field fields (fst kv))) obj)) as H
    by (apply filter_In; simpl; now rewrite E).
  rewrite Hnil in H. destruct H.
Qed.

Lemma resolve_scalars (cls : store) (items : dict) :
  List.NoDup (keys items) ->
  Forall (fun kv => is_mapping (snd kv) = false) items ->
  resolve_items cls items [] = ret items.
Proof.
  intros Hnd Hs. apply (resolve_items_keep cls items [] Hnd).
  eapply List.Forall_impl; [|exact Hs]. intros [k v] Hv. simpl in *.
  destruct v; try reflexivity. discriminate.
Qed.

Section filled_promise.
Variables (cls : store) (promise : dict) (key : string) (func : constructor).
Hypothesis Hnd : List.NoDup (keys promise).
Hypothesis Hscalars : Forall (fun kv => is_mapping (snd kv) = false) promise.
Hypothesis Hid : id_keys promise = [key].
Hypothesis Hwf : wf_names func = true.
Hypothesis Hdefaults : scalar_defaults func = true.
Hypothesis Hnames : Forall (fun p => isdigit (name p) = false) (parameters func).
Hypothesis Hforbid : extras (promise_fields key func) promise = [].

Let fields := promise_fields key func.
Let md := missing_defaults fields promise.

Lemma filled_promise_key : startswith_at key = true /\ In key (keys promise).
Proof.
  assert (In key (id_keys promise)) as H by (rewrite Hid; now left).
  split; [now apply (id_keys_sigil promise)|].
  unfold id_keys in H. now apply filter_In in H as [? _].
Qed.

Lemma filled_promise_fields (k : string) :
  In k (keys fields) <-> k = key \/ In k (map name (parameters func)).
Proof.
  unfold fields, promise_fields, keys. simpl. rewrite map_map. simpl.
  split; (intros [H|H]; [left; now symmetry|right; exact H]).
Qed.

Lemma filled_promise_md (kv : string * value) :
  In kv md ->
  ~ In (fst kv) (keys promise) /\
  is_mapping (snd kv) = false /\
  exists p, In p (parameters func) /\ name p = fst kv /\ param_default p = Some (snd kv).
Proof.
  intros Hin. apply missing_defaults_In in Hin as (Habs & f & Hf & Hd).
  split; [exact Habs|].
  destruct Hf as [Heq|Hf].
  - injection Heq as Heq _. exfalso. apply Habs. rewrite <- Heq.
    exact (proj2 filled_promise_key).
  - apply in_map_iff in Hf as (p & Hp & Hin). injection Hp as Hn Hfield. subst f.
    simpl in Hd. split; [|exists p; auto].
    unfold scalar_defaults in Hdefaults. rewrite forallb_forall in Hdefaults.
    specialize (Hdefaults p Hin). rewrite Hd in Hdefaults.
    now apply negb_true_iff in Hdefaults.
Qed.

Lemma filled_promise_keys_NoDup : List.NoDup (keys (promise ++ md)).
Proof.
  rewrite keys_app. apply NoDup_app_In. split; [exact Hnd|]. split.
  - intros k Hin Hm. apply in_map_iff in Hm as (kv & <- & Hm).
    now apply filled_promise_md in Hm as [? _].
  - apply missing_defaults_NoDup.
    now apply promise_fields_sigil; [apply filled_promise_key|exact Hwf].
Qed.

Lemma filled_promise_declared (k : string) :
  In k (keys (promise ++ md)) -> In k (keys fields).
Proof.
  rewrite keys_app. intros Hin. apply in_app_or in Hin as [Hin|Hin].
  - now apply (extras_nil_declared fields promise).
  - apply in_map_iff in Hin as (kv & <- & Hin).
    apply filled_promise_md in Hin as (_ & _ & p & Hp & <- & _).
    apply filled_promise_fields. right. now apply in_map.
Qed.

Lemma filled_promise_no_digit :
  Forall (fun kv => isdigit (fst kv) = false) (promise ++ md).
Proof.
  apply List.Forall_forall. intros kv Hin.
  assert (In (fst kv) (keys fields)) as Hk
    by (apply filled_promise_declared; now apply in_map).
  apply filled_promise_fields in Hk as [->|Hk].
  - apply sigil_not_digit. exact (proj1 filled_promise_key).
  - apply in_map_iff in Hk as (p & <- & Hp).
    rewrite List.Forall_forall in Hnames. now apply Hnames.
Qed.

End filled_promise.

(** X15. Filling, then resolving. Take a promise of scalars and a
    constructor with well-formed parameter names, none of them a digit key,
    and no mapping among its declared defaults.  When the promise has been
    filled against the schema of the constructor, resolving the filled
    promise makes one call, of the constructor, with no positional argument
    and with every declared parameter as a keyword argument, each exactly
    once: the values that the promise supplies, and the declared defaults
    for the parameters that it omits. *)
Theorem filled_promise_call (cls : store) (promise pf pv : dict)
        (key : string) (func : constructor) :
  wf_config (VDict promise) = true ->
  Forall (fun kv => is_mapping (snd kv) = false) promise ->
  id_keys promise = [key] ->
  get_constructor cls promise = Ok func ->
  wf_names func = true ->
  scalar_defaults func = true ->
  Forall (fun p => isdigit (name p) = false) (parameters func) ->
  fill_and_validate cls (VDict promise) (TModel (promise_fields key func) Forbid)
  = Ok (pf, pv) ->
  exists kwargs,
    make_from_config cls (VDict pf)
    = ([Invoke (qualname func) [] kwargs], call func [] kwargs) /\
    Permutation (keys kwargs) (map name (parameters func)) /\
    (forall k x, dict_get promise k = Some x -> startswith_at k = false ->
                 dict_get kwargs k = Some x) /\
    (forall p d, In p (parameters func) -> dict_get promise (name p) = None ->
                 param_default p = Some d -> dict_get kwargs (name p) = Some d).
Proof.
  intros Hw Hs Hid Hg Hwf Hsc Hnames Hrun.
  apply wf_config_inv in Hw as [Hnd _].
  pose proof (filled_promise_key promise key Hid) as [Hkey Hkin].
  destruct (promise_fields_sigil key func Hkey Hwf) as [_ Hfnd].
  apply fill_and_validate_closed in Hrun
    as (fs & vs & parsed & He & Hp & _ & _ & ->); [|exact Hnd|exact Hfnd].
  destruct (entries_filled_scalars_inv cls _ promise fs vs Hs He) as [-> ->].
  apply parse_obj_spec in Hp as (values & Hvals & Hforbid & _).
  specialize (Hforbid eq_refl).
  set (md := missing_defaults (promise_fields key func) promise) in *.
  pose proof (promise_filled_same_head cls key func promise promise promise Hwf Hkin He) as Hh.
  fold md in Hh.
  pose proof (filled_promise_keys_NoDup promise key func Hnd Hid Hwf Hsc) as Hpnd.
  fold md in Hpnd.
  pose proof (filled_promise_no_digit promise key func Hid Hsc Hnames Hforbid) as Hdig.
  fold md in Hdig.
  assert (Forall (fun kv => is_mapping (snd kv) = false) (promise ++ md)) as Hps.
  { apply Forall_app. split; [exact Hs|]. apply List.Forall_forall. intros kv Hin.
    now apply (filled_promise_md promise key func Hid Hsc) in Hin as (_ & ? & _). }
  exists (List.filter (fun kv => negb (startswith_at (fst kv))) (promise ++ md)).
  split; [|split; [|split]].
  - rewrite make_from_config_unfold, (resolve_scalars cls _ Hpnd Hps), bind_run_ret.
    unfold finish. rewrite (is_promise_same_head _ _ Hh).
    unfold is_promise. rewrite Hid. simpl.
    rewrite (get_constructor_again cls promise _ func Hh Hg).
    rewrite (parse_args_no_digit _ Hpnd Hdig). reflexivity.
  - apply Stdlib.Sorting.Permutation.NoDup_Permutation.
    + now apply keys_filter_NoDup.
    + now apply wf_names_inv in Hwf as [? _].
    + intros k. split.
      * intros Hin. apply in_map_iff in Hin as (kv & <- & Hin).
        apply filter_In in Hin as [Hin Hns]. apply negb_true_iff in Hns.
        assert (In (fst kv) (keys (promise_fields key func))) as Hk
          by (apply (filled_promise_declared promise key func Hid Hsc Hforbid);
              now apply in_map).
        apply filled_promise_fields in Hk as [Heq|Hk]; [congruence|exact Hk].
      * intros Hin.
        assert (startswith_at k = false) as Hns.
        { apply wf_names_inv in Hwf as [_ Hn]. rewrite List.Forall_forall in Hn.
          now destruct (Hn k Hin). }
        assert (In k (keys (promise ++ md))) as Hk.
        { rewrite keys_app. apply in_or_app.
          destruct (dict_get promise k) as [x|] eqn:Hget.
          - left. apply dict_get_In in Hget. now apply (in_map fst) in Hget.
          - right. apply in_map_iff in Hin as (p & <- & Hp).
            assert (dict_get (promise_fields key func) (name p)
                    = Some (Field (annotation p) (param_default p))) as Hf.
            { apply (In_dict_get _ _ _ Hfnd). right. now apply (in_map param_field). }
            destruct (field_parsed_get _ _ _ _ _ Hvals Hf) as (x & Hval & _).
            unfold field_value in Hval. simpl in Hval. rewrite Hget in Hval.
            pose proof (dict_get_missing_defaults _ promise _ _ Hfnd Hget Hf) as Hm.
            simpl in Hm. rewrite Hval in Hm. apply dict_get_In in Hm.
            now apply (in_map fst) in Hm. }
        apply in_map_iff in Hk as (kv & <- & Hk).
        apply in_map. apply filter_In. split; [exact Hk|]. now rewrite Hns.
  - intros k x Hget Hns.
    rewrite (dict_get_filter_keys (fun k => negb (startswith_at k))), Hns. simpl.
    rewrite dict_get_app. now rewrite Hget.
  - intros p d Hp Hget Hd.
    assert (startswith_at (name p) = false) as Hns.
    { apply wf_names_inv in Hwf as [_ Hn]. rewrite List.Forall_forall in Hn.
      now destruct (Hn (name p) (in_map name _ _ Hp)). }
    rewrite (dict_get_filter_keys (fun k => negb (startswith_at k))), Hns. simpl.
    rewrite dict_get_app, Hget.
    assert (dict_get (promise_fields key func) (name p)
            = Some (Field (annotation p) (param_default p))) as Hf.
    { apply (In_dict_get _ _ _ Hfnd). right. now apply (in_map param_field). }
    unfold md. rewrite (dict_get_missing_defaults _ promise _ _ Hfnd Hget Hf). exact Hd.
Qed.

(** [{"@layers": "Softmax.v0"}], once filled, calls [Softmax.v0] with its
    one parameter, [nO], at its default. *)
Lemma filled_promise_call_witness :
  exists kwargs,
    make_from_config Scenario.registry
      (VDict [("@layers", VStr "Softmax.v0"); ("nO", VInt 2)])
    = ([Invoke "Softmax" [] kwargs], call Scenario.Softmax [] kwargs) /\
    Permutation (keys kwargs) ["nO"] /\
    (forall k x, dict_get [("@layers", VStr "Softmax.v0")] k = Some x ->
                 startswith_at k = false -> dict_get kwargs k = Some x) /\
    (forall p d, In p (parameters Scenario.Softmax) ->
                 dict_get [("@layers", VStr "Softmax.v0")] (name p) = None ->
                 param_default p = Some d -> dict_get kwargs (name p) = Some d).
Proof.
  apply (filled_promise_call Scenario.registry [("@layers", VStr "Softmax.v0")]
           [("@layers", VStr "Softmax.v0"); ("nO", VInt 2)]
           [("@layers", VStr "Softmax.v0"); ("nO", VInt 2)]
           "@layers" Scenario.Softmax).
  - reflexivity.
  - repeat constructor.
  - reflexivity.
  - vm_compute. reflexivity.
  - reflexivity.
  - reflexivity.
  - repeat (constructor; [vm_compute; reflexivity|]). constructor.
  - vm_compute. reflexivity.
Defined.

(** * Edge behaviour *)

(** X16. A mapping can only be filled against a model. The engine is
    called on a nested mapping with the type of its field as the schema;
    when that type is not a model, [typing.Any] included, the call never
    succeeds, and on a mapping of scalars it raises [AttributeError] at
    [parse_obj]. *)
Theorem not_a_model_raises (cls : store) (items : dict) (schema : ty) :
  is_model schema = false ->
  (exists e, fill_and_validate cls (VDict items) schema = Raise e) /\
  (Forall (fun kv => is_mapping (snd kv) = false) items ->
   fill_and_validate cls (VDict items) schema = Raise (AttributeError "parse_obj")).
Proof.
  intros Hm. split.
  - destruct (fill_and_validate cls (VDict items) schema) as [[f v]|e] eqn:Hrun; [|eauto].
    destruct (fill_and_validate_model cls items schema f v Hrun) as (fields & extra & ->).
    discriminate.
  - intros Hs. rewrite fill_and_validate_unfold.
    destruct (fill_items_prefix cls schema items [] [] []) as (accf & accv & Hl).
    + eapply List.Forall_impl; [|exact Hs]. intros [k x] Hx. simpl in *.
      exists (x, x). now apply fill_entry_scalar.
    + rewrite app_nil_r in Hl. rewrite Hl. simpl. unfold fill_defaults, parse_obj.
      destruct schema; try reflexivity. discriminate.
Qed.

Lemma not_a_model_raises_witness :
  fill_and_validate Scenario.registry (VDict [("width", VInt 300)]) TAny
  = Raise (AttributeError "parse_obj").
Proof.
  apply (proj2 (not_a_model_raises Scenario.registry [("width", VInt 300)] TAny eq_refl)).
  repeat constructor.
Defined.

Lemma tuple_lt_raises (a b : Z * value) (e : exn) :
  tuple_lt a b = Raise e -> e = TypeError /\ fst a = fst b.
Proof.
  unfold tuple_lt. destruct (fst a =? fst b) eqn:E; [|discriminate].
  apply Z.eqb_eq in E. destruct (py_eq (snd a) (snd b)); [discriminate|].
  unfold py_lt. destruct (as_int (snd a)), (as_int (snd b));
    try discriminate; destruct (snd a), (snd b); try discriminate;
    intros [= <-]; auto.
Qed.

Lemma insert_raises (x : Z * value) (l : list (Z * value)) (e : exn) :
  insert x l = Raise e -> e = TypeError /\ In (fst x) (map fst l).
Proof.
  induction l as [|y l IH]; simpl; [discriminate|].
  destruct (tuple_lt y x) as [[|]|e'] eqn:E; simpl.
  - destruct (insert x l) as [r|e'] eqn:E'; simpl; [discriminate|].
    intros [= ->]. destruct (IH eq_refl) as [-> Hin]. auto.
  - discriminate.
  - intros [= ->]. apply tuple_lt_raises in E as [-> Heq]. auto.
Qed.

Lemma sorted_raises (l : list (Z * value)) (e : exn) :
  sorted l = Raise e -> e = TypeError /\ ~ List.NoDup (map fst l).
Proof.
  induction l as [|x l IH]; simpl; [discriminate|].
  destruct (sorted l) as [s|e'] eqn:Hs; simpl.
  - intros Hi. apply insert_raises in Hi as [-> Hin]. split; [reflexivity|].
    intros Hnd. inversion Hnd as [|? ? Hx _]; subst. apply Hx.
    apply sorted_perm_sorted in Hs as [Hp _].
    eapply Permutation_in; [|exact Hin]. now apply Permutation_map.
  - intros [= ->]. destruct (IH eq_refl) as [-> Hd]. split; [reflexivity|].
    intros Hnd. inversion Hnd; subst. auto.
Qed.

Lemma magnitude_raises (key : string) (l : list token) (e : exn) :
  magnitude key l = Raise e -> exists msg, e = ValueError msg.
Proof.
  unfold magnitude. destruct l as [|[| |d| |] l]; try (intros [= <-]; eauto).
  destruct (number d 1 l) as [[[n count] rest]|]; [|intros [= <-]; eauto].
  destruct (int_max_str_digits <? count); [intros [= <-]; eauto|].
  destruct (skip_spaces rest); [discriminate|intros [= <-]; eauto].
Qed.

(** [int] raises nothing but [ValueError]. *)
Lemma int_raises (key : string) (e : exn) :
  int key = Raise e -> exists msg, e = ValueError msg.
Proof.
  unfold int. destruct (code_points key) as [cps|]; [|intros [= <-]; eauto].
  destruct (skip_spaces (map classify cps)) as [|[|negative|d| |] l];
    try apply magnitude_raises.
  destruct (magnitude key l) as [n|e'] eqn:E; [discriminate|].
  cbn [bind]. intros [= <-]. exact (magnitude_raises key l e' E).
Qed.

(** X17. The two ways [parse_args] fails.  It raises the [ValueError] of
    [int] on a key that [isdigit] accepts and [int] does not convert, such
    as the superscript two; or, the keys all converted, it raises
    [TypeError], and only on a node where two digit keys have the same
    integer value, such as ["1"] and ["01"], whose values [sorted] then has
    to compare.  It raises nothing else. *)
Theorem parse_args_raises (obj : dict) (e : exn) :
  parse_args obj = Raise e ->
  (exists kv msg,
     In kv (positional obj) /\ int (fst kv) = Raise e /\ e = ValueError msg) \/
  (e = TypeError /\
   Forall (fun kv => converts (fst kv) = true) (positional obj) /\
   ~ List.NoDup (map (fun kv => position (fst kv)) (positional obj))).
Proof.
  unfold parse_args. pose proof (parse_items_spec obj [] []) as H.
  destruct (parse_items obj ([], [])) as [[args kwargs]|e'].
  - destruct H as [Hall Heq]. injection Heq as -> _. cbn [bind app].
    destruct (sorted (map key_of (positional obj))) as [r|e''] eqn:Hs; [discriminate|].
    cbn [bind]. intros [= ->]. right.
    apply sorted_raises in Hs as [-> Hd]. split; [reflexivity|]. split; [exact Hall|].
    now rewrite map_map in Hd.
  - destruct H as (pre & kv & post & Hsplit & _ & Hkv). cbn [bind]. intros [= ->]. left.
    destruct (int_raises _ _ Hkv) as [msg ->].
    exists kv, msg. split; [|auto]. rewrite Hsplit. apply in_or_app. right. now left.
Qed.

Lemma parse_args_raises_witness :
  (exists kv msg,
     In kv (positional [("@layers", VStr "Chain.v0");
                        ("1", VDict [("nO", VInt 2)]); ("01", VDict [])]) /\
     int (fst kv) = Raise TypeError /\ TypeError = ValueError msg) \/
  (TypeError = TypeError /\
   Forall (fun kv => converts (fst kv) = true)
     (positional [("@layers", VStr "Chain.v0");
                  ("1", VDict [("nO", VInt 2)]); ("01", VDict [])]) /\
   ~ List.NoDup
       (map (fun kv => position (fst kv))
            (positional [("@layers", VStr "Chain.v0");
                         ("1", VDict [("nO", VInt 2)]); ("01", VDict [])]))).
Proof.
  apply (parse_args_raises
           [("@layers", VStr "Chain.v0"); ("1", VDict [("nO", VInt 2)]); ("01", VDict [])]).
  vm_compute. reflexivity.
Defined.
